(** * maven_repo: the snapshot retention engine, the aggregate router and the
      resolution pipeline, embedded from the Go sources.

    - [service/cleanup.go]: [extractVersion], [cleanupDir], the ticker loop
      of [Start] with [Pause]/[Resume]/[Status];
    - [handler/maven.go]: [getAggregateRepos], [HandleDownload],
      [HandleHead], [HandleAggregateDownload], [TriggerCleanup];
    - [storage/local.go]: [List], [Get], [Head] of [LocalStorage].

    Go strings are byte strings: they are [string] here, one [ascii] per
    byte.  Go maps are [gmap]s; their iteration order, which Go leaves
    unspecified, is any permutation of [map_to_list]. *)

From Stdlib Require Import ZArith Ascii String List Permutation Sorted Lia.
From Stdlib Require DecimalString.
From stdpp Require Import base gmap strings list fin_maps.

Local Open Scope Z_scope.

(* ===================================================================== *)
(** * Go's [strings] package, as far as the sources use it *)
(* ===================================================================== *)

Module strings.

(** [strings.HasPrefix(s, prefix)] *)
Definition HasPrefix (s pre : string) : bool := String.prefix pre s.

(** [s[n:]] on a string *)
Fixpoint drop_bytes (n : nat) (s : string) : string :=
  match n, s with
  | O, _ => s
  | S _, EmptyString => EmptyString
  | S n', String _ s' => drop_bytes n' s'
  end.

(** [strings.TrimPrefix(s, prefix)] *)
Definition TrimPrefix (s pre : string) : string :=
  if HasPrefix s pre then drop_bytes (String.length pre) s else s.

Fixpoint in_cutset (c : ascii) (cutset : string) : bool :=
  match cutset with
  | EmptyString => false
  | String d cs => if Ascii.eqb c d then true else in_cutset c cs
  end.

(** [strings.TrimRight(s, cutset)]: all trailing bytes of [s] that occur
    in [cutset] are removed. *)
Fixpoint TrimRight (s cutset : string) : string :=
  match s with
  | EmptyString => EmptyString
  | String c s' =>
      match TrimRight s' cutset with
      | EmptyString => if in_cutset c cutset then EmptyString
                       else String c EmptyString
      | t => String c t
      end
  end.

(** The last byte of a string, if it has one. *)
Fixpoint last_byte (s : string) : option ascii :=
  match s with
  | EmptyString => None
  | String c EmptyString => Some c
  | String _ s' => last_byte s'
  end.

(** [strings.Index(s, substr)]: the first position of [substr] in [s],
    [-1] when there is none. *)
Definition Index (s substr : string) : Z :=
  match String.index 0 substr s with
  | Some n => Z.of_nat n
  | None => -1
  end.

(** [strings.Split(s, sep)] for a one-byte separator: [n + 1] pieces for
    [n] separators, so the empty string yields one empty piece. *)
Fixpoint Split (s : string) (sep : ascii) : list string :=
  match s with
  | EmptyString => [EmptyString]
  | String c s' =>
      if Ascii.eqb c sep then EmptyString :: Split s' sep
      else match Split s' sep with
           | [] => [String c EmptyString]
           | p :: ps => String c p :: ps
           end
  end.

(** [strings.Join(elems, sep)] *)
Fixpoint Join (elems : list string) (sep : string) : string :=
  match elems with
  | [] => EmptyString
  | [e] => e
  | e :: rest => e +:+ sep +:+ Join rest sep
  end.

(** [strings.HasSuffix(s, suffix)]:
    [len(s) >= len(suffix) && s[len(s)-len(suffix):] == suffix]. *)
Definition HasSuffix (s suffix : string) : bool :=
  (String.length suffix <=? String.length s)%nat
  && String.eqb (drop_bytes (String.length s - String.length suffix) s) suffix.

End strings.

(* ===================================================================== *)
(** * Go's [regexp], restricted to the shape of the two patterns used

    Both patterns of [cleanup.go] are anchored sequences of quantified
    one-byte classes with capture groups around runs of them.  Go matches
    leftmost-first: among all matches it returns the one a backtracking
    matcher finds, and a greedy quantifier prefers more repetitions.  The
    sources compile with the default (Perl) flags, so [.] does not match a
    line feed and [$] matches at the end of the text only. *)
(* ===================================================================== *)

Module regexp.

Inductive cclass :=
| CLit (c : ascii)   (* a literal byte *)
| CDigit             (* \d *)
| CAny.              (* .  *)

Definition is_digit (c : ascii) : bool :=
  let n := nat_of_ascii c in (48 <=? n)%nat && (n <=? 57)%nat.

Definition cclass_ok (k : cclass) (c : ascii) : bool :=
  match k with
  | CLit d => Ascii.eqb c d
  | CDigit => is_digit c
  | CAny => negb (Ascii.eqb c "010"%char)
  end.

(** A greedy quantified class: [cls{imin,imax}], no upper bound when
    [imax = None]. *)
Record item := Item { cls : cclass; imin : nat; imax : option nat }.

Definition lit (c : ascii) : item := Item (CLit c) 1 (Some 1%nat).
Definition plus (k : cclass) : item := Item k 1 None.
Definition star (k : cclass) : item := Item k 0 None.
Definition times (n : nat) (k : cclass) : item := Item k n (Some n).

(** An anchored pattern [^ items $] with capture groups, each given by
    the index of its first item and its number of items. *)
Record Regexp := { re_items : list item; re_groups : list (nat * nat) }.

Fixpoint span_len (p : ascii -> bool) (s : list ascii) : nat :=
  match s with
  | c :: s' => if p c then S (span_len p s') else O
  | [] => O
  end.

(** The most repetitions of [it] possible at the front of [s]. *)
Definition reach (it : item) (s : list ascii) : nat :=
  let n := span_len (cclass_ok (cls it)) s in
  match imax it with
  | Some m => Nat.min m n
  | None => n
  end.

(** Backtracking: try [lo + d], [lo + d - 1], ..., [lo] repetitions. *)
Fixpoint try_down {A} (f : nat -> option A) (lo d : nat) : option A :=
  match f (lo + d)%nat with
  | Some r => Some r
  | None => match d with
            | O => None
            | S d' => try_down f lo d'
            end
  end.

(** The segments consumed by the items, for the match a backtracking
    matcher finds first; [None] when the text does not match. *)
Fixpoint match_items (its : list item) (s : list ascii)
  : option (list (list ascii)) :=
  match its with
  | [] => match s with [] => Some [] | _ :: _ => None end
  | it :: rest =>
      let n := reach it s in
      if (n <? imin it)%nat then None
      else try_down
             (fun k => match match_items rest (skipn k s) with
                       | Some segs => Some (firstn k s :: segs)
                       | None => None
                       end)
             (imin it) (n - imin it)
  end.

Definition group_text (segs : list (list ascii)) (g : nat * nat) : string :=
  string_of_list_ascii (concat (firstn (snd g) (skipn (fst g) segs))).

(** [re.FindStringSubmatch(s)]: [nil] without a match, else the whole
    match followed by the text of each capture group. *)
Definition FindStringSubmatch (re : Regexp) (s : string)
  : option (list string) :=
  match match_items (re_items re) (list_ascii_of_string s) with
  | None => None
  | Some segs => Some (s :: map (group_text segs) (re_groups re))
  end.

(** What it means for a text to match, without any matching strategy. *)
Definition seg_ok (it : item) (seg : list ascii) : Prop :=
  Forall (fun c => cclass_ok (cls it) c = true) seg /\
  (imin it <= length seg)%nat /\
  (forall m, imax it = Some m -> (length seg <= m)%nat).

Definition Matches (its : list item) (s : list ascii) : Prop :=
  exists segs, Forall2 seg_ok its segs /\ concat segs = s.

End regexp.

(* ===================================================================== *)
(** * [service/cleanup.go]: the snapshot parser *)
(* ===================================================================== *)

Import regexp.

(** [uniqueSnapshotRegex]: caret, group 1 [.+], a hyphen, group 2
    [\d{8}\.\d{6}-\d+], group 3 [.] starred, dollar. *)
Definition uniqueSnapshotRegex : Regexp :=
  {| re_items := [ plus CAny; lit "-"%char;
                   times 8 CDigit; lit "."%char; times 6 CDigit; lit "-"%char;
                   plus CDigit;
                   star CAny ];
     re_groups := [ (0, 1); (2, 5); (7, 1) ]%nat |}.

(** [nonUniqueSnapshotRegex]: caret, group 1 [.+], a hyphen, group 2
    [SNAPSHOT], group 3 [.] starred, dollar. *)
Definition nonUniqueSnapshotRegex : Regexp :=
  {| re_items := [ plus CAny; lit "-"%char;
                   lit "S"%char; lit "N"%char; lit "A"%char; lit "P"%char;
                   lit "S"%char; lit "H"%char; lit "O"%char; lit "T"%char;
                   star CAny ];
     re_groups := [ (0, 1); (2, 8); (10, 1) ]%nat |}.

Definition extractVersion (name : string) : string :=
  match FindStringSubmatch uniqueSnapshotRegex name with
  | Some m => nth 1 m EmptyString +:+ "-" +:+ nth 2 m EmptyString
  | None =>
      match FindStringSubmatch nonUniqueSnapshotRegex name with
      | Some m => nth 1 m EmptyString +:+ "-" +:+ nth 2 m EmptyString
      | None =>
          let dotIdx := strings.Index name "." in
          if negb (dotIdx =? -1) then String.substring 0 (Z.to_nat dotIdx) name
          else name
      end
  end.


(** A name matches a pattern when it splits into one segment per item. *)
Definition matches (re : Regexp) (s : string) : Prop :=
  Matches (re_items re) (list_ascii_of_string s).

(** The third rule of the parser as the specification words it: the part of
    a name before its first dot, the whole name when it has none. *)
Fixpoint up_to_first_dot (s : string) : string :=
  match s with
  | EmptyString => EmptyString
  | String c s' => if Ascii.eqb c "." then EmptyString
                   else String c (up_to_first_dot s')
  end.

(** The pattern of group 2 of [uniqueSnapshotRegex] on its own: the
    timestamp and build number of a unique snapshot. *)
Definition buildStamp : Regexp :=
  {| re_items := firstn 5 (skipn 2 (re_items uniqueSnapshotRegex));
     re_groups := [] |}.

Definition starts_with_digit (s : string) : bool :=
  match s with
  | String c _ => is_digit c
  | EmptyString => false
  end.

(** A hyphen followed by a digit occurs in [s]. *)
Fixpoint hyphen_digit (s : string) : bool :=
  match s with
  | String c s' => (Ascii.eqb c "-" && starts_with_digit s') || hyphen_digit s'
  | EmptyString => false
  end.

(** A line feed, which the dot of a pattern does not match. *)
Definition LF : ascii := "010"%char.

(** The head of [l] is a digit. *)
Definition hd_digit (l : list ascii) : bool :=
  match l with
  | d :: _ => is_digit d
  | [] => false
  end.

(** The number of hyphens of [l] that a digit follows. *)
Fixpoint count_hd (l : list ascii) : nat :=
  match l with
  | c :: l' => ((if Ascii.eqb c "-" && hd_digit l' then 1 else 0)
                + count_hd l')%nat
  | [] => 0%nat
  end.


(* ===================================================================== *)
(** * Go's [path/filepath] and [time], as far as the sources use them *)
(* ===================================================================== *)

Module filepath.

Definition keep_seg (s : string) : bool :=
  negb (String.eqb s "") && negb (String.eqb s ".").

(** The lexical treatment of [..]: it cancels the element before it, is
    dropped at the start of a rooted path and kept at the start of a
    relative one.  [stack] holds the elements kept so far, last first. *)
Fixpoint resolve (rooted : bool) (stack segs : list string) : list string :=
  match segs with
  | [] => rev stack
  | seg :: rest =>
      if String.eqb seg ".." then
        match stack with
        | top :: stack' =>
            if String.eqb top ".." then resolve rooted (seg :: stack) rest
            else resolve rooted stack' rest
        | [] => if rooted then resolve rooted [] rest
                else resolve rooted [seg] rest
        end
      else resolve rooted (seg :: stack) rest
  end.

(** [filepath.Clean(p)] on a system whose separator is the slash. *)
Definition Clean (p : string) : string :=
  let rooted := strings.HasPrefix p "/" in
  let segs := resolve rooted [] (filter (fun s => keep_seg s = true)
                                        (strings.Split p "/")) in
  let body := strings.Join segs "/" in
  if rooted then "/" +:+ body
  else if String.eqb body "" then "." else body.

(** [filepath.Join(elems...)]: empty elements are ignored, the rest is
    joined with slashes and cleaned; no element left gives the empty
    string. *)
Definition Join (elems : list string) : string :=
  match filter (fun e => String.eqb e "" = false) elems with
  | [] => ""
  | ne => Clean (strings.Join ne "/")
  end.

End filepath.

Module time.

(** An instant, in nanoseconds since Go's zero [time.Time{}] (January 1 of
    year 1, UTC).  Instants before it are negative. *)
Definition Time := Z.

Definition zero : Time := 0.

(** [t.After(u)] *)
Definition After (t u : Time) : bool := u <? t.

(** [time.Duration] is an [int64] count of nanoseconds. *)
Definition minDuration : Z := - 2 ^ 63.
Definition maxDuration : Z := 2 ^ 63 - 1.

(** Go's signed 64-bit arithmetic wraps around. *)
Definition wrap64 (x : Z) : Z := (x + 2 ^ 63) mod 2 ^ 64 - 2 ^ 63.
Definition mul64 (a b : Z) : Z := wrap64 (a * b).

Definition Hour : Z := 3600 * 1000000000.

(** [t.Sub(u)]: the difference, saturated at the least and the greatest
    [Duration]. *)
Definition Sub (t u : Time) : Z :=
  if maxDuration <? t - u then maxDuration
  else if t - u <? minDuration then minDuration
  else t - u.

End time.

(** A Go slice: [None] is [nil]; [Some []] is empty but not [nil]. *)
Definition slice (A : Type) := option (list A).

Definition elems {A} (s : slice A) : list A := default [] s.

(** [append(s, x)] *)
Definition append {A} (s : slice A) (x : A) : slice A := Some (elems s ++ [x]).

(** A Go [error]: [None] is [nil], else the message. *)
Definition error := option string.

Definition is_nil {A} (e : option A) : bool :=
  match e with None => true | Some _ => false end.

(* ===================================================================== *)
(** * [config/config.go] and [storage/local.go] *)
(* ===================================================================== *)

Module config.

Record Config := {
  ProxyURLs : list string;
  SnapshotCleanupEnabled : bool;
  SnapshotCleanupInterval : string;
  SnapshotKeepDays : Z;
  SnapshotKeepLatestOnly : bool
}.

End config.

Module storage.

Record Entry := {
  Name : string;
  IsDir : bool;
  Size : Z;
  ModTime : time.Time
}.

(** An open [io.ReadCloser] is named by what it reads. *)
Definition ReadCloser := string.

(** The methods of [StorageProvider] that only read the store.  [Save] and
    [Delete] change it; the calls made to them are recorded by the callers
    below. *)
Record StorageProvider := {
  List : string -> slice Entry * error;
  Get : string -> option ReadCloser * bool * error;
  Head : string -> bool * error
}.

(** The file system, seen through [os.Stat], [os.Open] and [os.ReadDir]:
    what is found at a clean path.  [Dir] is a directory that [os.ReadDir]
    reads, with the names it returns.  [Unreadable] is a directory that
    [os.Stat] accepts and on which [os.ReadDir] fails: either it cannot be
    opened ([opens = false], as without read permission), or it opens and
    reading its entries fails.  [Denied] is a path on which all three calls
    fail with an error other than non-existence. *)
Inductive node :=
| File (size : Z) (mtime : time.Time)
| Dir (size : Z) (mtime : time.Time) (names : list string)
| Unreadable (size : Z) (mtime : time.Time) (opens : bool)
| Denied.

(** The error of [os.ReadDir] on an [Unreadable] directory. *)
Definition ReadDir_error (opens : bool) : string :=
  if opens then "input/output error" else "permission denied".

Abbreviation filesystem := (gmap string node).

(** [e.Info()] for the directory entry [name] of [fullPath]; [None] when it
    fails, in which case [List] skips the entry. *)
Definition entry_info (fs : filesystem) (fullPath name : string) : option Entry :=
  match fs !! filepath.Join [fullPath; name] with
  | Some (File sz mt) =>
      Some {| Name := name; IsDir := false; Size := sz; ModTime := mt |}
  | Some (Dir sz mt _) | Some (Unreadable sz mt _) =>
      Some {| Name := name; IsDir := true; Size := sz; ModTime := mt |}
  | _ => None
  end.

Definition LocalStorage_List (fs : filesystem) (BasePath path : string)
  : slice Entry * error :=
  let fullPath := filepath.Join [BasePath; path] in
  match fs !! fullPath with
  | None => (None, None)
  | Some Denied => (None, Some "permission denied")
  | Some (File _ _) => (None, None)
  | Some (Unreadable _ _ opens) => (None, Some (ReadDir_error opens))
  | Some (Dir _ _ names) =>
      (foldl (fun result name =>
                match entry_info fs fullPath name with
                | None => result
                | Some e => append result e
                end) None names,
       None)
  end.

(** [os.Open] succeeds on every existing path it may read, directories
    included. *)
Definition LocalStorage_Get (fs : filesystem) (BasePath path : string)
  : option ReadCloser * bool * error :=
  let fullPath := filepath.Join [BasePath; path] in
  match fs !! fullPath with
  | None => (None, false, None)
  | Some Denied | Some (Unreadable _ _ false) =>
      (None, false, Some "permission denied")
  | Some _ => (Some fullPath, true, None)
  end.

Definition LocalStorage_Head (fs : filesystem) (BasePath path : string)
  : bool * error :=
  let fullPath := filepath.Join [BasePath; path] in
  match fs !! fullPath with
  | None => (false, None)
  | Some Denied => (false, Some "permission denied")
  | Some _ => (true, None)
  end.

Definition LocalStorage (fs : filesystem) (BasePath : string) : StorageProvider :=
  {| List := LocalStorage_List fs BasePath;
     Get := LocalStorage_Get fs BasePath;
     Head := LocalStorage_Head fs BasePath |}.

End storage.

(* ===================================================================== *)
(** * [service/cleanup.go]: the retention engine *)
(* ===================================================================== *)

Module service.

Import config storage.

Record fileInfo := { fi_Name : string; fi_ModTime : time.Time }.

Record versionInfo := {
  vi_Name : string;
  MaxTime : time.Time;
  Files : list fileInfo
}.

(** The body of the first loop of [cleanupDir]: sub-directories and
    [maven-metadata*] files are skipped, every other file is appended to the
    group of its version. *)
Definition group_step (groups : gmap string (list fileInfo)) (e : Entry)
  : gmap string (list fileInfo) :=
  if IsDir e then groups
  else if strings.HasPrefix (Name e) "maven-metadata" then groups
  else
    let version := extractVersion (Name e) in
    <[version := default [] (groups !! version)
                 ++ [ {| fi_Name := Name e; fi_ModTime := ModTime e |} ]]> groups.

Definition group_entries (entries : list Entry) : gmap string (list fileInfo) :=
  foldl group_step ∅ entries.

(** The inner loop computing [maxTime], which starts from [time.Time{}]. *)
Definition maxTime_of (files : list fileInfo) : time.Time :=
  foldl (fun maxTime f =>
           if time.After (fi_ModTime f) maxTime then fi_ModTime f else maxTime)
        time.zero files.

Definition mk_version (kv : string * list fileInfo) : versionInfo :=
  {| vi_Name := kv.1; MaxTime := maxTime_of kv.2; Files := kv.2 |}.

(** [for name, files := range groups]: every entry of the map once, in an
    order Go does not specify. *)
Definition range_map {V} (m : gmap string V) (order : list (string * V)) : Prop :=
  order ≡ₚ map_to_list m.

(** The comparison handed to [sort.Slice]. *)
Definition less (a b : versionInfo) : bool := time.After (MaxTime a) (MaxTime b).

(** What [sort.Slice] guarantees: the slice is rearranged so that no element
    is [less] than one before it.  The sort is not stable. *)
Definition sort_Slice {A} (lt : A -> A -> bool) (l out : list A) : Prop :=
  l ≡ₚ out /\ StronglySorted (fun a b => lt b a = false) out.

(** The slice [versions] when the last loop of [cleanupDir] starts. *)
Definition sorted_versions (entries : list Entry) (out : list versionInfo) : Prop :=
  exists order, range_map (group_entries entries) order /\
                sort_Slice less (map mk_version order) out.

(** [time.Duration(s.Config.SnapshotKeepDays) * 24 * time.Hour] *)
Definition keepDays (cfg : Config) : Z :=
  time.mul64 (time.mul64 (SnapshotKeepDays cfg) 24) time.Hour.

Record verdict := {
  v_version : versionInfo;
  shouldDelete : bool;
  reason : string
}.

Definition expired (cfg : Config) (now : time.Time) (v : versionInfo) : bool :=
  (0 <? SnapshotKeepDays cfg) && (keepDays cfg <? time.Sub now (MaxTime v)).

Definition not_latest (cfg : Config) (i : nat) : bool :=
  SnapshotKeepLatestOnly cfg && (0 <? i)%nat.

(** One round of the last loop, for the version [v] at index [i]. *)
Definition judge (cfg : Config) (now : time.Time) (i : nat) (v : versionInfo)
  : verdict :=
  let '(shouldDelete, reason) :=
    if expired cfg now v then (true, "expired") else (false, "") in
  let '(shouldDelete, reason) :=
    if not_latest cfg i
    then (true, if String.eqb reason "" then "not latest" else reason)
    else (shouldDelete, reason) in
  {| v_version := v; shouldDelete := shouldDelete; reason := reason |}.

Definition judge_all (cfg : Config) (now : time.Time) (versions : list versionInfo)
  : list verdict :=
  imap (judge cfg now) versions.

(** The arguments of the calls to [Store.Delete], in order. *)
Definition delete_calls (dir : string) (vs : list verdict) : list string :=
  concat (map (fun v => if shouldDelete v
                        then map (fun f => filepath.Join [dir; fi_Name f])
                                 (Files (v_version v))
                        else []) vs).

(** A file of the directory is deleted when its name is among the files of a
    version judged [shouldDelete]. *)
Definition deletes (vs : list verdict) (name : string) : Prop :=
  exists v f, v ∈ vs /\ shouldDelete v = true /\ f ∈ Files (v_version v) /\
              fi_Name f = name.

(** The runs of [cleanupDir]: [Store.List] fails and so does the run, or
    the verdicts on the sorted versions. *)
Inductive cleanupDir_run (store : StorageProvider) (cfg : Config)
  (now : time.Time) (dir : string) : error + list verdict -> Prop :=
| cleanupDir_err entries msg :
    List store dir = (entries, Some msg) ->
    cleanupDir_run store cfg now dir (inl (Some msg))
| cleanupDir_ok entries versions :
    List store dir = (entries, None) ->
    sorted_versions (elems entries) versions ->
    cleanupDir_run store cfg now dir (inr (judge_all cfg now versions)).

(** One run that can be computed: the map is ranged over in the order of
    [map_to_list] and the sort is a stable insertion sort, which is what
    [sort.Slice] does on fewer than twelve elements. *)
Fixpoint insert_version (v : versionInfo) (l : list versionInfo) : list versionInfo :=
  match l with
  | [] => [v]
  | w :: l' => if less v w then v :: w :: l' else w :: insert_version v l'
  end.

Definition insertion_sort (l : list versionInfo) : list versionInfo :=
  foldl (fun acc v => insert_version v acc) [] l.

Definition cleanupDir (store : StorageProvider) (cfg : Config)
  (now : time.Time) (dir : string) : error + list verdict :=
  match List store dir with
  | (_, Some msg) => inl (Some msg)
  | (entries, None) =>
      inr (judge_all cfg now
             (insertion_sort
                (map mk_version (map_to_list (group_entries (elems entries))))))
  end.

(** The ticker loop of [Start], [Pause], [Resume], [Stop] and the manual
    trigger of [handler/admin.go], as a machine.  The loop goroutine is at
    one of the places of [pc]; every other operation is one atomic step
    (the accesses to [Paused] are under [Mu]). *)
Inductive pc :=
| NotStarted          (* cleanup disabled: [Start] returned at once *)
| Selecting           (* blocked in [select] *)
| Ticked              (* [case <-ticker.C] taken, [Mu] not yet locked *)
| Tested (paused : bool) (* [paused := s.Paused] read under [Mu] *)
| Cleaning            (* inside the loop's [s.RunCleanup()] *)
| Exited.             (* [case <-s.Ctx.Done()] taken *)

Record state := {
  Paused : bool;
  cancelled : bool;
  loop : pc
}.

Inductive origin := Ticker | Manual.

Inductive event :=
| EvTick                 (* the loop receives from [ticker.C] *)
| EvReadPaused           (* the loop reads [s.Paused] under [Mu] *)
| EvRunCleanup (o : origin) (* [RunCleanup] is invoked *)
| EvSkip                 (* [paused] was true: back to [select] *)
| EvCleanupDone          (* the loop's [RunCleanup] returns *)
| EvPause | EvResume     (* [Pause()] and [Resume()] run *)
| EvStop                 (* [Stop()]: [s.Cancel()] *)
| EvExit.                (* the loop receives from [s.Ctx.Done()] *)

#[global] Instance origin_eq_dec : EqDecision origin.
Proof. solve_decision. Defined.

#[global] Instance event_eq_dec : EqDecision event.
Proof. solve_decision. Defined.

(** The loop has read [Paused] as set, or has yet to read it: it is not on
    its way into [RunCleanup]. *)
Definition held (s : state) : Prop :=
  Paused s = true /\ loop s <> Tested false /\ loop s <> Cleaning.

(** [NewSnapshotCleanupService] followed by [Start]. *)
Definition Start (cfg : Config) : state :=
  {| Paused := false; cancelled := false;
     loop := if SnapshotCleanupEnabled cfg then Selecting else NotStarted |}.

Definition set_loop (s : state) (p : pc) : state :=
  {| Paused := Paused s; cancelled := cancelled s; loop := p |}.

(** [step s e] is the state after [e], [None] when [e] cannot happen in
    [s]. *)
Definition step (s : state) (e : event) : option state :=
  match e, loop s with
  | EvTick, Selecting => Some (set_loop s Ticked)
  | EvReadPaused, Ticked => Some (set_loop s (Tested (Paused s)))
  | EvRunCleanup Ticker, Tested false => Some (set_loop s Cleaning)
  | EvSkip, Tested true => Some (set_loop s Selecting)
  | EvCleanupDone, Cleaning => Some (set_loop s Selecting)
  | EvExit, Selecting => if cancelled s then Some (set_loop s Exited) else None
  | EvRunCleanup Manual, _ => Some s
  | EvPause, _ =>
      Some {| Paused := true; cancelled := cancelled s; loop := loop s |}
  | EvResume, _ =>
      Some {| Paused := false; cancelled := cancelled s; loop := loop s |}
  | EvStop, _ =>
      Some {| Paused := Paused s; cancelled := true; loop := loop s |}
  | _, _ => None
  end.

Fixpoint run (s : state) (tr : list event) : option state :=
  match tr with
  | [] => Some s
  | e :: tr' => match step s e with
                | Some s' => run s' tr'
                | None => None
                end
  end.

(** What [Store.Walk] hands to its visitor at one node: the path relative
    to the base and the node's [os.FileInfo], or an error (with which the
    info may be missing). *)
Inductive visit :=
| Visited (path : string) (isDir : bool)
| Failed (path : string) (isDir : option bool) (msg : string).

(** The visitor of [RunCleanup]: it records the directories whose path ends
    with [-SNAPSHOT], passes over every node it is handed with an error,
    and always returns [nil], so that the walk goes on. *)
Definition walkFn (snapshotDirs : gset string) (v : visit)
  : gset string * error :=
  match v with
  | Failed _ _ _ => (snapshotDirs, None)
  | Visited path isDir =>
      if isDir && strings.HasSuffix path "-SNAPSHOT"
      then ({[ path ]} ∪ snapshotDirs, None)
      else (snapshotDirs, None)
  end.

(** The set [snapshotDirs] after a walk that made the visits [visits]. *)
Definition snapshot_dirs (visits : list visit) : gset string :=
  foldl (fun dirs v => (walkFn dirs v).1) ∅ visits.

(** The runs of [RunCleanup] on a walk that made [visits] and returned
    [walk_err]: the error of the walk, or [nil] after [cleanupDir] has run
    on every recorded directory, in the unspecified order of Go's map
    range; what the runs of [cleanupDir] return is only logged.  Each run
    of [cleanupDir] reads the clock itself: [now dir] is the time read by
    the run on [dir]. *)
Inductive RunCleanup_run (store : StorageProvider) (cfg : Config)
  (now : string -> time.Time) (visits : list visit)
  : error -> error * list (string * (error + list verdict)) -> Prop :=
| RunCleanup_walk_err msg :
    RunCleanup_run store cfg now visits (Some msg) (Some msg, [])
| RunCleanup_ok order results :
    order ≡ₚ elements (snapshot_dirs visits) ->
    Forall2 (fun dir r =>
               r.1 = dir /\ cleanupDir_run store cfg (now dir) dir r.2)
            order results ->
    RunCleanup_run store cfg now visits None (None, results).

(** One run that can be computed. *)
Definition RunCleanup (store : StorageProvider) (cfg : Config)
  (now : string -> time.Time) (visits : list visit) (walk_err : error)
  : error * list (string * (error + list verdict)) :=
  match walk_err with
  | Some msg => (Some msg, [])
  | None =>
      (None, map (fun dir => (dir, cleanupDir store cfg (now dir) dir))
                 (elements (snapshot_dirs visits)))
  end.

(** The flag [Paused] as the calls to [Pause()] and [Resume()] in a trace
    leave it, starting from [p]. *)
Definition paused_after (p : bool) (tr : list event) : bool :=
  foldl (fun p e => match e with
                    | EvPause => true
                    | EvResume => false
                    | _ => p
                    end) p tr.

(** The events that are steps of the loop goroutine. *)
Definition loop_event (e : event) : bool :=
  match e with
  | EvTick | EvReadPaused | EvRunCleanup Ticker | EvSkip | EvCleanupDone
  | EvExit => true
  | _ => false
  end.

(** [Status()] *)
Definition Status (s : state) : string :=
  if Paused s then "paused" else "running".

End service.

(* ===================================================================== *)
(** * Notions the statements about the retention engine are written in *)
(* ===================================================================== *)

Section retention_notions.

Import config storage service.

(** The entries [cleanupDir] groups: plain files whose name does not start
    with [maven-metadata]. *)
Definition grouped (e : Entry) : bool :=
  negb (IsDir e) && negb (strings.HasPrefix (Name e) "maven-metadata").

Definition to_fileInfo (e : Entry) : fileInfo :=
  {| fi_Name := Name e; fi_ModTime := ModTime e |}.

(** The files of the version [k], in listing order. *)
Definition files_of (k : string) (entries : list Entry) : list fileInfo :=
  map to_fileInfo
      (List.filter (fun e => grouped e && String.eqb (extractVersion (Name e)) k)
                   entries).

(** The max mod-time of the snapshot-version group of key [k], read off
    the listing and not off the code's grouping: the latest mod-time among
    the files of that key, and Go's zero time, at which the code starts
    its maximum, when no file of the key is later. *)
Definition group_max (entries : list Entry) (k : string) : time.Time :=
  foldr Z.max time.zero (map fi_ModTime (files_of k entries)).

Definition no_empty_group (g : gmap string (list fileInfo)) : Prop :=
  forall k, g !! k <> Some [].

End retention_notions.

(* ===================================================================== *)
(** * [handler/maven.go]: the aggregate router and the resolution pipeline *)
(* ===================================================================== *)

Module handler.

Import config storage.

(** What [h.Client] answers: [None] is a transport error. *)
Record http_response := {
  StatusCode : Z;
  ContentType : string;
  ContentLength : Z
}.

Record http_client := {
  client_Get : string -> option http_response;
  client_Head : string -> option http_response
}.

Record MavenHandler := {
  Store : StorageProvider;
  Config : Config;
  Client : http_client
}.

Inductive body :=
| FromStore (r : option ReadCloser)   (* the reader [Store.Get] returned *)
| FromUpstream (url : string).        (* the mirror's body, through the tee *)

(** What the handler writes to the client. *)
Inductive response :=
| Index (heading : string) (items : list Entry)  (* 200, text/html *)
| Data (code : Z) (contentLength : Z) (contentType : string) (b : body)
| JSONError (code : Z) (msg : string)
| Status (code : Z).

Inductive method := GET | HEAD.

(** A handled request: the response, the requests made to the mirrors in
    order, and the paths for which a [Store.Save] was started. *)
Record handled := {
  resp : response;
  upstream : list (method * string);
  saved : list string
}.

Definition local (r : response) : handled :=
  {| resp := r; upstream := []; saved := [] |}.

(** [%d] of a size. *)
Definition decimal (z : Z) : string :=
  DecimalString.NilZero.string_of_int (Z.to_int z).

(** The double quote, byte 34. *)
Definition dquote : string := String (ascii_of_nat 34) EmptyString.

Definition index_line (e : Entry) : string :=
  let slash := if IsDir e then "/" else "" in
  "<li><a href=" +:+ dquote +:+ Name e +:+ slash +:+ dquote +:+ ">"
  +:+ Name e +:+ slash
  +:+ "</a> (Size: " +:+ decimal (Size e) +:+ ")</li>".

(** The bytes of an [Index] response. *)
Definition index_html (heading : string) (items : list Entry) : string :=
  "<html><body><h1>" +:+ heading +:+ "</h1><hr><ul>"
  +:+ "<li><a href=" +:+ dquote +:+ "../" +:+ dquote +:+ ">../</a></li>"
  +:+ String.concat "" (map index_line items)
  +:+ "</ul><hr></body></html>".

(** The computation of [artifactPath] in [HandleDownload]. *)
Definition artifactPathOf (path : string) : string :=
  let parts := strings.Split path "/" in
  if strings.HasPrefix path "repository/" && (2 <? length parts)%nat
  then strings.Join (drop 2 parts) "/"
  else if strings.HasPrefix path "public/" && (1 <? length parts)%nat
  then strings.Join (drop 1 parts) "/"
  else path.

Definition mirror_url (proxy artifactPath : string) : string :=
  strings.TrimRight proxy "/" +:+ "/" +:+ artifactPath.

(** The loop over [ProxyURLs] of the GET handlers: the URLs requested and
    the first response with status 200 that is not HTML, with its URL. *)
Fixpoint proxy_get (c : http_client) (artifactPath : string)
  (proxies : list string) : list string * option (string * http_response) :=
  match proxies with
  | [] => ([], None)
  | proxy :: rest =>
      let url := mirror_url proxy artifactPath in
      let continue := let '(urls, hit) := proxy_get c artifactPath rest in
                      (url :: urls, hit) in
      match client_Get c url with
      | Some r =>
          if StatusCode r =? 200 then
            if strings.HasPrefix (ContentType r) "text/html" then continue
            else ([url], Some (url, r))
          else continue
      | None => continue
      end
  end.

(** The loop over [ProxyURLs] of the HEAD handlers. *)
Fixpoint proxy_head (c : http_client) (artifactPath : string)
  (proxies : list string) : list string * bool :=
  match proxies with
  | [] => ([], false)
  | proxy :: rest =>
      let url := mirror_url proxy artifactPath in
      let continue := let '(urls, hit) := proxy_head c artifactPath rest in
                      (url :: urls, hit) in
      match client_Head c url with
      | Some r => if StatusCode r =? 200 then ([url], true) else continue
      | None => continue
      end
  end.

Definition requests (m : method) (urls : list string) : list (method * string) :=
  map (pair m) urls.

Definition HandleDownload (h : MavenHandler) (urlPath : string) : handled :=
  let path := strings.TrimPrefix urlPath "/" in
  let '(entries, err) := List (Store h) path in
  match err, entries with
  | None, Some es => local (Index ("Index of /" +:+ path) es)
  | _, _ =>
      let '(reader, found, err) := Get (Store h) path in
      if is_nil err && found
      then local (Data 200 (-1) "application/octet-stream" (FromStore reader))
      else
        let '(urls, hit) :=
          if (0 <? length (ProxyURLs (Config h)))%nat
          then proxy_get (Client h) (artifactPathOf path) (ProxyURLs (Config h))
          else ([], None) in
        match hit with
        | Some (url, r) =>
            {| resp := Data 200 (ContentLength r) (ContentType r) (FromUpstream url);
               upstream := requests GET urls;
               saved := [path] |}
        | None =>
            {| resp := match err with
                       | Some msg => JSONError 500 msg
                       | None => Status 404
                       end;
               upstream := requests GET urls;
               saved := [] |}
        end
  end.

Definition HandleHead (h : MavenHandler) (urlPath : string) : handled :=
  let path := strings.TrimPrefix urlPath "/" in
  let '(found, err) := Head (Store h) path in
  if is_nil err && found then local (Status 200)
  else
    let '(urls, hit) :=
      if (0 <? length (ProxyURLs (Config h)))%nat
      then proxy_head (Client h) path (ProxyURLs (Config h))
      else ([], false) in
    {| resp := if hit then Status 200
               else match err with
                    | Some _ => Status 500
                    | None => Status 404
                    end;
       upstream := requests HEAD urls;
       saved := [] |}.

Definition getAggregateRepos (h : MavenHandler) (basePath : string) : list string :=
  let '(entries, err) := List (Store h) basePath in
  match err with
  | Some _ => []
  | None =>
      let '(repos, hasReleases) :=
        foldl (fun '(repos, hasReleases) e =>
                 if IsDir e then
                   if String.eqb (Name e) "maven-public" then (repos, hasReleases)
                   else if String.eqb (Name e) "maven-releases" then (repos, true)
                   else (repos ++ [strings.TrimRight basePath "/" +:+ "/" +:+ Name e],
                         hasReleases)
                 else (repos, hasReleases))
              ([], false) (elems entries) in
      if hasReleases
      then [strings.TrimRight basePath "/" +:+ "/maven-releases"] ++ repos
      else repos
  end.

(** The first loop of [HandleAggregateDownload]: the listings of
    [artifactPath] in every repository, one after the other. *)
Definition collect_entries (h : MavenHandler) (repos : list string)
  (artifactPath : string) : list Entry * bool :=
  foldl (fun '(allEntries, foundDir) repo =>
           let fullPath := strings.TrimRight repo "/" +:+ "/" +:+ artifactPath in
           match List (Store h) fullPath with
           | (Some entries, None) => (allEntries ++ entries, true)
           | _ => (allEntries, foundDir)
           end)
        ([], false) repos.

(** The rendering loop with its [seen] map: the entries written. *)
Fixpoint render_dedup (seen : gmap string bool) (allEntries : list Entry)
  : list Entry :=
  match allEntries with
  | [] => []
  | e :: rest =>
      if default false (seen !! Name e) then render_dedup seen rest
      else e :: render_dedup (<[Name e := true]> seen) rest
  end.

(** The second loop: the first repository in which [Store.Get] finds the
    file. *)
Fixpoint first_found (h : MavenHandler) (repos : list string)
  (artifactPath : string) : option (option ReadCloser) :=
  match repos with
  | [] => None
  | repo :: rest =>
      let fullPath := strings.TrimRight repo "/" +:+ "/" +:+ artifactPath in
      let '(reader, found, err) := Get (Store h) fullPath in
      if is_nil err && found then Some reader
      else first_found h rest artifactPath
  end.

Definition HandleAggregateDownload (h : MavenHandler) (basePath pathParam : string)
  : handled :=
  let artifactPath := strings.TrimPrefix pathParam "/" in
  let repos := getAggregateRepos h basePath in
  let '(allEntries, foundDir) := collect_entries h repos artifactPath in
  if foundDir
  then local (Index ("Index of /repository/maven-public/" +:+ artifactPath
                     +:+ " (Aggregated)")
                    (render_dedup ∅ allEntries))
  else
    match first_found h repos artifactPath with
    | Some reader =>
        local (Data 200 (-1) "application/octet-stream" (FromStore reader))
    | None =>
        let '(urls, hit) :=
          if (0 <? length (ProxyURLs (Config h)))%nat
          then proxy_get (Client h) artifactPath (ProxyURLs (Config h))
          else ([], None) in
        match hit with
        | Some (url, r) =>
            {| resp := Data 200 (ContentLength r) (ContentType r) (FromUpstream url);
               upstream := requests GET urls;
               saved := ["repository/maven-public/" +:+ artifactPath] |}
        | None =>
            {| resp := Status 404; upstream := requests GET urls; saved := [] |}
        end
    end.

(** The first loop of [HandleAggregateHead]: whether [Store.Head] finds
    the path in some repository. *)
Fixpoint first_head (h : MavenHandler) (repos : list string)
  (artifactPath : string) : bool :=
  match repos with
  | [] => false
  | repo :: rest =>
      let fullPath := strings.TrimRight repo "/" +:+ "/" +:+ artifactPath in
      let '(found, err) := Head (Store h) fullPath in
      if is_nil err && found then true
      else first_head h rest artifactPath
  end.

Definition HandleAggregateHead (h : MavenHandler) (basePath pathParam : string)
  : handled :=
  let artifactPath := strings.TrimPrefix pathParam "/" in
  let repos := getAggregateRepos h basePath in
  if first_head h repos artifactPath then local (Status 200)
  else
    let '(urls, hit) :=
      if (0 <? length (ProxyURLs (Config h)))%nat
      then proxy_head (Client h) artifactPath (ProxyURLs (Config h))
      else ([], false) in
    {| resp := if hit then Status 200 else Status 404;
       upstream := requests HEAD urls;
       saved := [] |}.

End handler.

(* ===================================================================== *)
(** * Concrete stores and configurations for the examples *)
(* ===================================================================== *)

Module examples.

Import config storage service.

Definition day : Z := 24 * time.Hour.

(** Some instant in the year 2025. *)
Definition now : time.Time := 739000 * day.

Definition file (name : string) (age : Z) : Entry :=
  {| Name := name; IsDir := false; Size := 13; ModTime := now - age |}.

(** The directory of [TestSnapshotCleanupService_RunCleanup], with the pom
    a day older so that no two groups are equally old, and a metadata
    file. *)
Definition snapshot_dir : string := "com/example/app/1.0-SNAPSHOT".

Definition snapshot_entries : list Entry :=
  [ file "app-1.0-20231020.120000-1.jar" (30 * day);
    file "app-1.0-20250101.120000-2.jar" (10 * day);
    file "app-1.0-20251219.120000-3.jar" (1 * day);
    file "app-1.0-20251220.120000-4.jar" 0;
    file "app-1.0-SNAPSHOT.pom" (2 * day);
    file "maven-metadata.xml" (40 * day) ].

(** A store that lists [entries] at [dir] and has nothing else. *)
Definition listing_store (dir : string) (entries : list Entry) : StorageProvider :=
  {| List := fun p => if String.eqb p dir then (Some entries, None)
                      else (None, None);
     Get := fun _ => (None, false, None);
     Head := fun _ => (false, None) |}.

Definition retention (keep_days : Z) (latest_only : bool) : Config :=
  {| ProxyURLs := [];
     SnapshotCleanupEnabled := true;
     SnapshotCleanupInterval := "1h";
     SnapshotKeepDays := keep_days;
     SnapshotKeepLatestOnly := latest_only |}.

Definition snapshot_verdicts : list verdict :=
  Eval vm_compute in
    match cleanupDir (listing_store snapshot_dir snapshot_entries)
                     (retention 0 true) now snapshot_dir with
    | inr vs => vs
    | inl _ => []
    end.

(** Two versions whose only files are equally old. *)
Definition tie_entries : list Entry := [ file "a.jar" day; file "b.jar" day ].

Definition version_a : versionInfo :=
  {| vi_Name := "a"; MaxTime := now - day;
     Files := [ {| fi_Name := "a.jar"; fi_ModTime := now - day |} ] |}.

Definition version_b : versionInfo :=
  {| vi_Name := "b"; MaxTime := now - day;
     Files := [ {| fi_Name := "b.jar"; fi_ModTime := now - day |} ] |}.

(** One snapshot file written an hour ago. *)
Definition fresh_entries : list Entry :=
  [ file "app-1.0-20251220.120000-4.jar" time.Hour ].

End examples.

(* ===================================================================== *)
(** * A concrete store, mirror and handler for the examples *)
(* ===================================================================== *)

Module fixtures.

Import storage.

Definition dir_node (names : list string) : node :=
  Dir 4096 examples.now names.

(** The storage root [./artifacts] with the repositories [dev] and
    [maven-releases], the aggregate's own directory and a stray file.
    [os.ReadDir] lists names in sorted order. *)
Definition fs : filesystem :=
  list_to_map
    [ ("artifacts/repository",
       dir_node ["dev"; "maven-public"; "maven-releases"; "notes.txt"]);
      ("artifacts/repository/dev", dir_node ["com"; "empty"]);
      ("artifacts/repository/dev/empty", dir_node []);
      ("artifacts/repository/dev/com", dir_node ["ex"]);
      ("artifacts/repository/dev/com/ex", dir_node ["a.jar"; "b.jar"]);
      ("artifacts/repository/dev/com/ex/a.jar", File 5 examples.now);
      ("artifacts/repository/dev/com/ex/b.jar", File 7 examples.now);
      ("artifacts/repository/maven-public", dir_node []);
      ("artifacts/repository/maven-releases", dir_node ["com"]);
      ("artifacts/repository/maven-releases/com", dir_node ["ex"]);
      ("artifacts/repository/maven-releases/com/ex", dir_node ["a.jar"]);
      ("artifacts/repository/maven-releases/com/ex/a.jar", File 3 examples.now);
      ("artifacts/repository/notes.txt", File 10 examples.now) ].

Definition store : StorageProvider := LocalStorage fs "./artifacts".

(** A mirror that has one artifact, [com/ex/c/1.0/c.jar], and answers 404
    to everything else. *)
Definition mirror_answer (url : string) : option handler.http_response :=
  if String.eqb url "https://repo.example/maven2/com/ex/c/1.0/c.jar"
  then Some {| handler.StatusCode := 200;
               handler.ContentType := "application/java-archive";
               handler.ContentLength := 3 |}
  else Some {| handler.StatusCode := 404;
               handler.ContentType := "text/plain";
               handler.ContentLength := 0 |}.

Definition mirror : handler.http_client :=
  {| handler.client_Get := mirror_answer; handler.client_Head := mirror_answer |}.

Definition maven_handler (proxies : list string) : handler.MavenHandler :=
  {| handler.Store := store;
     handler.Config := {| config.ProxyURLs := proxies;
                          config.SnapshotCleanupEnabled := false;
                          config.SnapshotCleanupInterval := "1h";
                          config.SnapshotKeepDays := 30;
                          config.SnapshotKeepLatestOnly := false |};
     handler.Client := mirror |}.

(** A handler whose only mirror answers every request with an HTML page. *)
Definition html_answer (url : string) : option handler.http_response :=
  Some {| handler.StatusCode := 200;
          handler.ContentType := "text/html; charset=utf-8";
          handler.ContentLength := 120 |}.

Definition html_handler : handler.MavenHandler :=
  {| handler.Store := store;
     handler.Config := {| config.ProxyURLs := ["https://repo.example/maven2"];
                          config.SnapshotCleanupEnabled := false;
                          config.SnapshotCleanupInterval := "1h";
                          config.SnapshotKeepDays := 30;
                          config.SnapshotKeepLatestOnly := false |};
     handler.Client := {| handler.client_Get := html_answer;
                          handler.client_Head := html_answer |} |}.

Definition releases_a_jar : Entry :=
  {| Name := "a.jar"; IsDir := false; Size := 3; ModTime := examples.now |}.

Definition dev_b_jar : Entry :=
  {| Name := "b.jar"; IsDir := false; Size := 7; ModTime := examples.now |}.

End fixtures.

(* ===================================================================== *)
(** * Notions the statements about the handlers are written in *)
(* ===================================================================== *)

Section handler_notions.

Import storage handler.

(** The directory entry of the releases repository, and those of the other
    repositories the aggregate looks into. *)
Definition is_releases (e : Entry) : bool :=
  IsDir e && String.eqb (Name e) "maven-releases".

Definition other_repo (e : Entry) : bool :=
  IsDir e && negb (String.eqb (Name e) "maven-public")
          && negb (String.eqb (Name e) "maven-releases").

(** What the aggregate listing takes from one repository: its listing of
    the artifact path when that is a directory, nothing otherwise. *)
Definition listing (h : MavenHandler) (artifactPath repo : string) : list Entry :=
  match List (Store h) (strings.TrimRight repo "/" +:+ "/" +:+ artifactPath) with
  | (Some entries, None) => entries
  | _ => []
  end.

(** A mirror answer the GET handlers accept: status 200 and a content type
    that does not start with [text/html]. *)
Definition accepted (r : http_response) : bool :=
  (StatusCode r =? 200) && negb (strings.HasPrefix (ContentType r) "text/html").

Definition accepts_get (c : http_client) (artifactPath proxy : string) : bool :=
  match client_Get c (mirror_url proxy artifactPath) with
  | Some r => accepted r
  | None => false
  end.

(** A mirror answer the HEAD handlers accept: status 200. *)
Definition accepts_head (c : http_client) (artifactPath proxy : string) : bool :=
  match client_Head c (mirror_url proxy artifactPath) with
  | Some r => StatusCode r =? 200
  | None => false
  end.

(** The store has the path: [Store.Head] finds it without an error. *)
Definition head_found (h : MavenHandler) (path : string) : bool :=
  let '(found, err) := Head (Store h) path in is_nil err && found.

(** The last segment of a slash-separated path. *)
Definition leaf (path : string) : string :=
  List.last (strings.Split path "/") "".

End handler_notions.

(* ===================================================================== *)
(** * The matcher against the meaning of a pattern *)
(* ===================================================================== *)

Section regexp_facts.

Import regexp.

Lemma try_down_Some {A} (f : nat -> option A) lo d r :
  try_down f lo d = Some r ->
  exists k, (lo <= k <= lo + d)%nat /\ f k = Some r /\
            forall j, (k < j <= lo + d)%nat -> f j = None.
Proof.
  induction d as [|d IH]; simpl; intros H.
  - destruct (f (lo + 0)%nat) eqn:E; [|discriminate].
    exists (lo + 0)%nat. split; [lia|]. split; [congruence|]. intros; lia.
  - destruct (f (lo + S d)%nat) eqn:E.
    + exists (lo + S d)%nat. split; [lia|]. split; [congruence|]. intros; lia.
    + destruct (IH H) as (k & Hk & Hf & Hmax).
      exists k. split; [lia|]. split; [done|].
      intros j Hj. destruct (decide (j = lo + S d)%nat) as [->|]; [done|].
      apply Hmax. lia.
Qed.

Lemma try_down_None {A} (f : nat -> option A) lo d :
  try_down f lo d = None ->
  forall k, (lo <= k <= lo + d)%nat -> f k = None.
Proof.
  induction d as [|d IH]; simpl; intros H k Hk.
  - destruct (f (lo + 0)%nat) eqn:E; [discriminate|].
    replace k with (lo + 0)%nat by lia. done.
  - destruct (f (lo + S d)%nat) eqn:E; [discriminate|].
    destruct (decide (k = lo + S d)%nat) as [->|]; [done|].
    apply IH; [done|lia].
Qed.

Lemma span_len_le p s : (span_len p s <= length s)%nat.
Proof. induction s as [|c s IH]; simpl; [lia|]. destruct (p c); simpl; lia. Qed.

Lemma span_len_firstn p s k :
  (k <= span_len p s)%nat -> Forall (fun c => p c = true) (firstn k s).
Proof.
  revert k. induction s as [|c s IH]; intros k Hk; simpl in *.
  - destruct k; constructor.
  - destruct k as [|k]; [constructor|]. simpl.
    destruct (p c) eqn:E; [|lia]. constructor; [done|]. apply IH. lia.
Qed.

Lemma span_len_app p seg rest :
  Forall (fun c => p c = true) seg -> (length seg <= span_len p (seg ++ rest))%nat.
Proof.
  induction 1 as [|c seg Hc _ IH]; simpl; [lia|]. rewrite Hc. lia.
Qed.

Lemma reach_seg_ok it s k :
  (imin it <= k <= reach it s)%nat -> seg_ok it (firstn k s).
Proof.
  intros Hk. unfold reach in Hk.
  assert (k <= span_len (cclass_ok (cls it)) s)%nat as Hspan
    by (destruct (imax it); lia).
  pose proof (span_len_le (cclass_ok (cls it)) s) as Hlen.
  assert (length (firstn k s) = k) as Hfl by (rewrite length_firstn; lia).
  split; [by apply span_len_firstn|]. rewrite Hfl. split; [lia|].
  intros m Hm. rewrite Hm in Hk. lia.
Qed.

Lemma seg_ok_reach it seg rest :
  seg_ok it seg -> (imin it <= length seg <= reach it (seg ++ rest))%nat.
Proof.
  intros (Hall & Hmin & Hmax). split; [done|].
  pose proof (span_len_app _ seg rest Hall) as Hspan.
  unfold reach. destruct (imax it) as [m|]; [|done].
  specialize (Hmax m eq_refl). lia.
Qed.

(** Every result of the matcher is a match. *)
Lemma match_items_sound its s segs :
  match_items its s = Some segs -> Forall2 seg_ok its segs /\ concat segs = s.
Proof.
  revert s segs. induction its as [|it rest IH]; intros s segs H; simpl in H.
  - destruct s; [|discriminate]. injection H as <-. split; [constructor|done].
  - destruct (reach it s <? imin it)%nat eqn:Hlt; [discriminate|].
    apply Nat.ltb_ge in Hlt.
    apply try_down_Some in H as (k & Hk & Hf & _).
    destruct (match_items rest (skipn k s)) as [segs'|] eqn:Hrest; [|discriminate].
    injection Hf as <-. destruct (IH _ _ Hrest) as [HF Hc].
    split.
    + constructor; [|done]. apply reach_seg_ok. lia.
    + simpl. rewrite Hc. apply firstn_skipn.
Qed.

(** Every text that matches is matched. *)
Lemma match_items_complete its segs :
  Forall2 seg_ok its segs -> is_Some (match_items its (concat segs)).
Proof.
  induction 1 as [|it seg rest segs Hseg _ IH]; simpl; [by eexists|].
  pose proof (seg_ok_reach it seg (concat segs) Hseg) as Hk.
  destruct (reach it (seg ++ concat segs) <? imin it)%nat eqn:Hlt.
  { apply Nat.ltb_lt in Hlt. lia. }
  match goal with |- is_Some (try_down ?f ?lo ?d) =>
    destruct (try_down f lo d) eqn:Htd; [by eexists|] end.
  eapply try_down_None with (k := length seg) in Htd; [|lia].
  rewrite skipn_app, skipn_all, Nat.sub_diag in Htd. simpl in Htd.
  rewrite drop_0 in Htd. destruct IH as [r Hr]. rewrite Hr in Htd. discriminate.
Qed.

Lemma match_items_Matches its s :
  is_Some (match_items its s) <-> Matches its s.
Proof.
  split.
  - intros [segs H]. exists segs. by apply match_items_sound.
  - intros (segs & HF & <-). by apply match_items_complete.
Qed.

(** Greedy: the first item takes the longest run any match gives it. *)
Lemma match_items_greedy it rest s seg segs seg' segs' :
  match_items (it :: rest) s = Some (seg :: segs) ->
  Forall2 seg_ok (it :: rest) (seg' :: segs') -> concat (seg' :: segs') = s ->
  (length seg' <= length seg)%nat.
Proof.
  intros H HF Hs. simpl in H.
  destruct (reach it s <? imin it)%nat eqn:Hlt; [discriminate|].
  apply Nat.ltb_ge in Hlt.
  apply try_down_Some in H as (k & Hk & Hf & Hmax).
  destruct (match_items rest (skipn k s)) as [r|] eqn:Hrest; [|discriminate].
  injection Hf as <- <-.
  pose proof (span_len_le (cclass_ok (cls it)) s) as Hlen.
  assert (k <= length s)%nat.
  { unfold reach in Hk, Hlt. destruct (imax it); lia. }
  rewrite length_firstn, Nat.min_l by done.
  apply Forall2_cons_1 in HF as [Hseg HF]. simpl in Hs. subst s.
  pose proof (seg_ok_reach it seg' (concat segs') Hseg) as Hk'.
  destruct (decide (length seg' <= k)%nat) as [|Hgt]; [done|exfalso].
  specialize (Hmax (length seg')). 
  rewrite skipn_app, skipn_all, Nat.sub_diag in Hmax. simpl in Hmax.
  rewrite drop_0 in Hmax. destruct (match_items_complete _ _ HF) as [r' Hr']. rewrite Hr' in Hmax.
  discriminate Hmax. lia.
Qed.

End regexp_facts.

Section snapshot_parser.

Import regexp.

Lemma FindStringSubmatch_matches re s :
  is_Some (FindStringSubmatch re s) <-> matches re s.
Proof.
  unfold FindStringSubmatch, matches. rewrite <- match_items_Matches.
  destruct (match_items (re_items re) (list_ascii_of_string s)) as [segs|].
  - split; intros _; by eexists.
  - split; intros [x Hx]; discriminate.
Qed.

Lemma FindStringSubmatch_None re s :
  FindStringSubmatch re s = None <-> ~ matches re s.
Proof.
  rewrite <- FindStringSubmatch_matches, <- eq_None_not_Some. done.
Qed.

Lemma string_of_list_ascii_app a b :
  string_of_list_ascii (a ++ b) = string_of_list_ascii a +:+ string_of_list_ascii b.
Proof. induction a as [|c a IH]; simpl; [done|]. by rewrite IH. Qed.

Lemma list_ascii_of_string_app a b :
  list_ascii_of_string (a +:+ b) = list_ascii_of_string a ++ list_ascii_of_string b.
Proof.
  induction a as [|c a IH]; [done|].
  change (String c a +:+ b) with (String c (a +:+ b)). simpl. by rewrite IH.
Qed.

Lemma list_ascii_of_string_inj a b :
  list_ascii_of_string a = list_ascii_of_string b -> a = b.
Proof.
  intros H. rewrite <- (string_of_list_ascii_of_string a), H.
  apply string_of_list_ascii_of_string.
Qed.

Lemma seg_ok_lit c seg : seg_ok (lit c) seg -> seg = [c].
Proof.
  intros (Hall & Hmin & Hmax). specialize (Hmax 1%nat eq_refl). simpl in *.
  destruct seg as [|d [|? ?]]; simpl in *; try lia.
  apply Forall_cons_1 in Hall as [Hd _]. apply Ascii.eqb_eq in Hd. by subst.
Qed.

Ltac split_segs H :=
  repeat (apply Forall2_cons_inv_l in H as (? & ? & ? & H & ->));
  apply Forall2_nil_inv_l in H as ->.

Ltac lit_segs :=
  repeat match goal with
         | H : seg_ok (lit _) _ |- _ => apply seg_ok_lit in H; subst
         end.

Lemma unique_captures f m :
  FindStringSubmatch uniqueSnapshotRegex f = Some m ->
  exists m1 m2 m3, m = [f; m1; m2; m3] /\ f = m1 +:+ "-" +:+ m2 +:+ m3.
Proof.
  unfold FindStringSubmatch. intros H.
  destruct (match_items _ _) as [segs|] eqn:Hm; [|discriminate].
  injection H as <-. apply match_items_sound in Hm as [HF Hc].
  simpl in HF. split_segs HF. lit_segs.
  eexists _, _, _. split; [reflexivity|].
  apply list_ascii_of_string_inj. unfold group_text.
  rewrite !list_ascii_of_string_app, !list_ascii_of_string_of_list_ascii, <- Hc.
  simpl. rewrite ?app_nil_r. repeat (rewrite <- app_assoc; simpl). reflexivity.
Qed.

Lemma nonUnique_captures f m :
  FindStringSubmatch nonUniqueSnapshotRegex f = Some m ->
  exists m1 m3, m = [f; m1; "SNAPSHOT"; m3] /\ f = m1 +:+ "-SNAPSHOT" +:+ m3.
Proof.
  unfold FindStringSubmatch. intros H.
  destruct (match_items _ _) as [segs|] eqn:Hm; [|discriminate].
  injection H as <-. apply match_items_sound in Hm as [HF Hc].
  simpl in HF. split_segs HF. lit_segs.
  eexists _, _. split; [reflexivity|].
  apply list_ascii_of_string_inj. unfold group_text.
  rewrite !list_ascii_of_string_app, !list_ascii_of_string_of_list_ascii, <- Hc.
  simpl. rewrite ?app_nil_r. repeat (rewrite <- app_assoc; simpl). reflexivity.
Qed.

Lemma index_dot s :
  match String.index 0 "." s with
  | Some n => String.substring 0 n s
  | None => s
  end = up_to_first_dot s.
Proof.
  induction s as [|c s IH]; [done|].
  cbn [String.index up_to_first_dot String.prefix].
  destruct (ascii_dec "." c) as [<-|Hne].
  - destruct s; done.
  - assert (Ascii.eqb c "." = false) as -> by (apply Ascii.eqb_neq; congruence).
    destruct (String.index 0 "." s) as [n|]; simpl; by rewrite <- IH.
Qed.

Lemma fallback_up_to_first_dot name :
  (let dotIdx := strings.Index name "." in
   if negb (dotIdx =? -1) then String.substring 0 (Z.to_nat dotIdx) name
   else name) = up_to_first_dot name.
Proof.
  rewrite <- index_dot. unfold strings.Index. cbv zeta.
  destruct (String.index 0 "." name) as [n|]; [|done].
  destruct (Z.eqb_spec (Z.of_nat n) (-1)) as [|_]; [lia|]. simpl.
  by rewrite Nat2Z.id.
Qed.

(** C2. [extractVersion] is the three rules of the snapshot parser, tried
    in order: a name matching the unique-snapshot pattern gives group 1, a
    hyphen and group 2, and the name is group 1, a hyphen, group 2 and
    group 3; a name not matching it but matching the non-unique pattern
    gives group 1 followed by [-SNAPSHOT]; any other name gives its part
    before the first dot, which is the whole name when it has no dot. *)
Theorem extractVersion_spec (f : string) :
  match FindStringSubmatch uniqueSnapshotRegex f with
  | Some m =>
      matches uniqueSnapshotRegex f /\
      extractVersion f = nth 1 m "" +:+ "-" +:+ nth 2 m "" /\
      f = nth 1 m "" +:+ "-" +:+ nth 2 m "" +:+ nth 3 m ""
  | None =>
      ~ matches uniqueSnapshotRegex f /\
      match FindStringSubmatch nonUniqueSnapshotRegex f with
      | Some m =>
          matches nonUniqueSnapshotRegex f /\
          extractVersion f = nth 1 m "" +:+ "-SNAPSHOT" /\
          f = nth 1 m "" +:+ "-SNAPSHOT" +:+ nth 3 m ""
      | None =>
          ~ matches nonUniqueSnapshotRegex f /\
          extractVersion f = up_to_first_dot f
      end
  end.
Proof.
  unfold extractVersion.
  destruct (FindStringSubmatch uniqueSnapshotRegex f) as [m|] eqn:Hu.
  - split; [apply FindStringSubmatch_matches; by eexists|].
    destruct (unique_captures _ _ Hu) as (m1 & m2 & m3 & -> & Hf). done.
  - split; [by apply FindStringSubmatch_None|].
    destruct (FindStringSubmatch nonUniqueSnapshotRegex f) as [m|] eqn:Hn.
    + split; [apply FindStringSubmatch_matches; by eexists|].
      destruct (nonUnique_captures _ _ Hn) as (m1 & m3 & -> & Hf). done.
    + split; [by apply FindStringSubmatch_None|].
      apply fallback_up_to_first_dot.
Qed.

End snapshot_parser.

(* ===================================================================== *)
(** * The retention engine *)
(* ===================================================================== *)

Section retention.

Import config storage service.

Lemma group_step_no_empty g e : no_empty_group g -> no_empty_group (group_step g e).
Proof.
  intros Hg k. unfold group_step.
  destruct (IsDir e); [apply Hg|].
  destruct (strings.HasPrefix _ _); [apply Hg|].
  destruct (decide (extractVersion (Name e) = k)) as [->|Hne].
  - rewrite lookup_insert_eq. intros [=H]. by apply app_eq_nil in H as [_ ?].
  - rewrite lookup_insert_ne by done. apply Hg.
Qed.

Lemma foldl_group_step_lookup entries : forall g k,
  no_empty_group g ->
  foldl group_step g entries !! k =
    match default [] (g !! k) ++ files_of k entries with
    | [] => None
    | l => Some l
    end.
Proof.
  induction entries as [|e entries IH]; intros g k Hg.
  - unfold files_of. simpl. rewrite app_nil_r.
    destruct (g !! k) as [[|f l]|] eqn:E; simpl; try done. by apply Hg in E.
  - simpl. rewrite IH by by apply group_step_no_empty.
    unfold files_of at 2. simpl. unfold group_step, grouped.
    destruct (IsDir e); simpl; [done|].
    destruct (strings.HasPrefix _ _); simpl; [done|].
    destruct (String.eqb_spec (extractVersion (Name e)) k) as [->|Hne].
    + rewrite lookup_insert_eq. simpl. by rewrite <- app_assoc.
    + by rewrite lookup_insert_ne.
Qed.

(** The group of a key holds the files of that version, in listing order. *)
Lemma group_entries_lookup entries k :
  group_entries entries !! k =
    match files_of k entries with [] => None | l => Some l end.
Proof.
  unfold group_entries. rewrite foldl_group_step_lookup; [by rewrite lookup_empty|].
  intros k'. by rewrite lookup_empty.
Qed.

Lemma elem_of_files_of f k entries :
  f ∈ files_of k entries <->
  exists e, e ∈ entries /\ grouped e = true /\ extractVersion (Name e) = k /\
            f = to_fileInfo e.
Proof.
  unfold files_of. rewrite list_elem_of_In, in_map_iff. split.
  - intros (e & <- & He). apply filter_In in He as [He Hb].
    apply andb_true_iff in Hb as [Hg Hk]. apply String.eqb_eq in Hk.
    exists e. by rewrite list_elem_of_In.
  - intros (e & He & Hg & Hk & ->). exists e. split; [done|].
    apply filter_In. rewrite <- list_elem_of_In. split; [done|].
    rewrite Hg, Hk, String.eqb_refl. done.
Qed.

Lemma group_entries_Some entries k files :
  group_entries entries !! k = Some files ->
  files = files_of k entries /\ files <> [].
Proof.
  rewrite group_entries_lookup. destruct (files_of k entries); [done|].
  intros [= <-]. done.
Qed.

Lemma group_of_entry entries e :
  e ∈ entries -> grouped e = true ->
  exists files, group_entries entries !! extractVersion (Name e) = Some files /\
                to_fileInfo e ∈ files.
Proof.
  intros He Hg. rewrite group_entries_lookup.
  assert (to_fileInfo e ∈ files_of (extractVersion (Name e)) entries) as Hin.
  { apply elem_of_files_of. by exists e. }
  destruct (files_of _ entries) as [|f l]; [by apply elem_of_nil in Hin|].
  by eexists.
Qed.

(** X22. The ranking timestamp [maxTime] of a group: no file of the group
    is newer, and it is the mod-time of one of its files, unless no file is
    later than Go's zero time, at which the loop starts and below which it
    never goes. *)
Lemma maxTime_of_spec files :
  time.zero <= maxTime_of files /\
  (forall f, f ∈ files -> fi_ModTime f <= maxTime_of files) /\
  (maxTime_of files = time.zero \/
   exists f, f ∈ files /\ fi_ModTime f = maxTime_of files).
Proof.
  unfold maxTime_of.
  set (newer := fun (maxTime : time.Time) (f : fileInfo) =>
                  if time.After (fi_ModTime f) maxTime then fi_ModTime f
                  else maxTime).
  generalize time.zero as m0.
  induction files as [|f files IH]; intros m0; simpl.
  - split; [lia|]. split; [by intros f ?%elem_of_nil|by left].
  - destruct (IH (newer m0 f)) as (Hle & Hall & Hex).
    assert (m0 <= newer m0 f /\ fi_ModTime f <= newer m0 f /\
            (newer m0 f = m0 \/ newer m0 f = fi_ModTime f)) as (H0 & Hf & Hcase).
    { unfold newer, time.After.
      destruct (Z.ltb_spec m0 (fi_ModTime f)); lia. }
    split; [lia|]. split.
    + intros g [->|Hg]%elem_of_cons; [lia|by apply Hall].
    + destruct Hex as [Heq|(g & Hg & Heq)].
      * destruct Hcase as [Hc|Hc]; [left; congruence|].
        right. exists f. split; [apply list_elem_of_here|congruence].
      * right. exists g. split; [by apply list_elem_of_further|done].
Qed.

Lemma less_false a b : less b a = false <-> MaxTime b <= MaxTime a.
Proof. unfold less, time.After. rewrite Z.ltb_ge. done. Qed.

Lemma less_true a b : less a b = true <-> MaxTime b < MaxTime a.
Proof. unfold less, time.After. apply Z.ltb_lt. Qed.

(** The versions the last loop sees are the groups, each once. *)
Lemma sorted_versions_Permutation entries out :
  sorted_versions entries out ->
  out ≡ₚ map mk_version (map_to_list (group_entries entries)).
Proof.
  intros (order & Horder & Hperm & _). rewrite <- Hperm.
  apply Permutation_map. exact Horder.
Qed.

Lemma sorted_versions_elem entries out v :
  sorted_versions entries out ->
  v ∈ out <-> exists k files, group_entries entries !! k = Some files /\
                              v = mk_version (k, files).
Proof.
  intros Hs. rewrite (sorted_versions_Permutation _ _ Hs).
  rewrite list_elem_of_In, in_map_iff. split.
  - intros ([k files] & <- & Hin). exists k, files. split; [|done].
    apply elem_of_map_to_list. by apply list_elem_of_In.
  - intros (k & files & Hl & ->). exists (k, files). split; [done|].
    apply list_elem_of_In. by apply elem_of_map_to_list.
Qed.

Lemma sorted_versions_sorted entries out :
  sorted_versions entries out ->
  StronglySorted (fun a b => MaxTime b <= MaxTime a) out.
Proof.
  intros (order & _ & _ & Hsorted).
  induction Hsorted as [|a l _ IH Hall]; constructor; [done|].
  eapply Forall_impl; [exact Hall|]. intros b Hb. by apply less_false.
Qed.

Lemma judge_version cfg now i v : v_version (judge cfg now i v) = v.
Proof. unfold judge. by destruct (expired cfg now v), (not_latest cfg i). Qed.

Lemma judge_shouldDelete cfg now i v :
  shouldDelete (judge cfg now i v) = expired cfg now v || not_latest cfg i.
Proof. unfold judge. by destruct (expired cfg now v), (not_latest cfg i). Qed.

Lemma deletes_judge_all cfg now out name :
  deletes (judge_all cfg now out) name <->
  exists i v f, out !! i = Some v /\
                expired cfg now v || not_latest cfg i = true /\
                f ∈ Files v /\ fi_Name f = name.
Proof.
  unfold deletes, judge_all. split.
  - intros (vd & f & Hin & Hdel & Hf & Hn).
    apply elem_of_lookup_imap in Hin as (i & v & -> & Hi).
    rewrite judge_shouldDelete in Hdel. rewrite judge_version in Hf.
    by exists i, v, f.
  - intros (i & v & f & Hi & Hdel & Hf & Hn).
    exists (judge cfg now i v), f. rewrite judge_shouldDelete, judge_version.
    split; [|done]. apply elem_of_lookup_imap. by exists i, v.
Qed.

Lemma delete_calls_elem dir vs p :
  p ∈ delete_calls dir vs <->
  exists name, deletes vs name /\ p = filepath.Join [dir; name].
Proof.
  unfold delete_calls, deletes. rewrite list_elem_of_In, in_concat. split.
  - intros (l & Hl & Hp). apply in_map_iff in Hl as (v & <- & Hv).
    destruct (shouldDelete v) eqn:Hd; [|done].
    apply in_map_iff in Hp as (f & <- & Hf).
    exists (fi_Name f). split; [|done]. exists v, f.
    by rewrite !list_elem_of_In.
  - intros (name & (v & f & Hv & Hd & Hf & <-) & ->).
    exists (map (fun f => filepath.Join [dir; fi_Name f]) (Files (v_version v))).
    split.
    + apply in_map_iff. exists v. rewrite Hd. by rewrite <- list_elem_of_In.
    + apply in_map_iff. exists f. by rewrite <- list_elem_of_In.
Qed.

(** Whatever the policy, only grouped files are deleted: plain files whose
    name does not start with [maven-metadata]. *)
Lemma deletes_grouped cfg now entries out name :
  sorted_versions entries out ->
  deletes (judge_all cfg now out) name ->
  exists e, e ∈ entries /\ grouped e = true /\ Name e = name.
Proof.
  intros Hs (i & v & f & Hi & _ & Hf & <-)%deletes_judge_all.
  apply list_elem_of_lookup_2 in Hi.
  apply (sorted_versions_elem _ _ _ Hs) in Hi as (k & files & Hk & ->).
  apply group_entries_Some in Hk as [-> _]. simpl in Hf.
  apply elem_of_files_of in Hf as (e & He & Hg & _ & ->). by exists e.
Qed.

Lemma cleanupDir_run_inv store cfg now dir entries vs :
  List store dir = (entries, None) ->
  cleanupDir_run store cfg now dir (inr vs) ->
  exists out, sorted_versions (elems entries) out /\ vs = judge_all cfg now out.
Proof.
  intros HL Hrun. inversion Hrun as [|entries' out HL' Hs]; subst.
  rewrite HL in HL'. injection HL' as <-. by exists out.
Qed.

Lemma sorted_versions_NoDup entries out :
  sorted_versions entries out ->
  NoDup (map (fun kv => maxTime_of kv.2) (map_to_list (group_entries entries))) ->
  NoDup (map MaxTime out).
Proof.
  intros Hs Hnd.
  rewrite (sorted_versions_Permutation _ _ Hs), map_map. exact Hnd.
Qed.

(** With [keep_latest_only] and no age rule, the version at index 0 is kept
    and every other one is deleted. *)
Lemma deletes_keep_latest cfg now v0 rest name :
  SnapshotKeepLatestOnly cfg = true -> SnapshotKeepDays cfg = 0 ->
  deletes (judge_all cfg now (v0 :: rest)) name <->
  exists v f, v ∈ rest /\ f ∈ Files v /\ fi_Name f = name.
Proof.
  intros Hlatest Hdays. rewrite deletes_judge_all.
  unfold expired, not_latest. rewrite Hlatest, Hdays. simpl. split.
  - intros (i & v & f & Hi & Hpos & Hf & Hn).
    destruct i as [|j]; [done|]. simpl in Hi.
    exists v, f. split; [|done]. by eapply list_elem_of_lookup_2.
  - intros (v & f & Hv & Hf & Hn).
    apply list_elem_of_lookup in Hv as [j Hj]. by exists (S j), v, f.
Qed.

(** Under that policy the verdicts keep the version at index 0 and no
    other. *)
Lemma keep_latest_only_survivor cfg now out i v :
  SnapshotKeepLatestOnly cfg = true -> SnapshotKeepDays cfg = 0 ->
  judge_all cfg now out !! i = Some v ->
  shouldDelete v = (0 <? i)%nat.
Proof.
  intros Hlatest Hdays Hi. unfold judge_all in Hi.
  rewrite list_lookup_imap in Hi.
  destruct (out !! i) as [w|]; [|done]. injection Hi as <-.
  rewrite judge_shouldDelete. unfold expired, not_latest.
  by rewrite Hlatest, Hdays.
Qed.

(** The same on the groups as the code builds and ranks them: with
    [keep_latest_only = true] and [keep_days = 0], when the groups have
    distinct [MaxTime], a grouped file is deleted exactly when some group
    has a greater [MaxTime] than its own. *)
Lemma keep_latest_only_versions store cfg now dir entries vs :
  SnapshotKeepLatestOnly cfg = true ->
  SnapshotKeepDays cfg = 0 ->
  List store dir = (entries, None) ->
  cleanupDir_run store cfg now dir (inr vs) ->
  NoDup (map (fun kv => maxTime_of kv.2)
             (map_to_list (group_entries (elems entries)))) ->
  (forall e, e ∈ elems entries -> grouped e = true ->
     (deletes vs (Name e) <->
      exists k files,
        group_entries (elems entries) !! k = Some files /\
        maxTime_of (default [] (group_entries (elems entries)
                                  !! extractVersion (Name e)))
        < maxTime_of files)) /\
  (forall name, deletes vs name ->
                strings.HasPrefix name "maven-metadata" = false) /\
  (forall p, p ∈ delete_calls dir vs <->
             exists name, deletes vs name /\ p = filepath.Join [dir; name]).
Proof.
  intros Hlatest Hdays HL Hrun Hdistinct.
  destruct (cleanupDir_run_inv _ _ _ _ _ _ HL Hrun) as (out & Hs & ->).
  pose proof (sorted_versions_sorted _ _ Hs) as Hsorted.
  pose proof (sorted_versions_NoDup _ _ Hs Hdistinct) as Hnd.
  split; [|split].
  - intros e He Hg.
    destruct (group_of_entry _ _ He Hg) as (files & Hfiles & Hin).
    assert (maxTime_of (default [] (group_entries (elems entries)
                                      !! extractVersion (Name e)))
            = maxTime_of files) as Hmax.
    { by rewrite Hfiles. }
    rewrite Hmax.
    assert (mk_version (extractVersion (Name e), files) ∈ out) as Hv.
    { apply (sorted_versions_elem _ _ _ Hs). by eexists _, _. }
    destruct out as [|v0 rest]; [by apply elem_of_nil in Hv|].
    apply StronglySorted_inv in Hsorted as [_ Hhead].
    rewrite Forall_forall in Hhead. simpl in Hnd.
    apply NoDup_cons in Hnd as [Hfresh _].
    rewrite (deletes_keep_latest _ _ _ _ _ Hlatest Hdays). split.
    + intros (v & f & Hrest & Hf & Hn).
      assert (v ∈ v0 :: rest) as Hvin by by apply elem_of_cons; right.
      apply (sorted_versions_elem _ _ _ Hs) in Hvin as (k & fs & Hk & ->).
      simpl in Hf. destruct (group_entries_Some _ _ _ Hk) as [Hfs _].
      rewrite Hfs in Hf.
      apply elem_of_files_of in Hf as (e' & _ & _ & Hkey & ->).
      simpl in Hn. rewrite Hn in Hkey. subst k.
      rewrite Hfiles in Hk. injection Hk as Hk. rewrite <- Hk in Hrest.
      assert (v0 ∈ v0 :: rest) as H0 by apply list_elem_of_here.
      apply (sorted_versions_elem _ _ _ Hs) in H0 as (k0 & f0 & Hk0 & Hv0).
      exists k0, f0. split; [done|].
      pose proof (Hhead _ Hrest) as Hle.
      assert (MaxTime (mk_version (extractVersion (Name e), files))
              <> MaxTime v0) as Hne.
      { intros Heq. apply Hfresh. rewrite <- Heq.
        apply list_elem_of_In, in_map, list_elem_of_In. done. }
      rewrite Hv0 in Hle, Hne. simpl in Hle, Hne. lia.
    + intros (k' & files' & Hk' & Hlt).
      apply elem_of_cons in Hv as [Hv|Hv].
      * exfalso.
        assert (mk_version (k', files') ∈ v0 :: rest) as Hv'.
        { apply (sorted_versions_elem _ _ _ Hs). by eexists _, _. }
        apply elem_of_cons in Hv' as [Hv'|Hv'].
        { rewrite <- Hv in Hv'. injection Hv' as _ Heq. rewrite Heq in Hlt. lia. }
        apply Hhead in Hv'. rewrite <- Hv in Hv'.
        simpl in Hv'. lia.
      * exists (mk_version (extractVersion (Name e), files)), (to_fileInfo e).
        done.
  - intros name Hdel.
    destruct (deletes_grouped _ _ _ _ _ Hs Hdel) as (e & _ & Hg & <-).
    unfold grouped in Hg. apply andb_true_iff in Hg as [_ Hg].
    by apply negb_true_iff in Hg.
  - intros p. apply delete_calls_elem.
Qed.

(** The loop computing [maxTime] gives the greatest mod-time, from Go's
    zero time upwards. *)
Lemma maxTime_of_foldr files :
  maxTime_of files = foldr Z.max time.zero (map fi_ModTime files).
Proof.
  unfold maxTime_of. generalize time.zero as m0.
  induction files as [|f files IH]; intros m0; simpl; [done|].
  rewrite IH. unfold time.After.
  assert (forall a b l, foldr Z.max (Z.max a b) l = Z.max b (foldr Z.max a l))
    as Hmax.
  { intros a b l. induction l as [|x l IHl]; simpl; [lia|]. rewrite IHl. lia. }
  destruct (Z.ltb_spec m0 (fi_ModTime f)).
  - rewrite <- Hmax. f_equal. lia.
  - rewrite <- Hmax. f_equal. lia.
Qed.

(** The [MaxTime] the code gives a group is the max mod-time of the files
    of its key. *)
Lemma group_entries_max entries k files :
  group_entries entries !! k = Some files ->
  maxTime_of files = group_max entries k.
Proof.
  intros [-> _]%group_entries_Some. apply maxTime_of_foldr.
Qed.

(** Every group of the code holds a grouped file of its key. *)
Lemma group_entries_inhabited entries k files :
  group_entries entries !! k = Some files ->
  exists e, e ∈ entries /\ grouped e = true /\ extractVersion (Name e) = k.
Proof.
  intros [-> Hne]%group_entries_Some.
  destruct (files_of k entries) as [|f l] eqn:E; [done|].
  assert (f ∈ files_of k entries) as Hf by (rewrite E; apply list_elem_of_here).
  apply elem_of_files_of in Hf as (e & He & Hg & Hk & _). by exists e.
Qed.

Lemma NoDup_map_inj_on {A B} (f : A -> B) (l : list A) :
  NoDup l -> (forall x y, x ∈ l -> y ∈ l -> f x = f y -> x = y) ->
  NoDup (map f l).
Proof.
  induction 1 as [|a l Hfresh Hnd IH]; intros Hinj; simpl; [constructor|].
  apply NoDup_cons. split.
  - intros Hin. apply list_elem_of_In, in_map_iff in Hin as (y & Hy & Hin).
    apply list_elem_of_In in Hin.
    assert (y = a) as ->.
    { apply Hinj; [by apply list_elem_of_further|apply list_elem_of_here|done]. }
    done.
  - apply IH. intros x y Hx Hy. apply Hinj; by apply list_elem_of_further.
Qed.

(** C1. With [keep_latest_only = true] and [keep_days = 0], in every run
    of [cleanupDir] on a listing whose snapshot-version groups have
    distinct max mod-times: a grouped file (a plain file whose name does
    not start with [maven-metadata]) is deleted exactly when the files of
    some other key have a greater max mod-time than the files of its own
    key, so the files of every group but the newest are deleted and those
    of the newest are kept; no deleted name starts with [maven-metadata];
    and the calls to [Store.Delete] are exactly the paths, under the
    directory, of the grouped files that are not of the newest group.
    The groups and their max mod-times are read off the listing
    ([files_of], [group_max]), not off the code's own grouping. *)
Theorem cleanupDir_keep_latest_only store cfg now dir entries vs :
  SnapshotKeepLatestOnly cfg = true ->
  SnapshotKeepDays cfg = 0 ->
  List store dir = (entries, None) ->
  cleanupDir_run store cfg now dir (inr vs) ->
  (forall e1 e2, e1 ∈ elems entries -> e2 ∈ elems entries ->
     grouped e1 = true -> grouped e2 = true ->
     group_max (elems entries) (extractVersion (Name e1))
     = group_max (elems entries) (extractVersion (Name e2)) ->
     extractVersion (Name e1) = extractVersion (Name e2)) ->
  (forall e, e ∈ elems entries -> grouped e = true ->
     (deletes vs (Name e) <->
      exists e', e' ∈ elems entries /\ grouped e' = true /\
                 group_max (elems entries) (extractVersion (Name e))
                 < group_max (elems entries) (extractVersion (Name e')))) /\
  (forall name, deletes vs name ->
                strings.HasPrefix name "maven-metadata" = false) /\
  (forall p, p ∈ delete_calls dir vs <->
             exists e e', e ∈ elems entries /\ grouped e = true /\
                          e' ∈ elems entries /\ grouped e' = true /\
                          group_max (elems entries) (extractVersion (Name e))
                          < group_max (elems entries)
                                      (extractVersion (Name e')) /\
                          p = filepath.Join [dir; Name e]).
Proof.
  intros Hlatest Hdays HL Hrun Hdistinct.
  assert (NoDup (map (fun kv => maxTime_of kv.2)
                     (map_to_list (group_entries (elems entries))))) as Hnd.
  { apply NoDup_map_inj_on; [apply NoDup_map_to_list|].
    intros [k1 f1] [k2 f2] H1%elem_of_map_to_list H2%elem_of_map_to_list Heq.
    simpl in Heq.
    destruct (group_entries_inhabited _ _ _ H1) as (e1 & He1 & Hg1 & Hk1).
    destruct (group_entries_inhabited _ _ _ H2) as (e2 & He2 & Hg2 & Hk2).
    rewrite (group_entries_max _ _ _ H1), (group_entries_max _ _ _ H2) in Heq.
    rewrite <- Hk1, <- Hk2 in Heq.
    pose proof (Hdistinct e1 e2 He1 He2 Hg1 Hg2 Heq) as Hk.
    rewrite Hk1, Hk2 in Hk. destruct Hk. rewrite H1 in H2.
    by injection H2 as ->. }
  destruct (keep_latest_only_versions _ _ _ _ _ _ Hlatest Hdays HL Hrun Hnd)
    as (Hdel & Hmeta & Hcalls).
  assert (forall e, e ∈ elems entries -> grouped e = true ->
     (deletes vs (Name e) <->
      exists e', e' ∈ elems entries /\ grouped e' = true /\
                 group_max (elems entries) (extractVersion (Name e))
                 < group_max (elems entries) (extractVersion (Name e'))))
    as Hdel'.
  { intros e He Hg. rewrite (Hdel e He Hg).
    destruct (group_of_entry _ _ He Hg) as (files & Hfiles & _).
    rewrite Hfiles. simpl. rewrite (group_entries_max _ _ _ Hfiles). split.
    - intros (k & files' & Hk & Hlt).
      destruct (group_entries_inhabited _ _ _ Hk) as (e' & He' & Hg' & <-).
      exists e'. rewrite <- (group_entries_max _ _ _ Hk). done.
    - intros (e' & He' & Hg' & Hlt).
      destruct (group_of_entry _ _ He' Hg') as (files' & Hfiles' & _).
      exists (extractVersion (Name e')), files'.
      by rewrite (group_entries_max _ _ _ Hfiles'). }
  split; [done|]. split; [done|].
  intros p. rewrite Hcalls. split.
  - intros (name & Hd & ->).
    destruct (cleanupDir_run_inv _ _ _ _ _ _ HL Hrun) as (out & Hs & ->).
    destruct (deletes_grouped _ _ _ _ _ Hs Hd) as (e & He & Hg & <-).
    apply (Hdel' e He Hg) in Hd as (e' & He' & Hg' & Hlt).
    by exists e, e'.
  - intros (e & e' & He & Hg & He' & Hg' & Hlt & ->).
    exists (Name e). split; [|done]. apply (Hdel' e He Hg). by exists e'.
Qed.

End retention.

Section retention_runs.

Import config storage service.

Lemma insert_version_Permutation v l : v :: l ≡ₚ insert_version v l.
Proof.
  induction l as [|w l IH]; simpl; [done|].
  destruct (less v w); [done|]. rewrite <- IH. apply perm_swap.
Qed.

Lemma insert_version_sorted v l :
  StronglySorted (fun a b => less b a = false) l ->
  StronglySorted (fun a b => less b a = false) (insert_version v l).
Proof.
  induction 1 as [|w l Hl IH Hw]; simpl; [repeat constructor|].
  destruct (less v w) eqn:Hvw.
  - constructor; [by constructor|].
    apply less_true in Hvw. constructor.
    + apply less_false. lia.
    + eapply Forall_impl; [exact Hw|]. intros x Hx.
      apply less_false in Hx. apply less_false. lia.
  - constructor; [done|].
    rewrite <- insert_version_Permutation. by constructor.
Qed.

Lemma insertion_sort_ok l : sort_Slice less l (insertion_sort l).
Proof.
  unfold insertion_sort.
  assert (forall acc,
    StronglySorted (fun a b => less b a = false) acc ->
    l ++ acc ≡ₚ foldl (fun acc v => insert_version v acc) acc l /\
    StronglySorted (fun a b => less b a = false)
                   (foldl (fun acc v => insert_version v acc) acc l)) as H.
  { induction l as [|v l IH]; intros acc Hacc; simpl; [done|].
    destruct (IH (insert_version v acc) (insert_version_sorted _ _ Hacc))
      as [Hp Hs].
    split; [|done]. rewrite <- Hp, <- insert_version_Permutation.
    by rewrite Permutation_middle. }
  destruct (H [] (SSorted_nil _)) as [Hp Hs]. rewrite app_nil_r in Hp. done.
Qed.

(** [cleanupDir] computes one of the runs. *)
Lemma cleanupDir_computes store cfg now dir :
  cleanupDir_run store cfg now dir (cleanupDir store cfg now dir).
Proof.
  unfold cleanupDir. destruct (List store dir) as [entries [msg|]] eqn:HL.
  - by eapply cleanupDir_err.
  - eapply cleanupDir_ok; [done|].
    exists (map_to_list (group_entries (elems entries))).
    split; [by unfold range_map|]. apply insertion_sort_ok.
Qed.

(** C4 (amended). The slice the last loop of [cleanupDir] ranges over is
    the groups, each once, in descending order of max mod-time, and every
    such arrangement can result: between groups of equal max mod-time the
    order is not decided by the code. *)
Theorem sorted_versions_descending entries out :
  sorted_versions entries out <->
  out ≡ₚ map mk_version (map_to_list (group_entries entries)) /\
  StronglySorted (fun a b => MaxTime b <= MaxTime a) out.
Proof.
  split.
  - intros Hs. split; [by apply sorted_versions_Permutation|].
    by apply (sorted_versions_sorted entries).
  - intros [Hp Hsorted]. exists (map_to_list (group_entries entries)).
    split; [by unfold range_map|]. split; [done|].
    clear Hp. induction Hsorted as [|a l _ IH Hall]; constructor; [done|].
    eapply Forall_impl; [exact Hall|]. intros b Hb. by apply less_false.
Qed.

End retention_runs.

Section retention_examples.

Import config storage service examples.

Lemma cleanupDir_keep_latest_only_witness :
  (forall e, e ∈ snapshot_entries -> grouped e = true ->
     (deletes snapshot_verdicts (Name e) <->
      exists e', e' ∈ snapshot_entries /\ grouped e' = true /\
                 group_max snapshot_entries (extractVersion (Name e))
                 < group_max snapshot_entries (extractVersion (Name e')))) /\
  (forall name, deletes snapshot_verdicts name ->
                strings.HasPrefix name "maven-metadata" = false) /\
  (forall p, p ∈ delete_calls snapshot_dir snapshot_verdicts <->
             exists e e', e ∈ snapshot_entries /\ grouped e = true /\
                          e' ∈ snapshot_entries /\ grouped e' = true /\
                          group_max snapshot_entries (extractVersion (Name e))
                          < group_max snapshot_entries
                                      (extractVersion (Name e')) /\
                          p = filepath.Join [snapshot_dir; Name e]).
Proof.
  apply (cleanupDir_keep_latest_only
           (listing_store snapshot_dir snapshot_entries) (retention 0 true)
           now snapshot_dir (Some snapshot_entries) snapshot_verdicts).
  - reflexivity.
  - reflexivity.
  - reflexivity.
  - assert (cleanupDir (listing_store snapshot_dir snapshot_entries)
                       (retention 0 true) now snapshot_dir
            = inr snapshot_verdicts) as <- by (vm_compute; reflexivity).
    apply cleanupDir_computes.
  - assert (Forall (fun e1 =>
              Forall (fun e2 =>
                grouped e1 = true -> grouped e2 = true ->
                group_max snapshot_entries (extractVersion (Name e1))
                = group_max snapshot_entries (extractVersion (Name e2)) ->
                extractVersion (Name e1) = extractVersion (Name e2))
                snapshot_entries) snapshot_entries) as HF.
    { apply (bool_decide_unpack _). vm_compute. exact I. }
    intros e1 e2 H1 H2.
    exact (proj1 (Forall_forall _ _) (proj1 (Forall_forall _ _) HF e1 H1) e2 H2).
Defined.

Example snapshot_delete_calls :
  delete_calls snapshot_dir snapshot_verdicts =
  [ "com/example/app/1.0-SNAPSHOT/app-1.0-20251219.120000-3.jar";
    "com/example/app/1.0-SNAPSHOT/app-1.0-SNAPSHOT.pom";
    "com/example/app/1.0-SNAPSHOT/app-1.0-20250101.120000-2.jar";
    "com/example/app/1.0-SNAPSHOT/app-1.0-20231020.120000-1.jar" ].
Proof. vm_compute. reflexivity. Qed.

End retention_examples.

Section retention_ties.

Import config storage service examples.

Lemma tie_versions_sorted l :
  l ≡ₚ [version_a; version_b] -> sorted_versions tie_entries l.
Proof.
  intros Hl. exists (map_to_list (group_entries tie_entries)).
  split; [by unfold range_map|]. split.
  - rewrite Hl. vm_compute. first [reflexivity | apply perm_swap].
  - assert (Forall (fun v => MaxTime v = now - day) l) as Hall.
    { rewrite Hl. by repeat constructor. }
    clear Hl. induction Hall as [|v l Hv Hall IH]; constructor; [done|].
    eapply Forall_impl; [exact Hall|]. intros w Hw.
    apply less_false. rewrite Hv, Hw. lia.
Qed.

(** C4, as stated, fails: two groups with the same max mod-time come out
    in either order, so their order is not a function of their keys.  The
    insertion sort that [sort.Slice] runs on so short a slice leaves the two
    in the order in which the map was ranged over. *)
Lemma sorted_versions_tie_counterexample :
  sorted_versions tie_entries [version_a; version_b] /\
  sorted_versions tie_entries [version_b; version_a] /\
  [version_a; version_b] <> [version_b; version_a] /\
  insertion_sort [version_a; version_b] = [version_a; version_b] /\
  insertion_sort [version_b; version_a] = [version_b; version_a].
Proof.
  split; [|split; [|split; [|split]]].
  - by apply tie_versions_sorted.
  - apply tie_versions_sorted, perm_swap.
  - discriminate.
  - reflexivity.
  - reflexivity.
Qed.

End retention_ties.

Section retention_age.

Import config storage service examples.

Lemma wrap64_spec x :
  exists q, time.wrap64 x = x - 2 ^ 64 * q /\
            time.minDuration <= time.wrap64 x <= time.maxDuration.
Proof.
  unfold time.wrap64, time.minDuration, time.maxDuration.
  exists ((x + 2 ^ 63) / 2 ^ 64).
  pose proof (Z.div_mod (x + 2 ^ 63) (2 ^ 64) ltac:(lia)) as Hdm.
  pose proof (Z.mod_pos_bound (x + 2 ^ 63) (2 ^ 64) ltac:(lia)) as Hb.
  lia.
Qed.

Lemma wrap64_small x :
  time.minDuration <= x <= time.maxDuration -> time.wrap64 x = x.
Proof.
  unfold time.wrap64, time.minDuration, time.maxDuration. intros Hx.
  rewrite Z.mod_small; lia.
Qed.

Lemma wrap64_mul_l a b : time.wrap64 (time.wrap64 a * b) = time.wrap64 (a * b).
Proof.
  destruct (wrap64_spec a) as (q & -> & _). unfold time.wrap64. f_equal.
  replace ((a - 2 ^ 64 * q) * b + 2 ^ 63)
    with (a * b + 2 ^ 63 + (- q * b) * 2 ^ 64) by ring.
  apply Z_mod_plus_full.
Qed.

(** The retention period as the code computes it is the product of the
    specification, wrapped to 64 bits. *)
Lemma keepDays_wrap cfg :
  keepDays cfg = time.wrap64 (SnapshotKeepDays cfg * (24 * time.Hour)).
Proof.
  unfold keepDays, time.mul64. rewrite wrap64_mul_l. f_equal. ring.
Qed.

(** The first half of C3 holds for every positive [keep_days]: a version
    that the age rule does not mark is at most [keep_days] days old. *)
Lemma survivor_within_keep_days cfg now v :
  0 < SnapshotKeepDays cfg ->
  expired cfg now v = false ->
  now - MaxTime v <= SnapshotKeepDays cfg * (24 * time.Hour).
Proof.
  intros HK Hexp. unfold expired in Hexp.
  apply andb_false_iff in Hexp as [Hexp|Hexp]; [apply Z.ltb_ge in Hexp; lia|].
  apply Z.ltb_ge in Hexp. rewrite keepDays_wrap in Hexp.
  destruct (wrap64_spec (SnapshotKeepDays cfg * (24 * time.Hour)))
    as (q & Hq & Hrange).
  rewrite Hq in Hexp, Hrange. clear Hq.
  unfold time.Sub, time.minDuration, time.maxDuration, time.Hour in *.
  destruct (Z.ltb_spec (2 ^ 63 - 1) (now - MaxTime v)).
  { lia. }
  destruct (Z.ltb_spec (now - MaxTime v) (- 2 ^ 63)); lia.
Qed.

(** X23. While the retention period fits in 64 bits, that is for
    [keep_days] from 1 to 106751, the age rule marks a version exactly when
    its newest file is strictly more than [keep_days] days old: a version
    that is exactly [keep_days] days old is kept. *)
Lemma expired_iff_no_overflow cfg now v :
  0 < SnapshotKeepDays cfg <= 106751 ->
  expired cfg now v = true <->
  SnapshotKeepDays cfg * (24 * time.Hour) < now - MaxTime v.
Proof.
  intros HK. unfold expired. rewrite keepDays_wrap, wrap64_small.
  2: { unfold time.minDuration, time.maxDuration, time.Hour. lia. }
  rewrite andb_true_iff, !Z.ltb_lt.
  unfold time.Sub, time.minDuration, time.maxDuration, time.Hour in *.
  destruct (Z.ltb_spec (2 ^ 63 - 1) (now - MaxTime v)); [lia|].
  destruct (Z.ltb_spec (now - MaxTime v) (- 2 ^ 63)); lia.
Qed.

(** C3 fails on the code once the product overflows: with
    [keep_days = 106752] the retention period wraps to a negative
    duration, and a version written an hour ago is deleted as expired
    although it is far younger than 106752 days. *)
Theorem keep_days_overflow_expires_fresh_group :
  keepDays (retention 106752 false) = -9223371273709551616 /\
  (exists v,
     cleanupDir (listing_store snapshot_dir fresh_entries)
                (retention 106752 false) now snapshot_dir
     = inr [ {| v_version := v; shouldDelete := true; reason := "expired" |} ]
     /\ now - MaxTime v = time.Hour) /\
  ~ (106752 * (24 * time.Hour) < time.Hour).
Proof.
  split; [by vm_compute|]. split.
  - eexists. split; [vm_compute; reflexivity|]. by vm_compute.
  - by vm_compute.
Qed.

End retention_age.

Section retention_survivors.

Import config storage service.

(** X24. After any run of [cleanupDir] under an age rule, whatever the
    positive [keep_days], every version that was not deleted is at most
    [keep_days] days old. *)
Lemma cleanupDir_survivors_within_keep_days store cfg now dir vs v :
  0 < SnapshotKeepDays cfg ->
  cleanupDir_run store cfg now dir (inr vs) ->
  v ∈ vs -> shouldDelete v = false ->
  now - MaxTime (v_version v) <= SnapshotKeepDays cfg * (24 * time.Hour).
Proof.
  intros HK Hrun Hv Hkeep. inversion Hrun as [|entries out _ _]; subst.
  apply elem_of_lookup_imap in Hv as (i & w & -> & _).
  rewrite judge_shouldDelete in Hkeep. rewrite judge_version.
  apply orb_false_iff in Hkeep as [Hexp _].
  by apply survivor_within_keep_days.
Qed.

End retention_survivors.

(* ===================================================================== *)
(** * The aggregate router and the resolution pipeline *)
(* ===================================================================== *)

Section string_facts.

Lemma append_assoc (a b c : string) : (a +:+ b) +:+ c = a +:+ b +:+ c.
Proof.
  induction a as [|x a IH]; [done|].
  change (String x (a +:+ b) +:+ c = String x (a +:+ b +:+ c)).
  change (String x ((a +:+ b) +:+ c) = String x (a +:+ b +:+ c)). by rewrite IH.
Qed.

Lemma append_cons x (a b : string) : String x a +:+ b = String x (a +:+ b).
Proof. done. Qed.

Lemma append_nil_l (a : string) : "" +:+ a = a.
Proof. done. Qed.

Lemma Split_nonempty s c : strings.Split s c <> [].
Proof.
  destruct s as [|x s]; simpl; [done|].
  destruct (Ascii.eqb x c); [done|]. by destruct (strings.Split s c).
Qed.

Lemma Split_length s c : (0 < length (strings.Split s c))%nat.
Proof.
  pose proof (Split_nonempty s c). destruct (strings.Split s c); [done|].
  simpl. lia.
Qed.

Lemma Split_no_sep s c :
  strings.in_cutset c s = false -> strings.Split s c = [s].
Proof.
  induction s as [|x s IH]; simpl; [done|].
  rewrite (Ascii.eqb_sym c x). destruct (Ascii.eqb x c); [done|].
  intros H. by rewrite IH.
Qed.

Lemma Split_app a b c :
  strings.in_cutset c a = false ->
  strings.Split (a +:+ String c b) c = a :: strings.Split b c.
Proof.
  induction a as [|x a IH]; simpl.
  - intros _. by rewrite Ascii.eqb_refl.
  - rewrite (Ascii.eqb_sym c x). destruct (Ascii.eqb x c) eqn:E; [done|].
    intros H. rewrite IH by done. done.
Qed.

Lemma Join_cons e p ps sep :
  strings.Join (e :: p :: ps) sep = e +:+ sep +:+ strings.Join (p :: ps) sep.
Proof. done. Qed.

Lemma Join_Split s c : strings.Join (strings.Split s c) (String c "") = s.
Proof.
  induction s as [|x s IH]; [done|]. cbn [strings.Split].
  pose proof (Split_nonempty s c) as Hnil.
  destruct (strings.Split s c) as [|p ps] eqn:E; [done|].
  destruct (Ascii.eqb_spec x c) as [->|Hne].
  - rewrite Join_cons, IH. done.
  - destruct ps as [|p' ps].
    + simpl in *. by rewrite IH.
    + rewrite Join_cons in *. rewrite append_cons. by rewrite IH.
Qed.

Lemma HasPrefix_app pre s : strings.HasPrefix (pre +:+ s) pre = true.
Proof.
  unfold strings.HasPrefix. induction pre as [|x pre IH]; simpl.
  - by destruct s.
  - destruct (ascii_dec x x); [done|congruence].
Qed.

Lemma TrimRight_no_trailing s c :
  strings.last_byte s <> Some c -> strings.TrimRight s (String c "") = s.
Proof.
  induction s as [|x s IH]; [done|]. intros H.
  cbn [strings.TrimRight]. destruct s as [|y s].
  - simpl. destruct (Ascii.eqb_spec x c) as [->|_]; [by destruct H|done].
  - rewrite IH by done. done.
Qed.

End string_facts.

Section prefix_stripping.

Import config storage handler.

Lemma proxy_get_urls c artifactPath proxies url :
  url ∈ (proxy_get c artifactPath proxies).1 ->
  exists proxy, proxy ∈ proxies /\ url = mirror_url proxy artifactPath.
Proof.
  induction proxies as [|proxy rest IH]; simpl; [by intros ?%elem_of_nil|].
  assert (url ∈ mirror_url proxy artifactPath
                 :: (proxy_get c artifactPath rest).1 ->
          exists p, p ∈ proxy :: rest /\ url = mirror_url p artifactPath) as Hcont.
  { intros [->|Hin]%elem_of_cons.
    - exists proxy. split; [apply list_elem_of_here|done].
    - destruct (IH Hin) as (p & Hp & ->). exists p.
      split; [by apply list_elem_of_further|done]. }
  destruct (proxy_get c artifactPath rest) as [urls hit]. simpl in *.
  destruct (client_Get c _) as [r|]; [|done].
  destruct (StatusCode r =? 200); [|done].
  destruct (strings.HasPrefix (ContentType r) "text/html"); [done|].
  simpl. intros ->%list_elem_of_singleton.
  exists proxy. split; [apply list_elem_of_here|done].
Qed.

Lemma HandleDownload_upstream h urlPath m url :
  (m, url) ∈ upstream (HandleDownload h urlPath) ->
  m = GET /\
  exists proxy, proxy ∈ ProxyURLs (Config h) /\
    url = mirror_url proxy (artifactPathOf (strings.TrimPrefix urlPath "/")).
Proof.
  unfold HandleDownload. set (path := strings.TrimPrefix urlPath "/").
  assert (forall urls, (m, url) ∈ requests GET urls -> m = GET /\ url ∈ urls)
    as Hreq.
  { intros urls Hin. unfold requests in Hin.
    apply list_elem_of_In, in_map_iff in Hin as (u & [= <- <-] & Hu).
    by rewrite list_elem_of_In. }
  assert (forall x, (m, url) ∈ upstream (local x) -> False) as Hlocal.
  { intros x Hin. simpl in Hin. by apply elem_of_nil in Hin. }
  destruct (List (Store h) path) as [entries err].
  assert (forall reader found err',
    (m, url) ∈ upstream
      (if is_nil err' && found
       then local (Data 200 (-1) "application/octet-stream" (FromStore reader))
       else
         let '(urls, hit) :=
           if (0 <? length (ProxyURLs (Config h)))%nat
           then proxy_get (Client h) (artifactPathOf path) (ProxyURLs (Config h))
           else ([], None) in
         match hit with
         | Some (url, r) =>
             {| resp := Data 200 (ContentLength r) (ContentType r) (FromUpstream url);
                upstream := requests GET urls;
                saved := [path] |}
         | None =>
             {| resp := match err' with
                        | Some msg => JSONError 500 msg
                        | None => Status 404
                        end;
                upstream := requests GET urls;
                saved := [] |}
         end) ->
    m = GET /\
    exists proxy, proxy ∈ ProxyURLs (Config h) /\
                  url = mirror_url proxy (artifactPathOf path)) as Hrest.
  { intros reader found err'.
    destruct (is_nil err' && found); [intros Hin; by destruct (Hlocal _ Hin)|].
    destruct (0 <? length (ProxyURLs (Config h)))%nat.
    - pose proof (proxy_get_urls (Client h) (artifactPathOf path)
                                 (ProxyURLs (Config h)) url) as Hurls.
      destruct (proxy_get _ _ _) as [urls [[u r]|]]; simpl in *;
        intros [-> Hin]%Hreq; split; try done; by apply Hurls.
    - simpl. intros Hin. by apply elem_of_nil in Hin. }
  destruct (Get (Store h) path) as [[reader found] err'].
  destruct err as [msg|]; [by apply Hrest|].
  destruct entries as [es|]; [intros Hin; by destruct (Hlocal _ Hin)|].
  by apply Hrest.
Qed.

(** C7 (amended). The artifact path the direct GET fallback sends to the
    mirrors: a path that starts with [repository/] and has a third segment
    loses its first two segments; one that starts with [repository/] and
    has only two segments is sent unchanged; one that starts with
    [public/] loses its first segment; any other path is sent unchanged.
    Every request to a mirror is a GET for that artifact path. *)
Theorem artifactPathOf_spec :
  (forall repo rest, strings.in_cutset "/" repo = false ->
     artifactPathOf ("repository/" +:+ repo +:+ "/" +:+ rest) = rest) /\
  (forall repo, strings.in_cutset "/" repo = false ->
     artifactPathOf ("repository/" +:+ repo) = "repository/" +:+ repo) /\
  (forall rest, artifactPathOf ("public/" +:+ rest) = rest) /\
  (forall path, strings.HasPrefix path "repository/" = false ->
                strings.HasPrefix path "public/" = false ->
                artifactPathOf path = path) /\
  (forall h urlPath m url,
     (m, url) ∈ upstream (HandleDownload h urlPath) ->
     m = GET /\
     exists proxy, proxy ∈ ProxyURLs (Config h) /\
       url = mirror_url proxy (artifactPathOf (strings.TrimPrefix urlPath "/"))).
Proof.
  split; [|split; [|split; [|split]]].
  - intros repo rest Hrepo. unfold artifactPathOf.
    rewrite HasPrefix_app.
    change ("repository/" +:+ repo +:+ "/" +:+ rest)
      with ("repository" +:+ String "/" (repo +:+ String "/" rest)).
    rewrite Split_app by done. rewrite Split_app by done.
    pose proof (Split_length rest "/") as Hlen.
    assert ((2 <? length ("repository" :: repo :: strings.Split rest "/"))%nat
            = true) as -> by (apply Nat.ltb_lt; simpl; lia).
    cbn [andb skipn]. apply Join_Split.
  - intros repo Hrepo. unfold artifactPathOf. rewrite HasPrefix_app.
    change ("repository/" +:+ repo) with ("repository" +:+ String "/" repo).
    rewrite Split_app by done. rewrite Split_no_sep by done. done.
  - intros rest. unfold artifactPathOf.
    assert (strings.HasPrefix ("public/" +:+ rest) "repository/" = false)
      as -> by done.
    rewrite HasPrefix_app.
    change ("public/" +:+ rest) with ("public" +:+ String "/" rest).
    rewrite Split_app by done.
    pose proof (Split_length rest "/") as Hlen.
    assert ((1 <? length ("public" :: strings.Split rest "/"))%nat = true)
      as -> by (apply Nat.ltb_lt; simpl; lia).
    cbn [andb skipn]. apply Join_Split.
  - intros path H1 H2. unfold artifactPathOf. by rewrite H1, H2.
  - apply HandleDownload_upstream.
Qed.

(** C7, as stated, fails on a path with only the two segments the rule
    would drop: it is sent to the mirrors unchanged, not emptied. *)
Lemma artifactPathOf_two_segments_counterexample :
  strings.HasPrefix "repository/dev" "repository/" = true /\
  artifactPathOf "repository/dev" = "repository/dev" /\
  strings.Join (drop 2 (strings.Split "repository/dev" "/")) "/" = "" /\
  artifactPathOf "repository/dev"
  <> strings.Join (drop 2 (strings.Split "repository/dev" "/")) "/".
Proof. by vm_compute. Qed.

End prefix_stripping.

Section aggregate_router.

Import config storage handler.

Lemma getAggregateRepos_loop base : forall entries repos hasReleases,
  foldl (fun '(repos, hasReleases) e =>
           if IsDir e then
             if String.eqb (Name e) "maven-public" then (repos, hasReleases)
             else if String.eqb (Name e) "maven-releases" then (repos, true)
             else (repos ++ [base +:+ "/" +:+ Name e], hasReleases)
           else (repos, hasReleases))
        (repos, hasReleases) entries
  = (repos ++ map (fun e => base +:+ "/" +:+ Name e)
                  (List.filter other_repo entries),
     hasReleases || existsb is_releases entries).
Proof.
  induction entries as [|e entries IH]; intros repos hasReleases; simpl.
  - by rewrite app_nil_r, orb_false_r.
  - unfold other_repo, is_releases. destruct (IsDir e); simpl; [|apply IH].
    destruct (String.eqb_spec (Name e) "maven-public") as [Hp|_]; simpl.
    { rewrite IH, Hp.
      change ("maven-public" =? "maven-releases")%string with false. done. }
    destruct (String.eqb (Name e) "maven-releases"); simpl.
    + rewrite IH. simpl. by rewrite orb_true_r.
    + rewrite IH, <- app_assoc. done.
Qed.

Lemma getAggregateRepos_eq h basePath :
  getAggregateRepos h basePath =
    match List (Store h) basePath with
    | (_, Some _) => []
    | (entries, None) =>
        (if existsb is_releases (elems entries)
         then [strings.TrimRight basePath "/" +:+ "/maven-releases"] else [])
        ++ map (fun e => strings.TrimRight basePath "/" +:+ "/" +:+ Name e)
               (List.filter other_repo (elems entries))
    end.
Proof.
  unfold getAggregateRepos. destruct (List (Store h) basePath) as [entries [msg|]];
    [done|].
  rewrite getAggregateRepos_loop. simpl.
  by destruct (existsb is_releases (elems entries)).
Qed.

(** C5 (amended). The aggregate router returns, for the directory entries
    of [list(P)], the paths [T/name] where [T] is [P] without its trailing
    slashes, so [P/name] whenever [P] does not end with a slash:
    [maven-public] is left out, [maven-releases] comes first when it is
    there, the other directories follow in listing order, entries that are
    not directories never appear, and a failing listing gives nothing. *)
Theorem getAggregateRepos_spec h basePath :
  getAggregateRepos h basePath =
    match List (Store h) basePath with
    | (_, Some _) => []
    | (entries, None) =>
        (if existsb is_releases (elems entries)
         then [strings.TrimRight basePath "/" +:+ "/maven-releases"] else [])
        ++ map (fun e => strings.TrimRight basePath "/" +:+ "/" +:+ Name e)
               (List.filter other_repo (elems entries))
    end
  /\ (strings.last_byte basePath <> Some "/"%char ->
      strings.TrimRight basePath "/" = basePath).
Proof.
  split; [apply getAggregateRepos_eq|apply TrimRight_no_trailing].
Qed.

(** C5, as stated, fails for a base prefix that ends with a slash, the
    form the comment in [HandleAggregateDownload] gives as its example: the
    paths returned are not [P + "/" + name]. *)
Lemma getAggregateRepos_trailing_slash_counterexample :
  getAggregateRepos (fixtures.maven_handler []) "repository/"
  = ["repository/maven-releases"; "repository/dev"] /\
  getAggregateRepos (fixtures.maven_handler []) "repository/"
  <> ["repository/" +:+ "/" +:+ "maven-releases";
      "repository/" +:+ "/" +:+ "dev"].
Proof. by vm_compute. Qed.

End aggregate_router.

Section aggregate_listing.

Import config storage handler.

Lemma seen_true (seen : gmap string bool) k :
  default false (seen !! k) = true <-> seen !! k = Some true.
Proof. destruct (seen !! k) as [[|]|]; simpl; split; congruence. Qed.

(** The entries written are the first occurrences of the names not yet
    seen. *)
Lemma render_dedup_elem l : forall (seen : gmap string bool) e,
  e ∈ render_dedup seen l <->
  exists l1 l2, l = l1 ++ e :: l2 /\ (Name e ∉ map Name l1) /\
                seen !! Name e <> Some true.
Proof.
  induction l as [|e0 rest IH]; intros seen e; simpl.
  - split; [by intros ?%elem_of_nil|]. intros (l1 & l2 & H & _).
    by destruct l1.
  - destruct (default false (seen !! Name e0)) eqn:Hseen.
    + apply seen_true in Hseen. rewrite IH. split.
      * intros (l1 & l2 & -> & Hfresh & Hns). exists (e0 :: l1), l2.
        split; [done|]. split; [|done]. simpl.
        apply not_elem_of_cons. split; [congruence|done].
      * intros (l1 & l2 & Heq & Hfresh & Hns).
        destruct l1 as [|x l1]; simpl in Heq; injection Heq as -> ->.
        { by destruct Hns. }
        exists l1, l2. simpl in Hfresh.
        apply not_elem_of_cons in Hfresh as [_ Hfresh]. done.
    + assert (seen !! Name e0 <> Some true) as Hns0.
      { intros H. apply seen_true in H. congruence. }
      rewrite elem_of_cons, IH. split.
      * intros [->|(l1 & l2 & -> & Hfresh & Hns)].
        { exists [], rest. split; [done|]. split; [|done].
          simpl. apply not_elem_of_nil. }
        destruct (decide (Name e0 = Name e)) as [Heq|Hne].
        { rewrite Heq, lookup_insert_eq in Hns. done. }
        rewrite lookup_insert_ne in Hns by done.
        exists (e0 :: l1), l2. split; [done|]. split; [|done]. simpl.
        apply not_elem_of_cons. split; [congruence|done].
      * intros (l1 & l2 & Heq & Hfresh & Hns).
        destruct l1 as [|x l1]; simpl in Heq; injection Heq as -> ->.
        { by left. }
        right. simpl in Hfresh. apply not_elem_of_cons in Hfresh as [Hne Hfresh].
        exists l1, l2. split; [done|]. split; [done|].
        rewrite lookup_insert_ne by congruence. done.
Qed.

Lemma render_dedup_NoDup l : forall (seen : gmap string bool),
  NoDup (map Name (render_dedup seen l)).
Proof.
  induction l as [|e0 rest IH]; intros seen; simpl; [constructor|].
  destruct (default false (seen !! Name e0)); [apply IH|].
  simpl. apply NoDup_cons. split; [|apply IH].
  intros Hin. apply list_elem_of_In, in_map_iff in Hin as (e & Hn & He).
  apply list_elem_of_In, render_dedup_elem in He as (_ & _ & _ & _ & Hns).
  rewrite Hn, lookup_insert_eq in Hns. done.
Qed.

Lemma render_dedup_sublist l : forall (seen : gmap string bool),
  sublist (render_dedup seen l) l.
Proof.
  induction l as [|e0 rest IH]; intros seen; simpl; [constructor|].
  destruct (default false (seen !! Name e0)).
  - by apply sublist_cons.
  - by apply sublist_skip.
Qed.

Lemma collect_entries_loop h artifactPath : forall repos allEntries foundDir,
  (foldl (fun '(allEntries, foundDir) repo =>
            let fullPath := strings.TrimRight repo "/" +:+ "/" +:+ artifactPath in
            match List (Store h) fullPath with
            | (Some entries, None) => (allEntries ++ entries, true)
            | _ => (allEntries, foundDir)
            end)
         (allEntries, foundDir) repos).1
  = allEntries ++ concat (map (listing h artifactPath) repos).
Proof.
  induction repos as [|repo repos IH]; intros allEntries foundDir; simpl.
  - by rewrite app_nil_r.
  - unfold listing at 1.
    destruct (List (Store h) _) as [[entries|] [msg|]]; simpl; rewrite IH;
      by rewrite <- ?app_assoc.
Qed.

(** The entries the aggregate index is rendered from: the listings of the
    repositories, in the order of [getAggregateRepos]. *)
Lemma collect_entries_concat h repos artifactPath :
  (collect_entries h repos artifactPath).1
  = concat (map (listing h artifactPath) repos).
Proof. unfold collect_entries. by rewrite collect_entries_loop. Qed.

Lemma NoDup_map_eq {A B} (f : A -> B) (l : list A) x y :
  NoDup (map f l) -> x ∈ l -> y ∈ l -> f x = f y -> x = y.
Proof.
  induction l as [|a l IH]; simpl; [by intros _ ?%elem_of_nil|].
  intros [Hfresh Hnd]%NoDup_cons [->|Hx]%elem_of_cons [->|Hy]%elem_of_cons Hf.
  - done.
  - destruct Hfresh. rewrite Hf. by apply list_elem_of_In, in_map, list_elem_of_In.
  - destruct Hfresh. rewrite <- Hf. by apply list_elem_of_In, in_map, list_elem_of_In.
  - by apply IH.
Qed.

Lemma aggregate_index_items h basePath pathParam heading items :
  resp (HandleAggregateDownload h basePath pathParam) = Index heading items ->
  items = render_dedup ∅
            (concat (map (listing h (strings.TrimPrefix pathParam "/"))
                         (getAggregateRepos h basePath))).
Proof.
  unfold HandleAggregateDownload.
  rewrite <- collect_entries_concat.
  destruct (collect_entries h _ _) as [allEntries foundDir]. simpl.
  destruct foundDir; simpl; [by intros [= _ <-]|].
  destruct (first_found h _ _); [done|].
  destruct (if (0 <? length (ProxyURLs (Config h)))%nat then _ else _)
    as [urls [[u r]|]]; done.
Qed.

(** C6. In an aggregate directory index every name appears once; the
    entries written are, in order, the first entries of their name in the
    listings of the repositories taken in the order of
    [getAggregateRepos]; so when [maven-releases] is a repository, the
    entry of a name in its listing is the one written, whatever the other
    repositories hold under that name. *)
Theorem aggregate_index_dedup h basePath pathParam heading items :
  resp (HandleAggregateDownload h basePath pathParam) = Index heading items ->
  let artifactPath := strings.TrimPrefix pathParam "/" in
  let all := concat (map (listing h artifactPath)
                         (getAggregateRepos h basePath)) in
  NoDup (map Name items) /\
  sublist items all /\
  (forall e, e ∈ items <->
             exists l1 l2, all = l1 ++ e :: l2 /\ (Name e ∉ map Name l1)) /\
  (forall entries e l1 l2,
     List (Store h) basePath = (entries, None) ->
     existsb is_releases (elems entries) = true ->
     listing h artifactPath (strings.TrimRight basePath "/" +:+ "/maven-releases")
     = l1 ++ e :: l2 ->
     Name e ∉ map Name l1 ->
     e ∈ items /\ forall e', e' ∈ items -> Name e' = Name e -> e' = e).
Proof.
  intros Hresp artifactPath all.
  apply aggregate_index_items in Hresp. fold artifactPath all in Hresp.
  assert (forall e, e ∈ items <->
            exists l1 l2, all = l1 ++ e :: l2 /\ (Name e ∉ map Name l1)) as Helem.
  { intros e. rewrite Hresp, render_dedup_elem. split.
    - intros (l1 & l2 & ? & ? & _). by exists l1, l2.
    - intros (l1 & l2 & ? & ?). exists l1, l2. by rewrite lookup_empty. }
  assert (NoDup (map Name items)) as Hnd.
  { rewrite Hresp. apply render_dedup_NoDup. }
  split; [done|]. split; [rewrite Hresp; apply render_dedup_sublist|].
  split; [done|].
  intros entries e l1 l2 HL Hrel Hlisting Hfresh.
  assert (e ∈ items) as He.
  { apply Helem. exists l1. unfold all. rewrite getAggregateRepos_eq, HL, Hrel.
    simpl. rewrite Hlisting, <- app_assoc. simpl. by eexists. }
  split; [done|]. intros e' He' Hn. by eapply NoDup_map_eq.
Qed.

Lemma aggregate_index_dedup_witness :
  let h := fixtures.maven_handler [] in
  let all := concat (map (listing h (strings.TrimPrefix "/com/ex/" "/"))
                         (getAggregateRepos h "repository")) in
  let items := [fixtures.releases_a_jar; fixtures.dev_b_jar] in
  NoDup (map Name items) /\
  sublist items all /\
  (forall e, e ∈ items <->
             exists l1 l2, all = l1 ++ e :: l2 /\ (Name e ∉ map Name l1)) /\
  (forall entries e l1 l2,
     List (Store h) "repository" = (entries, None) ->
     existsb is_releases (elems entries) = true ->
     listing h (strings.TrimPrefix "/com/ex/" "/")
             (strings.TrimRight "repository" "/" +:+ "/maven-releases")
     = l1 ++ e :: l2 ->
     Name e ∉ map Name l1 ->
     e ∈ items /\ forall e', e' ∈ items -> Name e' = Name e -> e' = e).
Proof.
  apply (aggregate_index_dedup (fixtures.maven_handler []) "repository"
           "/com/ex/" "Index of /repository/maven-public/com/ex/ (Aggregated)"
           [fixtures.releases_a_jar; fixtures.dev_b_jar]).
  vm_compute. reflexivity.
Defined.

End aggregate_listing.

Section head_handler.

Import config storage handler.

Lemma proxy_head_urls c path proxies url :
  url ∈ (proxy_head c path proxies).1 ->
  exists proxy, proxy ∈ proxies /\ url = mirror_url proxy path.
Proof.
  induction proxies as [|proxy rest IH]; simpl; [by intros ?%elem_of_nil|].
  assert (url ∈ mirror_url proxy path :: (proxy_head c path rest).1 ->
          exists p, p ∈ proxy :: rest /\ url = mirror_url p path) as Hcont.
  { intros [->|Hin]%elem_of_cons.
    - exists proxy. split; [apply list_elem_of_here|done].
    - destruct (IH Hin) as (p & Hp & ->). exists p.
      split; [by apply list_elem_of_further|done]. }
  destruct (proxy_head c path rest) as [urls hit]. simpl in *.
  destruct (client_Head c _) as [r|]; [|done].
  destruct (StatusCode r =? 200); [|done].
  simpl. intros ->%list_elem_of_singleton.
  exists proxy. split; [apply list_elem_of_here|done].
Qed.

(** What does hold of the direct HEAD handler: it never starts a
    [Store.Save], answers 200, 404 or 500 only, 500 only after an error of
    the local probe, and asks the mirrors with HEAD for the request path
    as it stands. *)
Lemma HandleHead_facts h urlPath :
  let path := strings.TrimPrefix urlPath "/" in
  saved (HandleHead h urlPath) = [] /\
  (resp (HandleHead h urlPath) = Status 200 \/
   resp (HandleHead h urlPath) = Status 404 \/
   resp (HandleHead h urlPath) = Status 500 /\
   (Head (Store h) path).2 <> None) /\
  (forall m url, (m, url) ∈ upstream (HandleHead h urlPath) ->
     m = HEAD /\ exists proxy, proxy ∈ ProxyURLs (Config h) /\
                               url = mirror_url proxy path).
Proof.
  intros path. unfold HandleHead. fold path.
  destruct (Head (Store h) path) as [found err]. simpl.
  destruct (is_nil err && found) eqn:Hlocal; simpl.
  { split; [done|]. split; [by left|]. intros m url Hin.
    by apply elem_of_nil in Hin. }
  pose proof (proxy_head_urls (Client h) path (ProxyURLs (Config h))) as Hurls.
  destruct (0 <? length (ProxyURLs (Config h)))%nat.
  - destruct (proxy_head _ _ _) as [urls hit]. simpl in *.
    split; [done|]. split.
    + destruct hit; [by left|]. destruct err; [|by right; left].
      right; right. done.
    + intros m url Hin. unfold requests in Hin.
      apply list_elem_of_In, in_map_iff in Hin as (u & [= <- <-] & Hu).
      split; [done|]. by apply Hurls, list_elem_of_In.
  - simpl. split; [done|]. split.
    + destruct err; [right; right; done|by right; left].
    + intros m url Hin. by apply elem_of_nil in Hin.
Qed.

(** C8 fails on the code: for an artifact that only a mirror has, the
    direct GET strips [repository/dev/] and finds it, while the direct
    HEAD asks the mirror for the unstripped request path and answers
    404. *)
Theorem HandleHead_does_not_strip_prefix :
  let h := fixtures.maven_handler ["https://repo.example/maven2/"] in
  let urlPath := "/repository/dev/com/ex/c/1.0/c.jar" in
  upstream (HandleDownload h urlPath)
  = [(GET, "https://repo.example/maven2/com/ex/c/1.0/c.jar")] /\
  resp (HandleDownload h urlPath)
  = Data 200 3 "application/java-archive"
         (FromUpstream "https://repo.example/maven2/com/ex/c/1.0/c.jar") /\
  upstream (HandleHead h urlPath)
  = [(HEAD, "https://repo.example/maven2/repository/dev/com/ex/c/1.0/c.jar")] /\
  resp (HandleHead h urlPath) = Status 404.
Proof. by vm_compute. Qed.

End head_handler.

Section empty_directory.

Import config storage handler.

Lemma LocalStorage_List_nil fs BasePath path :
  match fs !! filepath.Join [BasePath; path] with
  | None | Some (File _ _) | Some (Dir _ _ []) =>
      LocalStorage_List fs BasePath path = (None, None)
  | _ => True
  end.
Proof.
  unfold LocalStorage_List.
  destruct (fs !! filepath.Join [BasePath; path]) as [[| ? ? [|? ?] | |]|];
    done.
Qed.

Lemma HandleDownload_List_nil h urlPath :
  List (Store h) (strings.TrimPrefix urlPath "/") = (None, None) ->
  forall reader,
  Get (Store h) (strings.TrimPrefix urlPath "/") = (reader, true, None) ->
  HandleDownload h urlPath
  = local (Data 200 (-1) "application/octet-stream" (FromStore reader)).
Proof.
  intros HL reader HG. unfold HandleDownload. by rewrite HL, HG.
Qed.

(** C10 (amended). On an existing directory that [os.ReadDir] reads and
    finds without entries, [LocalStorage.List] returns a nil slice and no
    error, as it does on a missing path and on a file; on a directory that
    [os.ReadDir] fails to read, empty or not, it returns the error of
    [os.ReadDir] instead.  A direct GET of a readable empty directory
    therefore renders no index and goes on to the file probe; there
    [LocalStorage.Get] opens the directory and reports it found, so the
    handler answers from the file branch (200, [application/octet-stream],
    the opened directory as body) and neither asks a mirror nor answers
    404. *)
Theorem empty_directory_is_served_as_file fs BasePath h urlPath size mtime :
  Store h = LocalStorage fs BasePath ->
  fs !! filepath.Join [BasePath; strings.TrimPrefix urlPath "/"]
  = Some (Dir size mtime []) ->
  List (Store h) (strings.TrimPrefix urlPath "/") = (None, None) /\
  (forall p, fs !! filepath.Join [BasePath; p] = None ->
             List (Store h) p = (None, None)) /\
  (forall p sz mt, fs !! filepath.Join [BasePath; p] = Some (File sz mt) ->
                   List (Store h) p = (None, None)) /\
  (forall p sz mt opens,
     fs !! filepath.Join [BasePath; p] = Some (Unreadable sz mt opens) ->
     List (Store h) p = (None, Some (ReadDir_error opens))) /\
  HandleDownload h urlPath
  = local (Data 200 (-1) "application/octet-stream"
             (FromStore (Some (filepath.Join
                                 [BasePath; strings.TrimPrefix urlPath "/"])))).
Proof.
  intros Hst Hdir. rewrite Hst. simpl.
  assert (forall p, match fs !! filepath.Join [BasePath; p] with
                    | None | Some (File _ _) | Some (Dir _ _ []) =>
                        LocalStorage_List fs BasePath p = (None, None)
                    | _ => True
                    end) as HL by (intros p; apply LocalStorage_List_nil).
  split; [|split; [|split; [|split]]].
  - specialize (HL (strings.TrimPrefix urlPath "/")). by rewrite Hdir in HL.
  - intros p Hp. specialize (HL p). by rewrite Hp in HL.
  - intros p sz mt Hp. specialize (HL p). by rewrite Hp in HL.
  - intros p sz mt opens Hp. unfold LocalStorage_List. by rewrite Hp.
  - apply HandleDownload_List_nil; rewrite Hst; simpl.
    + specialize (HL (strings.TrimPrefix urlPath "/")). by rewrite Hdir in HL.
    + unfold LocalStorage_Get. by rewrite Hdir.
Qed.

Lemma empty_directory_is_served_as_file_witness :
  let h := fixtures.maven_handler ["https://repo.example/maven2/"] in
  let urlPath := "/repository/dev/empty" in
  List (Store h) (strings.TrimPrefix urlPath "/") = (None, None) /\
  (forall p, fixtures.fs !! filepath.Join ["./artifacts"; p] = None ->
             List (Store h) p = (None, None)) /\
  (forall p sz mt,
     fixtures.fs !! filepath.Join ["./artifacts"; p] = Some (File sz mt) ->
     List (Store h) p = (None, None)) /\
  (forall p sz mt opens,
     fixtures.fs !! filepath.Join ["./artifacts"; p]
     = Some (Unreadable sz mt opens) ->
     List (Store h) p = (None, Some (ReadDir_error opens))) /\
  HandleDownload h urlPath
  = local (Data 200 (-1) "application/octet-stream"
             (FromStore (Some (filepath.Join
                                 ["./artifacts";
                                  strings.TrimPrefix urlPath "/"])))).
Proof.
  apply (empty_directory_is_served_as_file fixtures.fs "./artifacts"
           (fixtures.maven_handler ["https://repo.example/maven2/"])
           "/repository/dev/empty" 4096 examples.now).
  - reflexivity.
  - vm_compute. reflexivity.
Defined.

(** C10, as stated, fails twice.  In its last part: the GET of a readable
    empty directory ends at the file probe; no mirror is asked although
    one is configured, and the answer is not 404.  In its first part: on
    an empty directory that cannot be read [List] returns an error, not a
    nil slice without error. *)
Lemma empty_directory_counterexample :
  let h := fixtures.maven_handler ["https://repo.example/maven2/"] in
  (List (Store h) "repository/dev/empty" = (None, None) /\
   HandleDownload h "/repository/dev/empty"
   = {| resp := Data 200 (-1) "application/octet-stream"
                     (FromStore (Some "artifacts/repository/dev/empty"));
        upstream := [];
        saved := [] |} /\
   resp (HandleDownload h "/repository/dev/empty") <> Status 404) /\
  LocalStorage_List
    (<["artifacts/repository/dev/empty" := Unreadable 4096 examples.now false]>
       fixtures.fs)
    "./artifacts" "repository/dev/empty"
  = (None, Some "permission denied").
Proof. by vm_compute. Qed.

End empty_directory.

(* ===================================================================== *)
(** * The retention controller *)
(* ===================================================================== *)

Section controller.

Import config service.

Lemma run_app s tr1 tr2 :
  run s (tr1 ++ tr2) = match run s tr1 with
                       | Some s' => run s' tr2
                       | None => None
                       end.
Proof.
  revert s. induction tr1 as [|e tr1 IH]; intros s; simpl; [done|].
  destruct (step s e); [apply IH|done].
Qed.

Lemma step_Paused s e s' :
  step s e = Some s' -> e <> EvResume -> Paused s = true -> Paused s' = true.
Proof.
  intros Hstep Hne Hp. destruct s as [p c l]. simpl in Hp. subst p.
  destruct e as [| |[|]| | | | | |], l as [| | |[|]| |], c;
    simpl in Hstep; inversion Hstep; subst; simpl; done.
Qed.

Lemma run_Paused tr : forall s s',
  run s tr = Some s' -> EvResume ∉ tr -> Paused s = true -> Paused s' = true.
Proof.
  induction tr as [|e tr IH]; intros s s' Hrun Hno Hp; simpl in Hrun.
  - by injection Hrun as <-.
  - apply not_elem_of_cons in Hno as [Hne Hno].
    destruct (step s e) as [s1|] eqn:Hstep; [|done].
    eapply IH; [done..|]. eapply step_Paused; eauto.
Qed.

Lemma step_tick_held s s' :
  step s EvTick = Some s' -> Paused s = true -> held s'.
Proof.
  intros Hstep Hp. unfold step in Hstep.
  destruct (loop s); inversion Hstep; subst. by repeat split.
Qed.

Lemma step_held s e s' :
  step s e = Some s' -> e <> EvResume -> held s ->
  held s' /\ e <> EvRunCleanup Ticker.
Proof.
  intros Hstep Hne (Hp & Hl1 & Hl2).
  destruct e as [| |[|]| | | | | |], s as [p c l]; simpl in *; subst p;
    destruct l as [| | |[|]| |], c; simpl in Hstep; inversion Hstep; subst;
    unfold held; simpl; repeat split; done.
Qed.

Lemma run_held tr : forall s s',
  run s tr = Some s' -> EvResume ∉ tr -> held s ->
  held s' /\ EvRunCleanup Ticker ∉ tr.
Proof.
  induction tr as [|e tr IH]; intros s s' Hrun Hno Hh; simpl in Hrun.
  - injection Hrun as <-. split; [done|apply not_elem_of_nil].
  - apply not_elem_of_cons in Hno as [Hne Hno].
    destruct (step s e) as [s1|] eqn:Hstep; [|done].
    destruct (step_held _ _ _ Hstep (not_eq_sym Hne) Hh) as [Hh1 He].
    destruct (IH _ _ Hrun Hno Hh1) as [Hh' Hnot].
    split; [done|]. apply not_elem_of_cons. done.
Qed.

(** C9 (amended). In every run of the controller, once [Pause()] has run
    and while no [Resume()] has, a tick that the loop receives after the
    [Pause()] does not lead to [RunCleanup]: whatever follows such a tick,
    before any [Resume()], is not the loop's invocation of [RunCleanup].
    So the only invocation by the ticker that can begin between a
    [Pause()] and the next [Resume()] is that of a tick received before
    the [Pause()].  The manual trigger invokes [RunCleanup] in every
    state, paused or not, and leaves the controller's state as it is. *)
Theorem pause_holds_ticker cfg tr s t1 t2 e t3 :
  run (Start cfg) tr = Some s ->
  tr = t1 ++ EvPause :: t2 ++ e :: t3 ->
  EvTick ∈ t2 ->
  EvResume ∉ t2 ->
  e <> EvRunCleanup Ticker /\
  (forall s0, step s0 (EvRunCleanup Manual) = Some s0).
Proof.
  intros Hrun -> Htick Hno. split; [|by intros [p c l]; destruct l as [| | |[|]| |]].
  rewrite run_app in Hrun.
  destruct (run (Start cfg) t1) as [s1|]; [|done]. simpl in Hrun.
  set (s2 := {| Paused := true; cancelled := cancelled s1; loop := loop s1 |})
    in Hrun.
  assert (Paused s2 = true) as Hp2 by done.
  rewrite run_app in Hrun.
  destruct (run s2 t2) as [s3|] eqn:Hrun2; [|done]. cbn [run] in Hrun.
  destruct (step s3 e) as [s4|] eqn:Hstep; [|done].
  apply list_elem_of_split in Htick as (a & b & ->).
  apply not_elem_of_app in Hno as [Hno_a Hno_b].
  apply not_elem_of_cons in Hno_b as [_ Hno_b].
  rewrite run_app in Hrun2.
  destruct (run s2 a) as [sa|] eqn:Hrun_a; [|done]. cbn [run] in Hrun2.
  destruct (step sa EvTick) as [sb|] eqn:Htickstep; [|done].
  pose proof (run_Paused _ _ _ Hrun_a Hno_a Hp2) as Hpa.
  pose proof (step_tick_held _ _ Htickstep Hpa) as Hheld.
  destruct (run_held _ _ _ Hrun2 Hno_b Hheld) as [Hheld3 _].
  destruct (decide (e = EvResume)) as [->|Hne]; [done|].
  by destruct (step_held _ _ _ Hstep Hne Hheld3).
Qed.

Lemma pause_holds_ticker_witness :
  EvSkip <> EvRunCleanup Ticker /\
  (forall s0, step s0 (EvRunCleanup Manual) = Some s0).
Proof.
  apply (pause_holds_ticker (examples.retention 30 false)
           ([EvTick; EvReadPaused; EvRunCleanup Ticker; EvCleanupDone]
            ++ EvPause :: [EvTick; EvReadPaused] ++ EvSkip
            :: [EvRunCleanup Manual; EvResume; EvTick; EvReadPaused;
                EvRunCleanup Ticker])
           {| Paused := false; cancelled := false; loop := Cleaning |}
           [EvTick; EvReadPaused; EvRunCleanup Ticker; EvCleanupDone]
           [EvTick; EvReadPaused] EvSkip
           [EvRunCleanup Manual; EvResume; EvTick; EvReadPaused;
            EvRunCleanup Ticker]).
  - reflexivity.
  - reflexivity.
  - apply list_elem_of_here.
  - apply (bool_decide_unpack _). vm_compute. exact I.
Defined.

(** C9, as stated, fails: the loop reads [Paused] under [Mu], unlocks, and
    only then calls [RunCleanup].  A [Pause()] that runs in between does
    not hold the tick back: the ticker's [RunCleanup] begins after
    [Pause()] has returned and before any [Resume()]. *)
Lemma pause_in_flight_counterexample :
  ~ (forall cfg tr s t1 t2 e t3,
       run (Start cfg) tr = Some s ->
       tr = t1 ++ EvPause :: t2 ++ e :: t3 ->
       EvResume ∉ t2 ->
       e <> EvRunCleanup Ticker).
Proof.
  intros H.
  apply (H (examples.retention 30 false)
           [EvTick; EvReadPaused; EvPause; EvRunCleanup Ticker]
           {| Paused := true; cancelled := false; loop := Cleaning |}
           [EvTick; EvReadPaused] [] (EvRunCleanup Ticker) []);
    [reflexivity|reflexivity|apply not_elem_of_nil|reflexivity].
Qed.

(** A tick whose [Paused] was read before [Pause()] ran still goes on to
    [RunCleanup]: pause holds the ticks that come after it. *)
Example tick_in_flight_runs :
  run (Start (examples.retention 30 false))
      [EvTick; EvReadPaused; EvPause; EvRunCleanup Ticker]
  = Some {| Paused := true; cancelled := false; loop := Cleaning |}.
Proof. reflexivity. Qed.

End controller.

(* ===================================================================== *)
(** * The handlers on the scenarios of the specification *)
(* ===================================================================== *)

Section scenarios.

Import config storage handler.

(** Aggregate release priority: the file of [maven-releases] is served
    although [dev] has one of the same path. *)
Example aggregate_serves_releases_first :
  HandleAggregateDownload (fixtures.maven_handler []) "repository" "/com/ex/a.jar"
  = local (Data 200 (-1) "application/octet-stream"
             (FromStore (Some "artifacts/repository/maven-releases/com/ex/a.jar"))).
Proof. vm_compute. reflexivity. Qed.

(** Directory listing: a directory is answered with its index. *)
Example directory_is_listed :
  resp (HandleDownload (fixtures.maven_handler []) "/repository/dev/com/ex/")
  = Index "Index of /repository/dev/com/ex/"
          [ {| Name := "a.jar"; IsDir := false; Size := 5;
               ModTime := examples.now |}; fixtures.dev_b_jar ] /\
  strings.HasPrefix
    (index_html "Index of /repository/dev/com/ex/" [fixtures.dev_b_jar])
    "<html><body><h1>Index of /repository/dev/com/ex/</h1><hr><ul>" = true /\
  index_line fixtures.dev_b_jar
  = "<li><a href=" +:+ dquote +:+ "b.jar" +:+ dquote
    +:+ ">b.jar</a> (Size: 7)</li>".
Proof. by vm_compute. Qed.

(** Upstream cache-fill: a miss is fetched from the mirror and a save of
    the request path is started. *)
Example miss_is_fetched_and_cached :
  HandleDownload (fixtures.maven_handler ["https://repo.example/maven2/"])
                 "/repository/dev/com/ex/c/1.0/c.jar"
  = {| resp := Data 200 3 "application/java-archive"
                    (FromUpstream "https://repo.example/maven2/com/ex/c/1.0/c.jar");
       upstream := [(GET, "https://repo.example/maven2/com/ex/c/1.0/c.jar")];
       saved := ["repository/dev/com/ex/c/1.0/c.jar"] |}.
Proof. vm_compute. reflexivity. Qed.

(** An HTML answer of the mirror is rejected: 404, and nothing is saved. *)
Example html_answer_is_rejected :
  HandleDownload fixtures.html_handler "/repository/dev/com/ex/c/1.0/c.jar"
  = {| resp := Status 404;
       upstream := [(GET, "https://repo.example/maven2/com/ex/c/1.0/c.jar")];
       saved := [] |}.
Proof. vm_compute. reflexivity. Qed.

End scenarios.

(* ===================================================================== *)
(** * Further properties of the resolution pipeline *)
(* ===================================================================== *)

Section mirrors.

Import config storage handler.

Lemma proxy_get_hit c artifactPath proxies urls url r :
  proxy_get c artifactPath proxies = (urls, Some (url, r)) ->
  exists pre proxy post,
    proxies = pre ++ proxy :: post /\
    url = mirror_url proxy artifactPath /\
    client_Get c url = Some r /\ accepted r = true /\
    urls = map (fun p => mirror_url p artifactPath) (pre ++ [proxy]) /\
    Forall (fun p => accepts_get c artifactPath p = false) pre.
Proof.
  revert urls. induction proxies as [|proxy rest IH]; intros urls H; [done|].
  simpl in H.
  assert (forall urls',
    (let '(us, hit) := proxy_get c artifactPath rest in
     (mirror_url proxy artifactPath :: us, hit)) = (urls', Some (url, r)) ->
    accepts_get c artifactPath proxy = false ->
    exists pre p post,
      proxy :: rest = pre ++ p :: post /\
      url = mirror_url p artifactPath /\
      client_Get c url = Some r /\ accepted r = true /\
      urls' = map (fun p => mirror_url p artifactPath) (pre ++ [p]) /\
      Forall (fun p => accepts_get c artifactPath p = false) pre) as Hcont.
  { intros urls' Heq Hrej.
    destruct (proxy_get c artifactPath rest) as [us hit].
    injection Heq as <- ->.
    destruct (IH us eq_refl) as (pre & p & post & -> & Hu & Hc & Ha & -> & Hall).
    exists (proxy :: pre), p, post. repeat split; try done. by constructor. }
  unfold accepts_get, accepted in Hcont.
  destruct (client_Get c (mirror_url proxy artifactPath)) as [r0|] eqn:Hget;
    [|by apply Hcont].
  destruct (StatusCode r0 =? 200) eqn:Hst; [|by apply Hcont].
  destruct (strings.HasPrefix (ContentType r0) "text/html") eqn:Hhtml;
    [by apply Hcont|].
  injection H as <- <- <-.
  exists [], proxy, rest. unfold accepted. rewrite Hst, Hhtml.
  repeat split; try done.
Qed.

Lemma proxy_get_miss c artifactPath proxies urls :
  proxy_get c artifactPath proxies = (urls, None) ->
  urls = map (fun p => mirror_url p artifactPath) proxies /\
  Forall (fun p => accepts_get c artifactPath p = false) proxies.
Proof.
  revert urls. induction proxies as [|proxy rest IH]; intros urls H; simpl in H.
  { injection H as <-. by split. }
  assert (forall urls',
    (let '(us, hit) := proxy_get c artifactPath rest in
     (mirror_url proxy artifactPath :: us, hit)) = (urls', None) ->
    accepts_get c artifactPath proxy = false ->
    urls' = map (fun p => mirror_url p artifactPath) (proxy :: rest) /\
    Forall (fun p => accepts_get c artifactPath p = false) (proxy :: rest))
    as Hcont.
  { intros urls' Heq Hrej.
    destruct (proxy_get c artifactPath rest) as [us hit].
    injection Heq as <- ->. destruct (IH us eq_refl) as [-> Hall].
    split; [done|by constructor]. }
  unfold accepts_get, accepted in Hcont.
  destruct (client_Get c (mirror_url proxy artifactPath)) as [r0|] eqn:Hget;
    [|by apply Hcont].
  destruct (StatusCode r0 =? 200) eqn:Hst; [|by apply Hcont].
  destruct (strings.HasPrefix (ContentType r0) "text/html") eqn:Hhtml;
    [by apply Hcont|done].
Qed.

(** X1. The GET handlers ask the mirrors in the configured order and stop
    at the first one that answers 200 with a content type other than HTML:
    the mirrors before it were all asked and refused, none after it is
    asked; when no mirror is accepted, each was asked once, in order. *)
Theorem proxy_get_first_accepted c artifactPath proxies :
  match proxy_get c artifactPath proxies with
  | (urls, Some (url, r)) =>
      exists pre proxy post,
        proxies = pre ++ proxy :: post /\
        url = mirror_url proxy artifactPath /\
        client_Get c url = Some r /\ accepted r = true /\
        urls = map (fun p => mirror_url p artifactPath) (pre ++ [proxy]) /\
        Forall (fun p => accepts_get c artifactPath p = false) pre
  | (urls, None) =>
      urls = map (fun p => mirror_url p artifactPath) proxies /\
      Forall (fun p => accepts_get c artifactPath p = false) proxies
  end.
Proof.
  destruct (proxy_get c artifactPath proxies) as [urls [[url r]|]] eqn:H.
  - by apply proxy_get_hit.
  - by apply proxy_get_miss.
Qed.

Lemma proxy_head_spec c path proxies :
  match proxy_head c path proxies with
  | (urls, true) =>
      exists pre proxy post,
        proxies = pre ++ proxy :: post /\
        accepts_head c path proxy = true /\
        urls = map (fun p => mirror_url p path) (pre ++ [proxy]) /\
        Forall (fun p => accepts_head c path p = false) pre
  | (urls, false) =>
      urls = map (fun p => mirror_url p path) proxies /\
      Forall (fun p => accepts_head c path p = false) proxies
  end.
Proof.
  induction proxies as [|proxy rest IH]; simpl; [by split|].
  destruct (proxy_head c path rest) as [us hit].
  destruct (accepts_head c path proxy) eqn:Hacc; unfold accepts_head in Hacc;
    destruct (client_Head c (mirror_url proxy path)) as [r0|] eqn:Hh;
    try discriminate; try rewrite Hacc.
  - exists [], proxy, rest. unfold accepts_head. rewrite Hh.
    repeat split; try done.
  - assert (accepts_head c path proxy = false) as Hrej
      by (unfold accepts_head; by rewrite Hh).
    destruct hit.
    + destruct IH as (pre & p & post & -> & Ha & -> & Hall).
      exists (proxy :: pre), p, post. repeat split; try done. by constructor.
    + destruct IH as [-> Hall]. split; [done|by constructor].
  - assert (accepts_head c path proxy = false) as Hrej
      by (unfold accepts_head; by rewrite Hh).
    destruct hit.
    + destruct IH as (pre & p & post & -> & Ha & -> & Hall).
      exists (proxy :: pre), p, post. repeat split; try done. by constructor.
    + destruct IH as [-> Hall]. split; [done|by constructor].
Qed.

End mirrors.

Section cache_fill.

Import config storage handler.

(** X2. The direct GET handler starts a [Store.Save] only for a mirror
    answer it accepted: whenever a path is saved, it is the request path
    and the only one, and the response relays a mirror's answer that had
    status 200 and a content type not starting with [text/html], for the
    artifact path of the request.  An HTML answer is never cached. *)
Theorem HandleDownload_saves_only_accepted h urlPath p :
  p ∈ saved (HandleDownload h urlPath) ->
  let path := strings.TrimPrefix urlPath "/" in
  saved (HandleDownload h urlPath) = [path] /\
  exists proxy r,
    proxy ∈ ProxyURLs (Config h) /\
    client_Get (Client h) (mirror_url proxy (artifactPathOf path)) = Some r /\
    StatusCode r = 200 /\
    strings.HasPrefix (ContentType r) "text/html" = false /\
    resp (HandleDownload h urlPath)
    = Data 200 (ContentLength r) (ContentType r)
           (FromUpstream (mirror_url proxy (artifactPathOf path))).
Proof.
  intros Hin path. revert Hin. unfold HandleDownload. fold path.
  destruct (List (Store h) path) as [entries err].
  destruct (Get (Store h) path) as [[reader found] err'].
  assert (forall x, p ∈ saved (local x) -> False) as Hlocal
    by (intros x Hx; by apply elem_of_nil in Hx).
  destruct err as [msg|]; [|destruct entries as [es|]];
    try (intros Hin; by destruct (Hlocal _ Hin)).
  all: destruct (is_nil err' && found);
    try (intros Hin; by destruct (Hlocal _ Hin)).
  all: destruct (0 <? length (ProxyURLs (Config h)))%nat;
    [|simpl; intros Hin; by apply elem_of_nil in Hin].
  all: destruct (proxy_get _ _ _) as [urls [[url r]|]] eqn:Hpg; simpl;
    [|intros Hin; by apply elem_of_nil in Hin].
  all: intros _; split; [done|].
  all: destruct (proxy_get_hit _ _ _ _ _ _ Hpg)
         as (pre & proxy & post & Hp & -> & Hget & Hacc & _ & _).
  all: apply andb_true_iff in Hacc as [Hst Hhtml].
  all: apply Z.eqb_eq in Hst; apply negb_true_iff in Hhtml.
  all: exists proxy, r; repeat split; try done.
  all: rewrite Hp; apply elem_of_app; right; apply list_elem_of_here.
Qed.

Lemma HandleDownload_saves_only_accepted_witness :
  let h := fixtures.maven_handler ["https://repo.example/maven2/"] in
  let urlPath := "/repository/dev/com/ex/c/1.0/c.jar" in
  let path := strings.TrimPrefix urlPath "/" in
  saved (HandleDownload h urlPath) = [path] /\
  exists proxy r,
    proxy ∈ ProxyURLs (Config h) /\
    client_Get (Client h) (mirror_url proxy (artifactPathOf path)) = Some r /\
    StatusCode r = 200 /\
    strings.HasPrefix (ContentType r) "text/html" = false /\
    resp (HandleDownload h urlPath)
    = Data 200 (ContentLength r) (ContentType r)
           (FromUpstream (mirror_url proxy (artifactPathOf path))).
Proof.
  apply (HandleDownload_saves_only_accepted
           (fixtures.maven_handler ["https://repo.example/maven2/"])
           "/repository/dev/com/ex/c/1.0/c.jar"
           "repository/dev/com/ex/c/1.0/c.jar").
  vm_compute. apply list_elem_of_here.
Defined.

(** X3. The aggregate GET handler likewise saves only an accepted mirror
    answer, fetched for the artifact path as it stands, and always under
    [repository/maven-public/], whatever base path the handler was built
    with. *)
Theorem HandleAggregateDownload_saves_only_accepted h basePath pathParam p :
  p ∈ saved (HandleAggregateDownload h basePath pathParam) ->
  let artifactPath := strings.TrimPrefix pathParam "/" in
  saved (HandleAggregateDownload h basePath pathParam)
  = ["repository/maven-public/" +:+ artifactPath] /\
  exists proxy r,
    proxy ∈ ProxyURLs (Config h) /\
    client_Get (Client h) (mirror_url proxy artifactPath) = Some r /\
    StatusCode r = 200 /\
    strings.HasPrefix (ContentType r) "text/html" = false /\
    resp (HandleAggregateDownload h basePath pathParam)
    = Data 200 (ContentLength r) (ContentType r)
           (FromUpstream (mirror_url proxy artifactPath)).
Proof.
  intros Hin artifactPath. revert Hin. unfold HandleAggregateDownload.
  fold artifactPath.
  destruct (collect_entries h _ artifactPath) as [allEntries foundDir].
  destruct foundDir; [simpl; intros Hin; by apply elem_of_nil in Hin|].
  destruct (first_found h _ artifactPath);
    [simpl; intros Hin; by apply elem_of_nil in Hin|].
  destruct (0 <? length (ProxyURLs (Config h)))%nat;
    [|simpl; intros Hin; by apply elem_of_nil in Hin].
  destruct (proxy_get _ _ _) as [urls [[url r]|]] eqn:Hpg; simpl;
    [|intros Hin; by apply elem_of_nil in Hin].
  intros _. split; [done|].
  destruct (proxy_get_hit _ _ _ _ _ _ Hpg)
    as (pre & proxy & post & Hp & -> & Hget & Hacc & _ & _).
  apply andb_true_iff in Hacc as [Hst Hhtml].
  apply Z.eqb_eq in Hst. apply negb_true_iff in Hhtml.
  exists proxy, r. repeat split; try done.
  rewrite Hp. apply elem_of_app. right. apply list_elem_of_here.
Qed.

Lemma HandleAggregateDownload_saves_only_accepted_witness :
  let h := fixtures.maven_handler ["https://repo.example/maven2/"] in
  let artifactPath := strings.TrimPrefix "/com/ex/c/1.0/c.jar" "/" in
  saved (HandleAggregateDownload h "repository" "/com/ex/c/1.0/c.jar")
  = ["repository/maven-public/" +:+ artifactPath] /\
  exists proxy r,
    proxy ∈ ProxyURLs (Config h) /\
    client_Get (Client h) (mirror_url proxy artifactPath) = Some r /\
    StatusCode r = 200 /\
    strings.HasPrefix (ContentType r) "text/html" = false /\
    resp (HandleAggregateDownload h "repository" "/com/ex/c/1.0/c.jar")
    = Data 200 (ContentLength r) (ContentType r)
           (FromUpstream (mirror_url proxy artifactPath)).
Proof.
  apply (HandleAggregateDownload_saves_only_accepted
           (fixtures.maven_handler ["https://repo.example/maven2/"])
           "repository" "/com/ex/c/1.0/c.jar"
           "repository/maven-public/com/ex/c/1.0/c.jar").
  vm_compute. apply list_elem_of_here.
Defined.

End cache_fill.

Section head_handlers.

Import config storage handler.

Lemma proxy_head_hit_iff c path proxies :
  (proxy_head c path proxies).2 = true <->
  exists proxy, proxy ∈ proxies /\ accepts_head c path proxy = true.
Proof.
  pose proof (proxy_head_spec c path proxies) as H.
  destruct (proxy_head c path proxies) as [urls [|]]; simpl.
  - destruct H as (pre & proxy & post & -> & Hacc & _). split; [|done].
    intros _. exists proxy. split; [|done].
    apply elem_of_app. right. apply list_elem_of_here.
  - destruct H as [_ Hall]. split; [done|]. intros (proxy & Hin & Hacc).
    rewrite Forall_forall in Hall. rewrite (Hall _ Hin) in Hacc. done.
Qed.

(** X4. The direct HEAD handler answers 200 exactly when the store has the
    request path or some configured mirror answers 200 to a HEAD for it,
    whatever the content type of that answer: HEAD does not filter HTML.
    Otherwise it answers 500 when the local probe had failed with an
    error, and 404 when it had not. *)
Theorem HandleHead_status h urlPath :
  let path := strings.TrimPrefix urlPath "/" in
  let ok := head_found h path = true \/
            exists proxy, proxy ∈ ProxyURLs (Config h) /\
                          accepts_head (Client h) path proxy = true in
  (resp (HandleHead h urlPath) = Status 200 <-> ok) /\
  (resp (HandleHead h urlPath) = Status 500 <->
   ~ ok /\ (Head (Store h) path).2 <> None) /\
  (resp (HandleHead h urlPath) = Status 404 <->
   ~ ok /\ (Head (Store h) path).2 = None).
Proof.
  intros path ok. subst ok. unfold HandleHead, head_found. fold path.
  destruct (Head (Store h) path) as [found err]. simpl.
  destruct (is_nil err && found) eqn:Hlocal; simpl.
  { split; [|split].
    - split; [intros _; by left|done].
    - split; [done|]. intros [Hno _]. destruct Hno. by left.
    - split; [done|]. intros [Hno _]. destruct Hno. by left. }
  assert ((if (0 <? length (ProxyURLs (Config h)))%nat
           then proxy_head (Client h) path (ProxyURLs (Config h))
           else ([], false)).2 = true <->
          exists proxy, proxy ∈ ProxyURLs (Config h) /\
                        accepts_head (Client h) path proxy = true) as Hhit.
  { destruct (ProxyURLs (Config h)) as [|p ps] eqn:Hp; simpl (0 <? _)%nat; cbv iota.
    - simpl. split; [done|]. intros (proxy & Hin & _).
      by apply elem_of_nil in Hin.
    - apply proxy_head_hit_iff. }
  destruct (if (0 <? length (ProxyURLs (Config h)))%nat then _ else _)
    as [urls hit]. simpl in *.
  destruct hit.
  - assert (exists proxy, proxy ∈ ProxyURLs (Config h) /\
                          accepts_head (Client h) path proxy = true) as Hex
      by by apply Hhit.
    split; [|split].
    + split; [intros _; by right|done].
    + split; [done|]. intros [Hno _]. destruct Hno. by right.
    + split; [done|]. intros [Hno _]. destruct Hno. by right.
  - assert (~ (false = true \/
               exists proxy, proxy ∈ ProxyURLs (Config h) /\
                             accepts_head (Client h) path proxy = true)) as Hno.
    { intros [?|Hex]; [done|]. apply Hhit in Hex. done. }
    destruct err as [msg|].
    + split; [|split].
      * split; [done|]. intros Hok. by destruct Hno.
      * split; [done|]. intros _. done.
      * split; [done|]. intros [_ ?]. done.
    + split; [|split].
      * split; [done|]. intros Hok. by destruct Hno.
      * split; [done|]. intros [_ ?]. done.
      * split; [done|]. intros _. done.
Qed.

Lemma first_head_iff h repos artifactPath :
  first_head h repos artifactPath = true <->
  exists repo, repo ∈ repos /\
    head_found h (strings.TrimRight repo "/" +:+ "/" +:+ artifactPath) = true.
Proof.
  induction repos as [|repo rest IH]; simpl.
  - split; [done|]. intros (repo & Hin & _). by apply elem_of_nil in Hin.
  - unfold head_found at 1.
    destruct (Head (Store h) _) as [found err] eqn:Hh.
    destruct (is_nil err && found) eqn:Hf.
    + split; [|done]. intros _. exists repo. split; [apply list_elem_of_here|].
      unfold head_found. by rewrite Hh.
    + rewrite IH. split.
      * intros (r & Hin & Hr). exists r. split; [by apply list_elem_of_further|done].
      * intros (r & [->|Hin]%elem_of_cons & Hr).
        { unfold head_found in Hr. rewrite Hh in Hr. congruence. }
        by exists r.
Qed.

(** X5. The aggregate HEAD handler answers 200 exactly when the store has
    the artifact path in one of the repositories of [getAggregateRepos] or
    some mirror answers 200 to a HEAD for the artifact path itself, and 404
    otherwise; it never answers 500, never starts a save, and every
    request it makes to a mirror is a HEAD for the artifact path. *)
Theorem HandleAggregateHead_status h basePath pathParam :
  let artifactPath := strings.TrimPrefix pathParam "/" in
  let ok :=
    (exists repo, repo ∈ getAggregateRepos h basePath /\
       head_found h (strings.TrimRight repo "/" +:+ "/" +:+ artifactPath)
       = true) \/
    (exists proxy, proxy ∈ ProxyURLs (Config h) /\
                   accepts_head (Client h) artifactPath proxy = true) in
  (resp (HandleAggregateHead h basePath pathParam) = Status 200 <-> ok) /\
  (resp (HandleAggregateHead h basePath pathParam) = Status 404 <-> ~ ok) /\
  saved (HandleAggregateHead h basePath pathParam) = [] /\
  (forall m url,
     (m, url) ∈ upstream (HandleAggregateHead h basePath pathParam) ->
     m = HEAD /\ exists proxy, proxy ∈ ProxyURLs (Config h) /\
                               url = mirror_url proxy artifactPath).
Proof.
  intros artifactPath ok. subst ok. unfold HandleAggregateHead.
  fold artifactPath.
  pose proof (first_head_iff h (getAggregateRepos h basePath) artifactPath)
    as Hlocal.
  destruct (first_head h _ artifactPath); simpl.
  { assert (exists repo, repo ∈ getAggregateRepos h basePath /\
              head_found h (strings.TrimRight repo "/" +:+ "/" +:+ artifactPath)
              = true) as Hex by by apply Hlocal.
    split; [|split; [|split]]; try done.
    - split; [by left|done].
    - split; [done|]. intros Hno. destruct Hno. by left.
    - intros m url Hin. by apply elem_of_nil in Hin. }
  assert (~ exists repo, repo ∈ getAggregateRepos h basePath /\
              head_found h (strings.TrimRight repo "/" +:+ "/" +:+ artifactPath)
              = true) as Hnolocal.
  { intros Hex. apply Hlocal in Hex. done. }
  pose proof (proxy_head_urls (Client h) artifactPath (ProxyURLs (Config h)))
    as Hurls.
  assert ((if (0 <? length (ProxyURLs (Config h)))%nat
           then proxy_head (Client h) artifactPath (ProxyURLs (Config h))
           else ([], false)).2 = true <->
          exists proxy, proxy ∈ ProxyURLs (Config h) /\
                        accepts_head (Client h) artifactPath proxy = true)
    as Hhit.
  { destruct (ProxyURLs (Config h)) as [|p ps] eqn:Hp; simpl (0 <? _)%nat; cbv iota.
    - simpl. split; [done|]. intros (proxy & Hin & _).
      by apply elem_of_nil in Hin.
    - apply proxy_head_hit_iff. }
  assert (forall url,
    url ∈ (if (0 <? length (ProxyURLs (Config h)))%nat
           then proxy_head (Client h) artifactPath (ProxyURLs (Config h))
           else ([], false)).1 ->
    exists proxy, proxy ∈ ProxyURLs (Config h) /\
                  url = mirror_url proxy artifactPath) as Hreq.
  { intros url. destruct (0 <? length (ProxyURLs (Config h)))%nat.
    - apply Hurls.
    - simpl. intros Hin. by apply elem_of_nil in Hin. }
  destruct (if (0 <? length (ProxyURLs (Config h)))%nat then _ else _)
    as [urls hit]. simpl in *.
  split; [|split; [|split]]; try done.
  - destruct hit.
    + split; [|done]. intros _. right. by apply Hhit.
    + split; [done|]. intros [Hex|Hex]; [by destruct Hnolocal|].
      apply Hhit in Hex. done.
  - destruct hit.
    + split; [done|]. intros Hno. destruct Hno. right. by apply Hhit.
    + split; [|done]. intros _ [Hex|Hex]; [by destruct Hnolocal|].
      apply Hhit in Hex. done.
  - intros m url Hin. unfold requests in Hin.
    apply list_elem_of_In, in_map_iff in Hin as (u & [= <- <-] & Hu).
    split; [done|]. by apply Hreq, list_elem_of_In.
Qed.

End head_handlers.

Section aggregate_precedence.

Import config storage handler.

Lemma collect_entries_found_loop h artifactPath : forall repos allEntries foundDir,
  (foldl (fun '(allEntries, foundDir) repo =>
            let fullPath := strings.TrimRight repo "/" +:+ "/" +:+ artifactPath in
            match List (Store h) fullPath with
            | (Some entries, None) => (allEntries ++ entries, true)
            | _ => (allEntries, foundDir)
            end)
         (allEntries, foundDir) repos).2 = true <->
  foundDir = true \/
  exists repo es, repo ∈ repos /\
    List (Store h) (strings.TrimRight repo "/" +:+ "/" +:+ artifactPath)
    = (Some es, None).
Proof.
  induction repos as [|repo repos IH]; intros allEntries foundDir; simpl.
  - split; [by left|]. intros [?|(r & es & Hin & _)]; [done|].
    by apply elem_of_nil in Hin.
  - destruct (List (Store h) _) as [[entries|] [msg|]] eqn:HL; rewrite IH.
    all: split; intros [Hf|(r & es & Hin & Hr)]; try (by left).
    all: try (right; exists r, es; split;
              [by apply list_elem_of_further|done]).
    all: try (right; exists repo, entries; split;
              [apply list_elem_of_here|done]).
    all: apply elem_of_cons in Hin as [->|Hin];
      [rewrite HL in Hr; try discriminate|].
    all: try (right; by exists r, es).
    all: try (by left).
Qed.

Lemma first_found_spec h repos artifactPath :
  match first_found h repos artifactPath with
  | Some reader =>
      exists pre repo post,
        repos = pre ++ repo :: post /\
        Get (Store h) (strings.TrimRight repo "/" +:+ "/" +:+ artifactPath)
        = (reader, true, None) /\
        Forall (fun q =>
                  forall r, Get (Store h) (strings.TrimRight q "/" +:+ "/"
                                           +:+ artifactPath)
                            <> (r, true, None)) pre
  | None =>
      Forall (fun q =>
                forall r, Get (Store h) (strings.TrimRight q "/" +:+ "/"
                                         +:+ artifactPath)
                          <> (r, true, None)) repos
  end.
Proof.
  induction repos as [|repo rest IH]; simpl; [constructor|].
  destruct (Get (Store h) _) as [[reader found] err] eqn:HG.
  destruct (is_nil err && found) eqn:Hf.
  - destruct err, found; try discriminate.
    exists [], repo, rest. repeat split; try done.
  - assert (forall r, Get (Store h) (strings.TrimRight repo "/" +:+ "/"
                                     +:+ artifactPath)
                      <> (r, true, None)) as Hnot.
    { intros r. rewrite HG. destruct err, found; simpl in Hf; congruence. }
    destruct (first_found h rest artifactPath) as [rd|].
    + destruct IH as (pre & q & post & -> & Hq & Hall).
      exists (repo :: pre), q, post. repeat split; try done. by constructor.
    + by constructor.
Qed.

Lemma first_found_first h pre repo post artifactPath reader :
  Forall (fun q =>
            forall r, Get (Store h) (strings.TrimRight q "/" +:+ "/"
                                     +:+ artifactPath)
                      <> (r, true, None)) pre ->
  Get (Store h) (strings.TrimRight repo "/" +:+ "/" +:+ artifactPath)
  = (reader, true, None) ->
  first_found h (pre ++ repo :: post) artifactPath = Some reader.
Proof.
  intros Hpre Hrepo. induction Hpre as [|q pre Hq _ IH]; simpl.
  - by rewrite Hrepo.
  - destruct (Get (Store h) _) as [[r found] err] eqn:HG.
    destruct err, found; simpl; try done. by destruct (Hq r).
Qed.

Lemma first_occurrence (l : list Entry) e :
  e ∈ l ->
  exists l1 e' l2, l = l1 ++ e' :: l2 /\ Name e' = Name e /\
                   (Name e' ∉ map Name l1).
Proof.
  induction l as [|x l IH]; [by intros ?%elem_of_nil|].
  intros Hin. destruct (decide (Name x = Name e)) as [Heq|Hne].
  - exists [], x, l. repeat split; try done. simpl. apply not_elem_of_nil.
  - apply elem_of_cons in Hin as [->|Hin]; [done|].
    destruct (IH Hin) as (l1 & e' & l2 & -> & Hn & Hfresh).
    exists (x :: l1), e', l2. repeat split; try done. simpl.
    apply not_elem_of_cons. split; [congruence|done].
Qed.

(** X6. In the aggregate GET a directory takes precedence over files, in
    whatever repository: as soon as one repository of [getAggregateRepos]
    lists the artifact path with entries, the answer is the aggregated
    index, made without asking a mirror or saving anything, and every name
    of that listing appears in it. *)
Theorem aggregate_directory_hides_files h basePath pathParam repo es :
  let artifactPath := strings.TrimPrefix pathParam "/" in
  repo ∈ getAggregateRepos h basePath ->
  List (Store h) (strings.TrimRight repo "/" +:+ "/" +:+ artifactPath)
  = (Some es, None) ->
  exists items,
    HandleAggregateDownload h basePath pathParam
    = local (Index ("Index of /repository/maven-public/" +:+ artifactPath
                    +:+ " (Aggregated)") items) /\
    forall e, e ∈ es -> exists e', e' ∈ items /\ Name e' = Name e.
Proof.
  intros artifactPath Hrepo HL. unfold HandleAggregateDownload.
  fold artifactPath.
  pose proof (collect_entries_concat h (getAggregateRepos h basePath)
                artifactPath) as Hall.
  assert ((collect_entries h (getAggregateRepos h basePath) artifactPath).2
          = true) as Hfound.
  { unfold collect_entries. apply collect_entries_found_loop.
    right. by exists repo, es. }
  destruct (collect_entries h _ artifactPath) as [allEntries foundDir].
  simpl in Hall, Hfound. subst foundDir allEntries.
  eexists. split; [reflexivity|].
  intros e He.
  assert (e ∈ concat (map (listing h artifactPath)
                          (getAggregateRepos h basePath))) as Hin.
  { apply list_elem_of_In, in_concat. exists es. split.
    - apply in_map_iff. exists repo. split; [|by apply list_elem_of_In].
      unfold listing. by rewrite HL.
    - by apply list_elem_of_In. }
  destruct (first_occurrence _ _ Hin) as (l1 & e' & l2 & Heq & Hn & Hfresh).
  exists e'. split; [|done]. apply render_dedup_elem.
  exists l1, l2. by rewrite lookup_empty.
Qed.

Lemma aggregate_directory_hides_files_witness :
  let h := fixtures.maven_handler ["https://repo.example/maven2/"] in
  let artifactPath := strings.TrimPrefix "/com/ex/" "/" in
  exists items,
    HandleAggregateDownload h "repository" "/com/ex/"
    = local (Index ("Index of /repository/maven-public/" +:+ artifactPath
                    +:+ " (Aggregated)") items) /\
    forall e, e ∈ [ {| Name := "a.jar"; IsDir := false; Size := 5;
                       ModTime := examples.now |}; fixtures.dev_b_jar ] ->
              exists e', e' ∈ items /\ Name e' = Name e.
Proof.
  apply (aggregate_directory_hides_files
           (fixtures.maven_handler ["https://repo.example/maven2/"])
           "repository" "/com/ex/" "repository/dev").
  - vm_compute. apply list_elem_of_further, list_elem_of_here.
  - vm_compute. reflexivity.
Defined.

(** X7. When no repository lists the artifact path as a directory, the
    aggregate GET serves the file from the first repository, in the order
    of [getAggregateRepos], in which [Store.Get] finds it, without asking a
    mirror: with [maven-releases] first, its file wins over the file of
    any other repository. *)
Theorem aggregate_file_from_first_repository
  h basePath pathParam pre repo post reader :
  let artifactPath := strings.TrimPrefix pathParam "/" in
  getAggregateRepos h basePath = pre ++ repo :: post ->
  (forall q es, q ∈ getAggregateRepos h basePath ->
     List (Store h) (strings.TrimRight q "/" +:+ "/" +:+ artifactPath)
     <> (Some es, None)) ->
  Forall (fun q =>
            forall r, Get (Store h) (strings.TrimRight q "/" +:+ "/"
                                     +:+ artifactPath)
                      <> (r, true, None)) pre ->
  Get (Store h) (strings.TrimRight repo "/" +:+ "/" +:+ artifactPath)
  = (reader, true, None) ->
  HandleAggregateDownload h basePath pathParam
  = local (Data 200 (-1) "application/octet-stream" (FromStore reader)).
Proof.
  intros artifactPath Hrepos Hnodir Hpre Hget. unfold HandleAggregateDownload.
  fold artifactPath.
  assert ((collect_entries h (getAggregateRepos h basePath) artifactPath).2
          = false) as Hfound.
  { destruct (collect_entries h _ artifactPath).2 eqn:E; [|done].
    unfold collect_entries in E. apply collect_entries_found_loop in E
      as [?|(q & es & Hq & HL)]; [done|]. by destruct (Hnodir q es). }
  destruct (collect_entries h _ artifactPath) as [allEntries foundDir].
  simpl in Hfound. subst foundDir.
  rewrite Hrepos. by rewrite (first_found_first _ _ _ _ _ reader).
Qed.

Lemma aggregate_file_from_first_repository_witness :
  HandleAggregateDownload (fixtures.maven_handler []) "repository" "/com/ex/b.jar"
  = local (Data 200 (-1) "application/octet-stream"
             (FromStore (Some "artifacts/repository/dev/com/ex/b.jar"))).
Proof.
  apply (aggregate_file_from_first_repository (fixtures.maven_handler [])
           "repository" "/com/ex/b.jar" ["repository/maven-releases"]
           "repository/dev" []).
  - vm_compute. reflexivity.
  - intros q es Hq. vm_compute in Hq.
    apply elem_of_cons in Hq as [->|Hq];
      [|apply elem_of_cons in Hq as [->|Hq]; [|by apply elem_of_nil in Hq]];
      by vm_compute.
  - constructor; [|constructor]. intros r. by vm_compute.
  - vm_compute. reflexivity.
Defined.

End aggregate_precedence.

(* ===================================================================== *)
(** * Further properties of the retention engine *)
(* ===================================================================== *)

Section retention_more.

Import config storage service.

Lemma StronglySorted_lookup {A} (R : A -> A -> Prop) (l : list A) i j a b :
  StronglySorted R l -> l !! i = Some a -> l !! j = Some b -> (i < j)%nat ->
  R a b.
Proof.
  intros Hs. revert i j. induction Hs as [|x l _ IH Hall]; intros i j Hi Hj Hlt.
  - done.
  - destruct j as [|j]; [lia|]. simpl in Hj. destruct i as [|i].
    + injection Hi as <-. rewrite Forall_forall in Hall. apply Hall.
      by eapply list_elem_of_lookup_2.
    + simpl in Hi. apply (IH i j); [done..|lia].
Qed.

Lemma Sub_antitone now t u : t <= u -> time.Sub now u <= time.Sub now t.
Proof.
  intros Hle. unfold time.Sub, time.maxDuration, time.minDuration.
  destruct (Z.ltb_spec (2 ^ 63 - 1) (now - u)),
           (Z.ltb_spec (2 ^ 63 - 1) (now - t)); try lia;
  destruct (Z.ltb_spec (now - u) (- 2 ^ 63)),
           (Z.ltb_spec (now - t) (- 2 ^ 63)); lia.
Qed.

(** X8. Whatever the policy, the versions [cleanupDir] deletes are the
    oldest ones: in every run the verdicts are in descending order of max
    mod-time, and once a version is deleted every version after it is
    deleted too, so the versions kept are the newest. *)
Theorem cleanupDir_deletes_oldest store cfg now dir vs i j vi vj :
  cleanupDir_run store cfg now dir (inr vs) ->
  vs !! i = Some vi -> vs !! j = Some vj -> (i < j)%nat ->
  MaxTime (v_version vj) <= MaxTime (v_version vi) /\
  (shouldDelete vi = true -> shouldDelete vj = true).
Proof.
  intros Hrun Hi Hj Hlt. inversion Hrun as [|entries out _ Hs]; subst.
  unfold judge_all in Hi, Hj. rewrite list_lookup_imap in Hi, Hj.
  destruct (out !! i) as [wi|] eqn:Hwi; [|done].
  destruct (out !! j) as [wj|] eqn:Hwj; [|done].
  injection Hi as <-. injection Hj as <-.
  rewrite !judge_version, !judge_shouldDelete.
  pose proof (StronglySorted_lookup _ _ _ _ _ _
                (sorted_versions_sorted _ _ Hs) Hwi Hwj Hlt) as Hle.
  split; [done|]. unfold expired, not_latest.
  intros [[Hk Hexp]%andb_true_iff|[Hl Hpos]%andb_true_iff]%orb_true_iff;
    apply orb_true_iff.
  - left. apply andb_true_iff. split; [done|].
    apply Z.ltb_lt in Hexp. apply Z.ltb_lt.
    pose proof (Sub_antitone now _ _ Hle). lia.
  - right. apply andb_true_iff. split; [done|].
    apply Nat.ltb_lt. lia.
Qed.

Lemma cleanupDir_deletes_oldest_witness :
  MaxTime (v_version
             {| v_version := examples.version_b; shouldDelete := true;
                reason := "not latest" |})
  <= MaxTime (v_version
                {| v_version := examples.version_a; shouldDelete := false;
                   reason := "" |}) /\
  (shouldDelete {| v_version := examples.version_a; shouldDelete := false;
                   reason := "" |} = true ->
   shouldDelete {| v_version := examples.version_b; shouldDelete := true;
                   reason := "not latest" |} = true).
Proof.
  apply (cleanupDir_deletes_oldest
           (examples.listing_store examples.snapshot_dir examples.tie_entries)
           (examples.retention 0 true) examples.now examples.snapshot_dir
           (judge_all (examples.retention 0 true) examples.now
                      [examples.version_a; examples.version_b])
           0 1).
  - eapply cleanupDir_ok; [reflexivity|].
    exists (map_to_list (group_entries examples.tie_entries)).
    split; [by unfold range_map|]. split.
    + vm_compute. first [reflexivity | apply perm_swap].
    + repeat constructor.
  - reflexivity.
  - reflexivity.
  - lia.
Defined.

(** X9. With the age rule off ([keep_days] zero or negative) and
    [keep_latest_only] off, [cleanupDir] deletes nothing: every verdict of
    every run keeps its version and no call to [Store.Delete] is made. *)
Theorem cleanupDir_no_policy_deletes_nothing store cfg now dir vs :
  SnapshotKeepDays cfg <= 0 ->
  SnapshotKeepLatestOnly cfg = false ->
  cleanupDir_run store cfg now dir (inr vs) ->
  Forall (fun v => shouldDelete v = false /\ reason v = "") vs /\
  delete_calls dir vs = [].
Proof.
  intros Hdays Hlatest Hrun. inversion Hrun as [|entries out _ _]; subst.
  assert (Forall (fun v => shouldDelete v = false /\ reason v = "")
                 (judge_all cfg now out)) as Hall.
  { apply Forall_forall. intros v Hv.
    apply elem_of_lookup_imap in Hv as (i & w & -> & _).
    unfold judge, expired, not_latest. rewrite Hlatest.
    destruct (Z.ltb_spec 0 (SnapshotKeepDays cfg)); [lia|]. done. }
  split; [done|]. unfold delete_calls. revert Hall.
  generalize (judge_all cfg now out) as l.
  induction 1 as [|v l [Hv _] _ IH]; simpl; [done|]. rewrite Hv. exact IH.
Qed.

Lemma cleanupDir_no_policy_deletes_nothing_witness :
  let vs := judge_all (examples.retention 0 false) examples.now
              (insertion_sort
                 (map mk_version
                      (map_to_list (group_entries examples.snapshot_entries)))) in
  Forall (fun v => shouldDelete v = false /\ reason v = "") vs /\
  delete_calls examples.snapshot_dir vs = [].
Proof.
  apply (cleanupDir_no_policy_deletes_nothing
           (examples.listing_store examples.snapshot_dir
                                   examples.snapshot_entries)
           (examples.retention 0 false) examples.now examples.snapshot_dir).
  - simpl. lia.
  - reflexivity.
  - assert (cleanupDir (examples.listing_store examples.snapshot_dir
                                               examples.snapshot_entries)
                       (examples.retention 0 false) examples.now
                       examples.snapshot_dir
            = inr (judge_all (examples.retention 0 false) examples.now
                     (insertion_sort
                        (map mk_version
                             (map_to_list
                                (group_entries examples.snapshot_entries))))))
      as <- by reflexivity.
    apply cleanupDir_computes.
Defined.

(** X10. The grouping loop of [cleanupDir] partitions the grouped files by
    version key: no group is empty, a group holds exactly the files whose
    [extractVersion] is its key, in listing order, and every plain file
    that is not a [maven-metadata] file is in the group of its key;
    sub-directories and metadata files are in no group. *)
Theorem group_entries_partition entries :
  (forall k files, group_entries entries !! k = Some files ->
     files <> [] /\ files = files_of k entries /\
     forall f, f ∈ files ->
       extractVersion (fi_Name f) = k /\
       exists e, e ∈ entries /\ grouped e = true /\ f = to_fileInfo e) /\
  (forall e, e ∈ entries -> grouped e = true ->
     exists files, group_entries entries !! extractVersion (Name e) = Some files
                   /\ to_fileInfo e ∈ files).
Proof.
  split.
  - intros k files Hk. destruct (group_entries_Some _ _ _ Hk) as [-> Hne].
    split; [done|]. split; [done|]. intros f Hf.
    apply elem_of_files_of in Hf as (e & He & Hg & Hkey & ->).
    split; [done|]. by exists e.
  - intros e He Hg. by apply group_of_entry.
Qed.

End retention_more.

(* ===================================================================== *)
(** * Further properties of the retention controller *)
(* ===================================================================== *)

Section controller_more.

Import config service.

Lemma run_snoc s tr e :
  run s (tr ++ [e]) = match run s tr with
                      | Some s' => step s' e
                      | None => None
                      end.
Proof.
  rewrite run_app. destruct (run s tr) as [s'|]; [|done]. simpl.
  by destruct (step s' e).
Qed.

(** X11. When snapshot cleanup is disabled [Start] returns without
    launching the loop: in every run no tick is ever received and the
    ticker never invokes [RunCleanup]; only [Pause], [Resume], [Stop] and
    the manual trigger can happen. *)
Theorem disabled_never_cleans cfg tr s :
  SnapshotCleanupEnabled cfg = false ->
  run (Start cfg) tr = Some s ->
  loop s = NotStarted /\ Forall (fun e => loop_event e = false) tr.
Proof.
  intros Hoff Hrun.
  assert (forall tr s s0, loop s0 = NotStarted -> run s0 tr = Some s ->
            loop s = NotStarted /\ Forall (fun e => loop_event e = false) tr)
    as H.
  { clear. induction tr as [|e tr IH]; intros s s0 Hl Hrun; simpl in Hrun.
    - injection Hrun as <-. by split.
    - destruct (step s0 e) as [s1|] eqn:Hstep; [|done].
      destruct s0 as [p c l]. simpl in Hl. subst l.
      assert (loop s1 = NotStarted /\ loop_event e = false) as [Hl1 He].
      { destruct e as [| |[|]| | | | | |]; simpl in Hstep;
          inversion Hstep; subst; done. }
      destruct (IH _ _ Hl1 Hrun) as [Hl' Hall]. split; [done|by constructor]. }
  eapply H; [|exact Hrun]. unfold Start. by rewrite Hoff.
Qed.

Lemma disabled_never_cleans_witness :
  loop {| Paused := true; cancelled := false; loop := NotStarted |} = NotStarted
  /\ Forall (fun e => loop_event e = false)
            [EvPause; EvRunCleanup Manual].
Proof.
  apply (disabled_never_cleans
           {| ProxyURLs := []; SnapshotCleanupEnabled := false;
              SnapshotCleanupInterval := "1h"; SnapshotKeepDays := 30;
              SnapshotKeepLatestOnly := false |}
           [EvPause; EvRunCleanup Manual]).
  - reflexivity.
  - reflexivity.
Defined.

Lemma run_stays_cleaning tr : forall s s',
  loop s = Cleaning -> run s tr = Some s' -> EvCleanupDone ∉ tr ->
  loop s' = Cleaning /\ EvRunCleanup Ticker ∉ tr.
Proof.
  induction tr as [|e tr IH]; intros s s' Hl Hrun Hno; simpl in Hrun.
  - injection Hrun as <-. split; [done|apply not_elem_of_nil].
  - apply not_elem_of_cons in Hno as [Hne Hno].
    destruct (step s e) as [s1|] eqn:Hstep; [|done].
    destruct s as [p c l]. simpl in Hl. subst l.
    assert (loop s1 = Cleaning /\ e <> EvRunCleanup Ticker) as [Hl1 He].
    { destruct e as [| |[|]| | | | | |]; simpl in Hstep;
        inversion Hstep; subst; done. }
    destruct (IH _ _ Hl1 Hrun Hno) as [Hl' Hnot].
    split; [done|]. apply not_elem_of_cons. done.
Qed.

(** X12. The cleanups started by the ticker never overlap: in every run,
    between two invocations of [RunCleanup] by the loop the first one has
    returned.  (A manual trigger runs on a goroutine of its own and may
    overlap with either.) *)
Theorem ticker_cleanups_do_not_overlap cfg tr s t1 t2 t3 :
  run (Start cfg) tr = Some s ->
  tr = t1 ++ EvRunCleanup Ticker :: t2 ++ EvRunCleanup Ticker :: t3 ->
  EvCleanupDone ∈ t2.
Proof.
  intros Hrun ->. rewrite run_app in Hrun.
  destruct (run (Start cfg) t1) as [s1|]; [|done]. cbn [run] in Hrun.
  destruct (step s1 (EvRunCleanup Ticker)) as [s2|] eqn:Hstep; [|done].
  assert (loop s2 = Cleaning) as Hl2.
  { destruct s1 as [p c l]; destruct l as [| | |[|]| |];
      simpl in Hstep; inversion Hstep; done. }
  rewrite run_app in Hrun.
  destruct (run s2 t2) as [s3|] eqn:Hrun2; [|done]. cbn [run] in Hrun.
  destruct (step s3 (EvRunCleanup Ticker)) as [s4|] eqn:Hstep3; [|done].
  destruct (decide (EvCleanupDone ∈ t2)) as [|Hno]; [done|exfalso].
  destruct (run_stays_cleaning _ _ _ Hl2 Hrun2 Hno) as [Hl3 _].
  destruct s3 as [p c l]. simpl in Hl3. subst l. simpl in Hstep3. done.
Qed.

Lemma ticker_cleanups_do_not_overlap_witness :
  EvCleanupDone ∈ [EvRunCleanup Manual; EvCleanupDone; EvTick; EvReadPaused].
Proof.
  apply (ticker_cleanups_do_not_overlap (examples.retention 30 false)
           ([EvTick; EvReadPaused] ++ EvRunCleanup Ticker
            :: [EvRunCleanup Manual; EvCleanupDone; EvTick; EvReadPaused]
            ++ EvRunCleanup Ticker :: [])
           {| Paused := false; cancelled := false; loop := Cleaning |}
           [EvTick; EvReadPaused]
           [EvRunCleanup Manual; EvCleanupDone; EvTick; EvReadPaused] []).
  - reflexivity.
  - reflexivity.
Defined.

Lemma step_paused_after s e s' :
  step s e = Some s' -> Paused s' = paused_after (Paused s) [e].
Proof.
  intros Hstep. destruct s as [p c l].
  destruct e as [| |[|]| | | | | |], l as [| | |[|]| |], c;
    simpl in Hstep; inversion Hstep; subst; done.
Qed.

(** X13. The flag [Paused] is changed by [Pause()] and [Resume()] only:
    after any run the flag is what the last of these calls left, and false
    when there was none; neither the loop, nor [Stop()], nor a manual
    trigger touches it, and [Status()] reports it. *)
Theorem status_follows_pause_resume cfg tr s :
  run (Start cfg) tr = Some s ->
  Paused s = paused_after false tr /\
  Status s = if paused_after false tr then "paused" else "running".
Proof.
  intros Hrun.
  assert (forall tr s0 s, run s0 tr = Some s ->
            Paused s = paused_after (Paused s0) tr) as H.
  { clear. induction tr as [|e tr IH]; intros s0 s Hrun; simpl in Hrun.
    - by injection Hrun as <-.
    - destruct (step s0 e) as [s1|] eqn:Hstep; [|done].
      rewrite (IH _ _ Hrun), (step_paused_after _ _ _ Hstep). done. }
  apply H in Hrun. simpl in Hrun. split; [done|].
  unfold Status. by rewrite Hrun.
Qed.

Lemma status_follows_pause_resume_witness :
  Paused {| Paused := false; cancelled := true; loop := Ticked |}
  = paused_after false [EvPause; EvTick; EvStop; EvResume] /\
  Status {| Paused := false; cancelled := true; loop := Ticked |}
  = if paused_after false [EvPause; EvTick; EvStop; EvResume]
    then "paused" else "running".
Proof.
  apply (status_follows_pause_resume (examples.retention 30 false)
           [EvPause; EvTick; EvStop; EvResume]).
  reflexivity.
Defined.

Lemma run_exited tr : forall s s',
  loop s = Exited -> run s tr = Some s' ->
  loop s' = Exited /\ Forall (fun e => loop_event e = false) tr.
Proof.
  induction tr as [|e tr IH]; intros s s' Hl Hrun; simpl in Hrun.
  - injection Hrun as <-. by split.
  - destruct (step s e) as [s1|] eqn:Hstep; [|done].
    destruct s as [p c l]. simpl in Hl. subst l.
    assert (loop s1 = Exited /\ loop_event e = false) as [Hl1 He].
    { destruct e as [| |[|]| | | | | |]; simpl in Hstep;
        inversion Hstep; subst; done. }
    destruct (IH _ _ Hl1 Hrun) as [Hl' Hall]. split; [done|by constructor].
Qed.

Lemma run_cancelled tr : forall s s',
  run s tr = Some s' -> cancelled s' = true ->
  cancelled s = true \/ EvStop ∈ tr.
Proof.
  induction tr as [|e tr IH]; intros s s' Hrun Hc; simpl in Hrun.
  - injection Hrun as <-. by left.
  - destruct (step s e) as [s1|] eqn:Hstep; [|done].
    destruct (IH _ _ Hrun Hc) as [Hc1|Hin];
      [|right; by apply list_elem_of_further].
    destruct (decide (e = EvStop)) as [->|Hne];
      [right; apply list_elem_of_here|left].
    destruct s as [p c l].
    destruct e as [| |[|]| | | | | |], l as [| | |[|]| |], c;
      simpl in Hstep; inversion Hstep; subst; done.
Qed.

(** X14. The loop ends only on [Stop()], and only from its [select]: in
    every run an exit of the loop is preceded by a call to [Stop()], the
    [RunCleanup] the loop was in, if any, has returned before the exit,
    and after the exit the loop takes no further step (no tick, no
    cleanup by the ticker). *)
Theorem loop_exits_only_after_stop cfg tr s t1 t2 :
  run (Start cfg) tr = Some s ->
  tr = t1 ++ EvExit :: t2 ->
  EvStop ∈ t1 /\
  (exists s1, run (Start cfg) t1 = Some s1 /\ loop s1 = Selecting) /\
  loop s = Exited /\
  Forall (fun e => loop_event e = false) t2.
Proof.
  intros Hrun ->. rewrite run_app in Hrun.
  destruct (run (Start cfg) t1) as [s1|] eqn:Hrun1; [|done]. cbn [run] in Hrun.
  destruct (step s1 EvExit) as [s2|] eqn:Hstep; [|done].
  assert (loop s1 = Selecting /\ cancelled s1 = true /\ loop s2 = Exited)
    as (Hsel & Hc & Hex).
  { destruct s1 as [p c l]; destruct l as [| | |[|]| |], c;
      simpl in Hstep; inversion Hstep; done. }
  destruct (run_exited _ _ _ Hex Hrun) as [Hl Hall].
  split; [|split; [by exists s1|split; done]].
  destruct (run_cancelled _ _ _ Hrun1 Hc) as [Hc0|Hin]; [|done].
  unfold Start in Hc0. simpl in Hc0. done.
Qed.

Lemma loop_exits_only_after_stop_witness :
  EvStop ∈ [EvTick; EvReadPaused; EvRunCleanup Ticker; EvStop; EvCleanupDone]
  /\
  (exists s1,
     run (Start (examples.retention 30 false))
         [EvTick; EvReadPaused; EvRunCleanup Ticker; EvStop; EvCleanupDone]
     = Some s1 /\ loop s1 = Selecting) /\
  loop {| Paused := true; cancelled := true; loop := Exited |} = Exited /\
  Forall (fun e => loop_event e = false) [EvPause].
Proof.
  apply (loop_exits_only_after_stop (examples.retention 30 false)
           ([EvTick; EvReadPaused; EvRunCleanup Ticker; EvStop; EvCleanupDone]
            ++ EvExit :: [EvPause])).
  - reflexivity.
  - reflexivity.
Defined.

End controller_more.

(* ===================================================================== *)
(** * Further properties of the store, the walk and the router *)
(* ===================================================================== *)

Section local_list.

Import storage.

Lemma List_loop_omap fs fullPath names : forall result : slice Entry,
  foldl (fun result name =>
           match entry_info fs fullPath name with
           | None => result
           | Some e => append result e
           end) result names
  = match omap (entry_info fs fullPath) names with
    | [] => result
    | l => Some (elems result ++ l)
    end.
Proof.
  induction names as [|name names IH]; intros result; simpl; [done|].
  rewrite IH. destruct (entry_info fs fullPath name) as [e|]; simpl; [|done].
  unfold append. simpl.
  change (list_omap string Entry (entry_info fs fullPath) names)
    with (omap (entry_info fs fullPath) names).
  destruct (omap (entry_info fs fullPath) names); simpl; [done|].
  by rewrite <- app_assoc.
Qed.

Lemma entry_info_Name fs fullPath name e :
  entry_info fs fullPath name = Some e -> Name e = name.
Proof.
  unfold entry_info. destruct (fs !! _) as [[| | |]|]; intros [= <-]; done.
Qed.

(** X15. [LocalStorage.List] returns a non-nil slice only for a directory
    that [os.ReadDir] reads and of which at least one entry can be
    examined: the slice then holds, in the order of [os.ReadDir], one entry
    for every name whose [Info()] succeeds, under that name, and there is
    no error.  It never returns an empty slice that is not nil; a missing
    path and a plain file give nil without an error; a path on which
    [os.Stat] fails and a directory on which [os.ReadDir] fails give nil
    with that error. *)
Theorem LocalStorage_List_spec fs BasePath path :
  let fullPath := filepath.Join [BasePath; path] in
  LocalStorage_List fs BasePath path
  = match fs !! fullPath with
    | Some (Dir _ _ names) =>
        (match omap (entry_info fs fullPath) names with
         | [] => None
         | l => Some l
         end, None)
    | Some (Unreadable _ _ opens) => (None, Some (ReadDir_error opens))
    | Some Denied => (None, Some "permission denied")
    | Some (File _ _) | None => (None, None)
    end /\
  (LocalStorage_List fs BasePath path).1 <> Some [] /\
  (forall l, (LocalStorage_List fs BasePath path).1 = Some l ->
     (LocalStorage_List fs BasePath path).2 = None /\
     exists sz mt names,
       fs !! fullPath = Some (Dir sz mt names) /\
       sublist (map Name l) names /\
       forall e, e ∈ l -> entry_info fs fullPath (Name e) = Some e).
Proof.
  intros fullPath.
  assert (LocalStorage_List fs BasePath path
          = match fs !! fullPath with
            | Some (Dir _ _ names) =>
                (match omap (entry_info fs fullPath) names with
                 | [] => None
                 | l => Some l
                 end, None)
            | Some (Unreadable _ _ opens) => (None, Some (ReadDir_error opens))
            | Some Denied => (None, Some "permission denied")
            | Some (File _ _) | None => (None, None)
            end) as Heq.
  { unfold LocalStorage_List. fold fullPath.
    destruct (fs !! fullPath) as [[sz mt|sz mt names|sz mt opens|]|]; try done.
    rewrite List_loop_omap. simpl.
    by destruct (omap (entry_info fs fullPath) names). }
  split; [done|]. rewrite Heq.
  destruct (fs !! fullPath) as [[sz mt|sz mt names|sz mt opens|]|]; simpl;
    try (split; [done|intros l; done]).
  assert (forall ns, sublist (map Name (omap (entry_info fs fullPath) ns)) ns /\
                     forall e, e ∈ omap (entry_info fs fullPath) ns ->
                               entry_info fs fullPath (Name e) = Some e) as Hom.
  { induction ns as [|n ns [IH1 IH2]]; simpl.
    - split; [constructor|]. by intros e ?%elem_of_nil.
    - destruct (entry_info fs fullPath n) as [e0|] eqn:E; simpl;
        change (list_omap string Entry (entry_info fs fullPath) ns)
          with (omap (entry_info fs fullPath) ns).
      + pose proof (entry_info_Name _ _ _ _ E) as Hn. split.
        * rewrite Hn. by apply sublist_skip.
        * intros e [->|He]%elem_of_cons; [by rewrite Hn|by apply IH2].
      + split; [by apply sublist_cons|done]. }
  destruct (Hom names) as [Hsub Hinfo].
  destruct (omap (entry_info fs fullPath) names) as [|e0 l0] eqn:E; simpl.
  - split; [done|]. intros l; done.
  - split; [done|]. intros l [= <-]. split; [done|]. by exists sz, mt, names.
Qed.

End local_list.

Section router_more.

Import config storage handler.

Lemma NoDup_map_filter {A B} (f g : A -> B) (p : A -> bool) (l : list A) :
  (forall x y, g x = g y -> f x = f y) ->
  NoDup (map f l) -> NoDup (map g (List.filter p l)).
Proof.
  intros Hinj. induction l as [|a l IH]; simpl; [constructor|].
  intros [Hfresh Hnd]%NoDup_cons. destruct (p a); simpl; [|by apply IH].
  apply NoDup_cons. split; [|by apply IH].
  intros Hin. apply Hfresh.
  apply list_elem_of_In, in_map_iff in Hin as (x & Hx & Hxin).
  apply filter_In in Hxin as [Hxin _].
  apply list_elem_of_In, in_map_iff. exists x. split; [by apply Hinj|done].
Qed.

Lemma repo_path_inj base n1 n2 :
  base +:+ "/" +:+ n1 = base +:+ "/" +:+ n2 -> n1 = n2.
Proof.
  intros H. apply (inj (String.app base)) in H.
  by apply (inj (String.app "/")) in H.
Qed.

(** X16. The repositories the aggregate looks into are sub-directories of
    the base path other than the aggregate's own: every path returned by
    [getAggregateRepos] is that of a directory entry of the listing whose
    name is not [maven-public], the path of [maven-public] is never
    returned, and when the names of the listing are distinct no path is
    returned twice. *)
Theorem getAggregateRepos_excludes_aggregate h basePath entries :
  List (Store h) basePath = (entries, None) ->
  let base := strings.TrimRight basePath "/" in
  (forall repo, repo ∈ getAggregateRepos h basePath ->
     exists e, e ∈ elems entries /\ IsDir e = true /\
               Name e <> "maven-public" /\ repo = base +:+ "/" +:+ Name e) /\
  (base +:+ "/maven-public" ∉ getAggregateRepos h basePath) /\
  (NoDup (map Name (elems entries)) -> NoDup (getAggregateRepos h basePath)).
Proof.
  intros HL base. rewrite getAggregateRepos_eq, HL. fold base.
  assert (forall repo,
    repo ∈ (if existsb is_releases (elems entries)
            then [base +:+ "/maven-releases"] else [])
           ++ map (fun e => base +:+ "/" +:+ Name e)
                  (List.filter other_repo (elems entries)) ->
    exists e, e ∈ elems entries /\ IsDir e = true /\
              Name e <> "maven-public" /\ repo = base +:+ "/" +:+ Name e)
    as Hall.
  { intros repo [Hin|Hin]%elem_of_app.
    - destruct (existsb is_releases (elems entries)) eqn:Hrel;
        [|by apply elem_of_nil in Hin].
      apply list_elem_of_singleton in Hin as ->.
      apply existsb_exists in Hrel as (e & He & Hr).
      unfold is_releases in Hr. apply andb_true_iff in Hr as [Hd Hn].
      apply String.eqb_eq in Hn. exists e.
      rewrite list_elem_of_In, Hn. repeat split; try done.
    - apply list_elem_of_In, in_map_iff in Hin as (e & <- & He).
      apply filter_In in He as [He Ho]. unfold other_repo in Ho.
      apply andb_true_iff in Ho as [[Hd Hp]%andb_true_iff _].
      apply negb_true_iff, String.eqb_neq in Hp.
      exists e. rewrite list_elem_of_In. repeat split; try done. }
  split; [done|]. split.
  - intros Hin. destruct (Hall _ Hin) as (e & _ & _ & Hne & Heq).
    apply (repo_path_inj base "maven-public" (Name e)) in Heq. congruence.
  - intros Hnd. apply NoDup_app. split; [|split].
    + destruct (existsb is_releases (elems entries)); [|constructor].
      apply NoDup_singleton.
    + intros repo Hhead Htail.
      destruct (existsb is_releases (elems entries));
        [|by apply elem_of_nil in Hhead].
      apply list_elem_of_singleton in Hhead as ->.
      apply list_elem_of_In, in_map_iff in Htail as (e & Heq & He).
      apply filter_In in He as [_ Ho]. unfold other_repo in Ho.
      apply andb_true_iff in Ho as [_ Hr].
      apply negb_true_iff, String.eqb_neq in Hr.
      apply (repo_path_inj base (Name e) "maven-releases") in Heq. done.
    + apply (NoDup_map_filter Name); [|done].
      intros x y Hxy. by apply repo_path_inj in Hxy.
Qed.

Lemma getAggregateRepos_excludes_aggregate_witness :
  let h := fixtures.maven_handler [] in
  let base := strings.TrimRight "repository/" "/" in
  (forall repo, repo ∈ getAggregateRepos h "repository/" ->
     exists e, e ∈ elems (List (Store h) "repository/").1 /\ IsDir e = true /\
               Name e <> "maven-public" /\ repo = base +:+ "/" +:+ Name e) /\
  (base +:+ "/maven-public" ∉ getAggregateRepos h "repository/") /\
  (NoDup (map Name (elems (List (Store h) "repository/").1)) ->
   NoDup (getAggregateRepos h "repository/")).
Proof.
  apply (getAggregateRepos_excludes_aggregate (fixtures.maven_handler [])
           "repository/" (List (Store (fixtures.maven_handler []))
                               "repository/").1).
  vm_compute. reflexivity.
Defined.

End router_more.

Section walk.

Import config storage service.

Lemma Split_two s c :
  strings.in_cutset c s = true ->
  exists p q qs, strings.Split s c = p :: q :: qs.
Proof.
  induction s as [|x s IH]; simpl; [done|].
  rewrite (Ascii.eqb_sym c x). destruct (Ascii.eqb x c) eqn:E.
  - intros _. pose proof (Split_nonempty s c).
    destruct (strings.Split s c) as [|q qs]; [done|]. by eexists _, _, _.
  - intros H. destruct (IH H) as (p & q & qs & ->). by eexists _, _, _.
Qed.

Lemma leaf_cons_sep s : leaf (String "/" s) = leaf s.
Proof.
  unfold leaf. simpl. pose proof (Split_nonempty s "/").
  by destruct (strings.Split s "/").
Qed.

Lemma leaf_cons_other c s :
  c <> "/"%char ->
  leaf (String c s) = if strings.in_cutset "/" s then leaf s else String c s.
Proof.
  intros Hc. unfold leaf. simpl.
  assert (Ascii.eqb c "/" = false) as -> by by apply Ascii.eqb_neq.
  destruct (strings.in_cutset "/" s) eqn:E.
  - destruct (Split_two _ _ E) as (p & q & qs & ->). done.
  - by rewrite (Split_no_sep _ _ E).
Qed.

Lemma leaf_length s : (String.length (leaf s) <= String.length s)%nat.
Proof.
  induction s as [|c s IH]; [done|].
  destruct (ascii_dec c "/") as [->|Hc].
  - rewrite leaf_cons_sep. simpl. lia.
  - rewrite (leaf_cons_other _ _ Hc).
    destruct (strings.in_cutset "/" s); simpl; lia.
Qed.

Lemma HasSuffix_short s suffix :
  (String.length s < String.length suffix)%nat ->
  strings.HasSuffix s suffix = false.
Proof.
  intros H. unfold strings.HasSuffix.
  destruct (Nat.leb_spec (String.length suffix) (String.length s)); [lia|done].
Qed.

Lemma HasSuffix_cons c s suffix :
  strings.HasSuffix (String c s) suffix
  = if (String.length suffix <=? String.length s)%nat
    then strings.HasSuffix s suffix
    else String.eqb (String c s) suffix.
Proof.
  unfold strings.HasSuffix. simpl String.length.
  destruct (Nat.leb_spec (String.length suffix) (String.length s)) as [Hle|Hgt].
  - assert ((String.length suffix <=? S (String.length s))%nat = true) as ->
      by (apply Nat.leb_le; lia).
    replace (S (String.length s) - String.length suffix)%nat
      with (S (String.length s - String.length suffix)) by lia.
    done.
  - destruct (Nat.leb_spec (String.length suffix) (S (String.length s)))
      as [Hle|Hgt'].
    + replace (S (String.length s) - String.length suffix)%nat with 0%nat
        by lia.
      done.
    + cbn [andb]. symmetry. apply String.eqb_neq. intros <-.
      simpl in Hgt'. lia.
Qed.

Lemma in_cutset_cons c x s :
  strings.in_cutset c (String x s)
  = if Ascii.eqb c x then true else strings.in_cutset c s.
Proof. done. Qed.

(** A test for a suffix without a slash sees the last segment only. *)
Lemma HasSuffix_leaf path suffix :
  strings.in_cutset "/" suffix = false ->
  strings.HasSuffix path suffix = strings.HasSuffix (leaf path) suffix.
Proof.
  intros Hsuf. induction path as [|c s IH]; [done|].
  rewrite HasSuffix_cons.
  pose proof (leaf_length s) as Hlen.
  destruct (Nat.leb_spec (String.length suffix) (String.length s)) as [Hle|Hgt].
  - rewrite IH. destruct (ascii_dec c "/") as [->|Hc].
    + by rewrite leaf_cons_sep.
    + rewrite (leaf_cons_other _ _ Hc).
      destruct (strings.in_cutset "/" s) eqn:E; [done|].
      rewrite HasSuffix_cons.
      assert ((String.length suffix <=? String.length s)%nat = true) as ->
        by by apply Nat.leb_le.
      unfold leaf. by rewrite (Split_no_sep _ _ E).
  - destruct (ascii_dec c "/") as [->|Hc].
    + rewrite leaf_cons_sep, HasSuffix_short by lia.
      apply String.eqb_neq. intros <-. simpl in Hsuf. done.
    + rewrite (leaf_cons_other _ _ Hc).
      destruct (strings.in_cutset "/" s) eqn:E.
      * rewrite HasSuffix_short by lia.
        apply String.eqb_neq. intros <-.
        rewrite in_cutset_cons in Hsuf.
        destruct (Ascii.eqb "/" c); congruence.
      * rewrite HasSuffix_cons.
        by destruct (Nat.leb_spec (String.length suffix) (String.length s));
          [lia|].
Qed.

Lemma snapshot_dirs_loop visits : forall (dirs : gset string) dir,
  dir ∈ foldl (fun dirs v => (walkFn dirs v).1) dirs visits <->
  dir ∈ dirs \/
  (Visited dir true ∈ visits /\ strings.HasSuffix dir "-SNAPSHOT" = true).
Proof.
  induction visits as [|v visits IH]; intros dirs dir; simpl.
  - split; [by left|]. intros [?|[Hin _]]; [done|by apply elem_of_nil in Hin].
  - rewrite IH. destruct v as [path isDir|path isDir msg]; simpl.
    + destruct isDir; simpl.
      * destruct (strings.HasSuffix path "-SNAPSHOT") eqn:Hs; simpl.
        -- rewrite elem_of_union, elem_of_singleton. split.
           ++ intros [[->|Hd]|[Hin Hsuf]].
              ** right. split; [apply list_elem_of_here|done].
              ** by left.
              ** right. split; [by apply list_elem_of_further|done].
           ++ intros [Hd|[[Heq|Hin]%elem_of_cons Hsuf]].
              ** left. by right.
              ** injection Heq as ->. left. by left.
              ** right. done.
        -- split.
           ++ intros [Hd|[Hin Hsuf]]; [by left|].
              right. split; [by apply list_elem_of_further|done].
           ++ intros [Hd|[[Heq|Hin]%elem_of_cons Hsuf]]; [by left| |by right].
              injection Heq as ->. congruence.
      * split.
        -- intros [Hd|[Hin Hsuf]]; [by left|].
           right. split; [by apply list_elem_of_further|done].
        -- intros [Hd|[[Heq|Hin]%elem_of_cons Hsuf]]; [by left|done|by right].
    + split.
      * intros [Hd|[Hin Hsuf]]; [by left|].
        right. split; [by apply list_elem_of_further|done].
      * intros [Hd|[[Heq|Hin]%elem_of_cons Hsuf]]; [by left|done|by right].
Qed.

Lemma snapshot_dirs_elem visits dir :
  dir ∈ snapshot_dirs visits <->
  Visited dir true ∈ visits /\ strings.HasSuffix dir "-SNAPSHOT" = true.
Proof.
  unfold snapshot_dirs. rewrite snapshot_dirs_loop. split.
  - intros [Hin|H]; [by apply not_elem_of_empty in Hin|done].
  - by right.
Qed.

(** X17. [RunCleanup] records exactly the directories the walk visited
    without an error whose last path segment ends with [-SNAPSHOT]: plain
    files of such a name and nodes handed over with an error are passed
    over, the test on the whole path amounts to a test on the leaf name,
    and the visitor returns [nil] at every node, so that it never cuts the
    walk short. *)
Theorem snapshot_dirs_spec visits dir :
  (dir ∈ snapshot_dirs visits <->
   Visited dir true ∈ visits /\ strings.HasSuffix (leaf dir) "-SNAPSHOT" = true)
  /\ (forall dirs v, (walkFn dirs v).2 = None).
Proof.
  split.
  - rewrite snapshot_dirs_elem.
    by rewrite <- (HasSuffix_leaf dir "-SNAPSHOT").
  - intros dirs [path isDir|path isDir msg]; simpl; [|done].
    by destruct (isDir && strings.HasSuffix path "-SNAPSHOT").
Qed.

Lemma RunCleanup_results store cfg now order results dir r :
  Forall2 (fun dir r =>
             r.1 = dir /\ cleanupDir_run store cfg (now dir) dir r.2)
          order results ->
  (dir, r) ∈ results ->
  dir ∈ order /\ cleanupDir_run store cfg (now dir) dir r.
Proof.
  induction 1 as [|d x ds xs [Hd Hr] _ IH]; intros Hin.
  - by apply elem_of_nil in Hin.
  - apply elem_of_cons in Hin as [<-|Hin].
    + simpl in *. subst d. split; [apply list_elem_of_here|done].
    + destruct (IH Hin) as [Ho Hrun].
      split; [by apply list_elem_of_further|done].
Qed.

(** X18. [RunCleanup] deletes nothing but snapshot files.  It fails only
    with the error of the walk, and then nothing is cleaned.  Otherwise
    every call to [Store.Delete] made by any of its runs of [cleanupDir]
    is for a plain file, listed directly in a directory that the walk
    visited and whose leaf name ends with [-SNAPSHOT], whose own name does
    not start with [maven-metadata]: sub-directories, metadata files and
    files of other directories are never deleted. *)
Theorem RunCleanup_deletes_only_snapshot_files
  store cfg now visits walk_err out :
  RunCleanup_run store cfg now visits walk_err out ->
  out.1 = walk_err /\
  (walk_err <> None -> out.2 = []) /\
  (forall dir vs p,
     (dir, inr vs) ∈ out.2 -> p ∈ delete_calls dir vs ->
     Visited dir true ∈ visits /\
     strings.HasSuffix (leaf dir) "-SNAPSHOT" = true /\
     exists entries e,
       List store dir = (entries, None) /\ e ∈ elems entries /\
       IsDir e = false /\
       strings.HasPrefix (Name e) "maven-metadata" = false /\
       p = filepath.Join [dir; Name e]).
Proof.
  intros Hrun. inversion Hrun as [msg|order results Hperm Hall]; subst; simpl.
  - split; [done|]. split; [done|].
    intros dir vs p Hin. by apply elem_of_nil in Hin.
  - split; [done|]. split; [done|]. intros dir vs p Hin Hp.
    destruct (RunCleanup_results _ _ _ _ _ _ _ Hall Hin) as [Hdir Hclean].
    rewrite Hperm in Hdir.
    apply elem_of_elements, snapshot_dirs_elem in Hdir as [Hvisit Hsuf].
    split; [done|].
    split; [by rewrite <- (HasSuffix_leaf dir "-SNAPSHOT")|].
    inversion Hclean as [|entries versions HL Hs Hvs]; subst.
    apply delete_calls_elem in Hp as (name & Hdel & ->).
    destruct (deletes_grouped _ _ _ _ _ Hs Hdel) as (e & He & Hg & <-).
    apply andb_true_iff in Hg as [Hd%negb_true_iff Hm%negb_true_iff].
    by exists entries, e.
Qed.

Lemma RunCleanup_computes store cfg now visits walk_err :
  RunCleanup_run store cfg now visits walk_err
                 (RunCleanup store cfg now visits walk_err).
Proof.
  unfold RunCleanup. destruct walk_err as [msg|]; [constructor|].
  apply RunCleanup_ok with (order := elements (snapshot_dirs visits)); [done|].
  induction (elements (snapshot_dirs visits)) as [|d ds IH]; simpl;
    constructor; [|done].
  split; [done|]. apply cleanupDir_computes.
Qed.

Lemma RunCleanup_deletes_only_snapshot_files_witness :
  let store := examples.listing_store examples.snapshot_dir
                                      examples.snapshot_entries in
  let visits := [ Visited "." true; Visited "com" true;
                  Visited examples.snapshot_dir true;
                  Visited "com/example/app/1.0-SNAPSHOT/maven-metadata.xml" false;
                  Failed "com/broken-SNAPSHOT" None "lstat: permission denied";
                  Visited "com/lib/2.0-SNAPSHOT" true ] in
  let now := fun _ : string => examples.now in
  let out := RunCleanup store (examples.retention 0 true) now visits None in
  out.1 = None /\
  (@None string <> None -> out.2 = []) /\
  (forall dir vs p,
     (dir, inr vs) ∈ out.2 -> p ∈ delete_calls dir vs ->
     Visited dir true ∈ visits /\
     strings.HasSuffix (leaf dir) "-SNAPSHOT" = true /\
     exists entries e,
       List store dir = (entries, None) /\ e ∈ elems entries /\
       IsDir e = false /\
       strings.HasPrefix (Name e) "maven-metadata" = false /\
       p = filepath.Join [dir; Name e]).
Proof.
  intros store visits now out.
  apply (RunCleanup_deletes_only_snapshot_files
           store (examples.retention 0 true) now visits None out).
  apply RunCleanup_computes.
Defined.

End walk.

Section snapshot_keys.

Import regexp.

Lemma up_to_first_dot_prefix s :
  strings.HasPrefix s (up_to_first_dot s) = true.
Proof.
  unfold strings.HasPrefix.
  induction s as [|c s IH]; [done|]. simpl.
  destruct (Ascii.eqb c "."); [done|]. simpl.
  destruct (ascii_dec c c); [done|congruence].
Qed.

Lemma up_to_first_dot_empty s :
  up_to_first_dot s = "" -> s = "" \/ strings.HasPrefix s "." = true.
Proof.
  destruct s as [|c s]; [by left|]. simpl.
  destruct (Ascii.eqb c ".") eqn:E; [|done].
  intros _. right. apply Ascii.eqb_eq in E as ->. by destruct s.
Qed.

Lemma append_empty a b : a +:+ b = "" -> a = "".
Proof. by destruct a. Qed.

(** The matcher peels one segment off the text for the first item and
    matches the rest of the text against the other items. *)
Lemma match_items_cons_inv it rest s segs :
  match_items (it :: rest) s = Some segs ->
  exists seg segs',
    segs = seg :: segs' /\ s = seg ++ concat segs' /\
    seg_ok it seg /\ match_items rest (concat segs') = Some segs'.
Proof.
  intros H. simpl in H.
  destruct (reach it s <? imin it)%nat eqn:Hlt; [discriminate|].
  apply Nat.ltb_ge in Hlt.
  apply try_down_Some in H as (k & Hk & Hf & _).
  destruct (match_items rest (skipn k s)) as [segs'|] eqn:Hrest; [|discriminate].
  injection Hf as <-.
  destruct (match_items_sound _ _ _ Hrest) as [_ Hc].
  exists (firstn k s), segs'. split; [done|]. rewrite Hc.
  split; [by rewrite firstn_skipn|]. split; [|done].
  apply reach_seg_ok. lia.
Qed.

Ltac lit_segments :=
  repeat match goal with
         | H : seg_ok (lit _) _ |- _ => apply seg_ok_lit in H; subst
         end.

Lemma unique_segments s segs :
  match_items (re_items uniqueSnapshotRegex) s = Some segs ->
  exists s1 e8 e6 en ex,
    segs = [s1; ["-"%char]; e8; ["."%char]; e6; ["-"%char]; en; ex] /\
    s = s1 ++ "-"%char :: e8 ++ "."%char :: e6 ++ "-"%char :: en ++ ex /\
    seg_ok (plus CAny) s1 /\ seg_ok (times 8 CDigit) e8 /\
    seg_ok (times 6 CDigit) e6 /\ seg_ok (plus CDigit) en /\
    match_items [plus CDigit; star CAny] (en ++ ex) = Some [en; ex].
Proof.
  intros H. cbn [re_items uniqueSnapshotRegex] in H.
  apply match_items_cons_inv in H as (s1 & r1 & -> & -> & H1 & H).
  apply match_items_cons_inv in H as (h1 & r2 & -> & _ & Hh1 & H).
  apply match_items_cons_inv in H as (e8 & r3 & -> & _ & H8 & H).
  apply match_items_cons_inv in H as (h2 & r4 & -> & _ & Hh2 & H).
  apply match_items_cons_inv in H as (e6 & r5 & -> & _ & H6 & H).
  apply match_items_cons_inv in H as (h3 & r6 & -> & _ & Hh3 & H).
  pose proof H as Hkeep.
  apply match_items_cons_inv in H as (en & r7 & -> & _ & Hn & H).
  apply match_items_cons_inv in H as (ex & r8 & -> & _ & Hx & H).
  destruct r8; [|by destruct (concat (l :: r8))].
  lit_segments. exists s1, e8, e6, en, ex. split; [done|].
  simpl in *. rewrite ?app_nil_r in *. rewrite <- ?app_assoc. simpl.
  repeat (split; [done|]). done.
Qed.

Lemma unique_group1_nonempty f m :
  FindStringSubmatch uniqueSnapshotRegex f = Some m -> nth 1 m "" <> "".
Proof.
  unfold FindStringSubmatch. intros H.
  destruct (match_items _ _) as [segs|] eqn:Hm; [|discriminate].
  injection H as <-.
  apply unique_segments in Hm as (s1 & e8 & e6 & en & ex & -> & _ & H1 & _).
  destruct H1 as (_ & Hmin & _). simpl in Hmin.
  destruct s1; simpl in *; [lia|done].
Qed.

Lemma nonUnique_group1_nonempty f m :
  FindStringSubmatch nonUniqueSnapshotRegex f = Some m -> nth 1 m "" <> "".
Proof.
  unfold FindStringSubmatch. intros H.
  destruct (match_items _ _) as [segs|] eqn:Hm; [|discriminate].
  injection H as <-. cbn [re_items nonUniqueSnapshotRegex] in Hm.
  apply match_items_cons_inv in Hm as (s1 & r1 & -> & _ & H1 & _).
  destruct H1 as (_ & Hmin & _). simpl in Hmin.
  destruct s1; simpl in *; [lia|done].
Qed.

(** X19. The key [extractVersion] gives a file name is always a prefix of
    that name, and it is empty only for the empty name and for names that
    begin with a dot: the dot files that match neither pattern all share
    the empty key. *)
Theorem extractVersion_prefix (f : string) :
  strings.HasPrefix f (extractVersion f) = true /\
  (extractVersion f = "" -> f = "" \/ strings.HasPrefix f "." = true).
Proof.
  unfold extractVersion.
  destruct (FindStringSubmatch uniqueSnapshotRegex f) as [m|] eqn:Hu.
  - pose proof (unique_group1_nonempty _ _ Hu) as Hne.
    destruct (unique_captures _ _ Hu) as (m1 & m2 & m3 & -> & Hf).
    cbn [nth] in *. split.
    + rewrite Hf at 1.
      rewrite <- (append_assoc "-" m2 m3), <- (append_assoc m1 ("-" +:+ m2) m3).
      apply HasPrefix_app.
    + intros He. by apply append_empty in He.
  - destruct (FindStringSubmatch nonUniqueSnapshotRegex f) as [m|] eqn:Hn.
    + pose proof (nonUnique_group1_nonempty _ _ Hn) as Hne.
      destruct (nonUnique_captures _ _ Hn) as (m1 & m3 & -> & Hf).
      cbn [nth] in *. split.
      * rewrite Hf at 1.
        change (m1 +:+ "-" +:+ "SNAPSHOT") with (m1 +:+ "-SNAPSHOT").
        rewrite <- (append_assoc m1 "-SNAPSHOT" m3). apply HasPrefix_app.
      * intros He. by apply append_empty in He.
    + rewrite fallback_up_to_first_dot. split.
      * apply up_to_first_dot_prefix.
      * apply up_to_first_dot_empty.
Qed.

(** ** All the files of one unique-snapshot build share their key *)

Lemma count_hd_app_ge a b : (count_hd b <= count_hd (a ++ b))%nat.
Proof. induction a as [|c a IH]; simpl; lia. Qed.

Lemma count_hd_suffix a b l :
  l = a ++ b -> (count_hd b <= count_hd l)%nat.
Proof. intros ->. apply count_hd_app_ge. Qed.

Lemma count_hd_app_free a b :
  Forall (fun c => c <> "-"%char) a -> count_hd (a ++ b) = count_hd b.
Proof.
  induction 1 as [|c a Hc _ IH]; simpl; [done|].
  assert (Ascii.eqb c "-" = false) as -> by by apply Ascii.eqb_neq.
  simpl. done.
Qed.

Lemma count_hd_cons_free c l :
  c <> "-"%char -> count_hd (c :: l) = count_hd l.
Proof. intros Hc. exact (count_hd_app_free [c] l ltac:(by constructor)). Qed.

Lemma count_hd_hyphen_digit d l :
  is_digit d = true ->
  count_hd ("-"%char :: d :: l) = S (count_hd (d :: l)).
Proof. intros Hd. cbn [count_hd hd_digit]. by rewrite Hd. Qed.

Lemma count_hd_cons_le c l : (count_hd (c :: l) <= S (count_hd l))%nat.
Proof. simpl. destruct (_ && _); lia. Qed.

Lemma hd_digit_string s :
  hd_digit (list_ascii_of_string s) = starts_with_digit s.
Proof. by destruct s. Qed.

Lemma count_hd_hyphen_free s :
  hyphen_digit s = false -> count_hd (list_ascii_of_string s) = 0%nat.
Proof.
  induction s as [|c s IH]; simpl; [done|].
  rewrite hd_digit_string. intros [H1 H2]%orb_false_elim.
  rewrite H1, (IH H2). done.
Qed.

Lemma digit_not_hyphen c : is_digit c = true -> c <> "-"%char.
Proof. intros H ->. discriminate H. Qed.

Lemma digits_no_hyphen it seg :
  cls it = CDigit -> seg_ok it seg -> Forall (fun c => c <> "-"%char) seg.
Proof.
  intros Hcls (Hall & _). rewrite Hcls in Hall.
  eapply Forall_impl; [exact Hall|]. intros c Hc. by apply digit_not_hyphen.
Qed.

Lemma seg_ok_hd it seg :
  cls it = CDigit -> (1 <= imin it)%nat -> seg_ok it seg ->
  exists d seg', seg = d :: seg' /\ is_digit d = true.
Proof.
  intros Hcls Hmin (Hall & Hlen & _). rewrite Hcls in Hall.
  destruct seg as [|d seg']; simpl in Hlen; [lia|].
  apply Forall_cons_1 in Hall as [Hd _]. by exists d, seg'.
Qed.

Lemma app_eq_longer {A} (a b x y : list A) :
  a ++ x = b ++ y -> (length a <= length b)%nat ->
  exists t, b = a ++ t /\ x = t ++ y.
Proof.
  revert b. induction a as [|c a IH]; intros b H Hlen; simpl in *.
  - by exists b.
  - destruct b as [|d b]; simpl in *; [lia|].
    injection H as <- H. destruct (IH b H ltac:(lia)) as (t & -> & ->).
    by exists t.
Qed.

Lemma no_LF_any s :
  strings.in_cutset LF s = false ->
  Forall (fun c => cclass_ok CAny c = true) (list_ascii_of_string s).
Proof.
  induction s as [|c s IH]; [constructor|].
  cbn [strings.in_cutset list_ascii_of_string].
  destruct (Ascii.eqb LF c) eqn:E; [done|].
  intros H. constructor; [|by apply IH].
  cbn [cclass_ok]. rewrite Ascii.eqb_sym. fold LF. by rewrite E.
Qed.

Lemma stamp_segments ts :
  matches buildStamp ts ->
  exists d8 d6 dn,
    list_ascii_of_string ts = d8 ++ "."%char :: d6 ++ "-"%char :: dn /\
    seg_ok (times 8 CDigit) d8 /\ seg_ok (times 6 CDigit) d6 /\
    seg_ok (plus CDigit) dn.
Proof.
  intros (segs & HF & Hc). cbn in HF.
  repeat (apply Forall2_cons_inv_l in HF as (? & ? & ? & HF & ->)).
  apply Forall2_nil_inv_l in HF as ->. lit_segments.
  eexists _, _, _. split; [|done].
  rewrite <- Hc. simpl. rewrite ?app_nil_r. by rewrite <- ?app_assoc.
Qed.

(** X20. The files of one unique-snapshot build share their key: a name
    made of a non-empty base, a hyphen, a build stamp (eight digits, a dot,
    six digits, a hyphen and a build number) and a rest that neither starts
    with a digit nor holds a hyphen followed by a digit, such as [.jar],
    [.pom.sha1] or [-sources.jar], has the base, the hyphen and the stamp
    as its key, whatever the rest is. *)
Theorem extractVersion_unique_build (base ts ext : string) :
  base <> "" ->
  strings.in_cutset LF base = false ->
  strings.in_cutset LF ext = false ->
  matches buildStamp ts ->
  starts_with_digit ext = false ->
  hyphen_digit ext = false ->
  extractVersion (base +:+ "-" +:+ ts +:+ ext) = base +:+ "-" +:+ ts.
Proof.
  intros Hbase HlfB HlfE Hts Hstart Hhd.
  destruct (stamp_segments _ Hts) as (d8 & d6 & dn & HT & Hd8 & Hd6 & Hdn).
  set (B := list_ascii_of_string base).
  set (E := list_ascii_of_string ext).
  assert (seg_ok (plus CAny) B) as HB.
  { split; [by apply no_LF_any|]. split; [|done].
    subst B. destruct base; simpl; [done|lia]. }
  assert (seg_ok (star CAny) E) as HE.
  { split; [by apply no_LF_any|]. split; [simpl; lia|done]. }
  assert (list_ascii_of_string (base +:+ "-" +:+ ts +:+ ext)
          = B ++ "-"%char :: d8 ++ "."%char :: d6 ++ "-"%char :: dn ++ E)
    as HF.
  { rewrite !list_ascii_of_string_app, HT. simpl.
    rewrite <- ?app_assoc. simpl. by rewrite <- ?app_assoc. }
  assert (Forall2 seg_ok (re_items uniqueSnapshotRegex)
            [B; ["-"%char]; d8; ["."%char]; d6; ["-"%char]; dn; E]) as Hsegs.
  { repeat constructor; simpl; try done; try lia;
      try (by intros ? [= <-]); try apply HB; try apply Hd8; try apply Hd6;
      try apply Hdn; try apply HE. }
  assert (concat [B; ["-"%char]; d8; ["."%char]; d6; ["-"%char]; dn; E]
          = list_ascii_of_string (base +:+ "-" +:+ ts +:+ ext)) as Hcat.
  { rewrite HF. simpl. rewrite ?app_nil_r. by rewrite <- ?app_assoc. }
  destruct (match_items_complete _ _ Hsegs) as [segs Hm]. rewrite Hcat in Hm.
  destruct (unique_segments _ _ Hm)
    as (s1 & e8 & e6 & en & ex & -> & Hs & H1 & H8 & H6 & Hn & Htail).
  assert (length B <= length s1)%nat as Hgreedy.
  { cbn [re_items uniqueSnapshotRegex] in Hm, Hsegs.
    exact (match_items_greedy _ _ _ _ _ _ _ Hm Hsegs Hcat). }
  rewrite HF in Hs.
  destruct (app_eq_longer _ _ _ _ Hs Hgreedy) as (t & -> & Ht).
  assert (t = []) as ->.
  { destruct t as [|c t']; [done|exfalso].
    injection Ht as <- Ht.
    destruct (seg_ok_hd (times 8 CDigit) _ eq_refl ltac:(simpl; lia) H8)
      as (x & e8' & -> & Hx).
    destruct (seg_ok_hd (plus CDigit) _ eq_refl ltac:(simpl; lia) Hn)
      as (y & en' & -> & Hy).
    destruct (seg_ok_hd (plus CDigit) _ eq_refl ltac:(simpl; lia) Hdn)
      as (z & dn' & -> & Hz).
    match type of Ht with
    | ?lhs = _ => assert (count_hd lhs <= 1)%nat as Hle
    end.
    { rewrite (count_hd_app_free d8)
        by (eapply digits_no_hyphen; [|exact Hd8]; done).
      rewrite count_hd_cons_free by done.
      rewrite (count_hd_app_free d6)
        by (eapply digits_no_hyphen; [|exact Hd6]; done).
      etrans; [apply count_hd_cons_le|].
      change (z :: dn' ++ E) with ((z :: dn') ++ E).
      rewrite (count_hd_app_free (z :: dn'))
        by (eapply digits_no_hyphen; [|exact Hdn]; done).
      subst E. by rewrite count_hd_hyphen_free. }
    rewrite Ht in Hle. cbn [app] in Hle.
    match type of Hle with
    | (count_hd (t' ++ ?r) <= _)%nat =>
        pose proof (count_hd_app_ge t' r) as Hge1
    end.
    rewrite count_hd_hyphen_digit in Hge1 by done.
    assert (count_hd ("-"%char :: y :: en' ++ ex)
            <= count_hd (x :: e8' ++ "."%char :: e6
                           ++ "-"%char :: y :: en' ++ ex))%nat as Hge2.
    { apply (count_hd_suffix (x :: e8' ++ "."%char :: e6)).
      simpl. by rewrite <- app_assoc. }
    rewrite count_hd_hyphen_digit in Hge2 by done. lia. }
  simpl in Ht. injection Ht as Ht. rewrite app_nil_r in *.
  apply app_inj_1 in Ht as [<- Ht].
  2:{ destruct Hd8 as (_ & ? & Hmax8), H8 as (_ & ? & Hmax8').
      specialize (Hmax8 _ eq_refl). specialize (Hmax8' _ eq_refl).
      simpl in *. lia. }
  injection Ht as Ht.
  apply app_inj_1 in Ht as [<- Ht].
  2:{ destruct Hd6 as (_ & ? & Hmax6), H6 as (_ & ? & Hmax6').
      specialize (Hmax6 _ eq_refl). specialize (Hmax6' _ eq_refl).
      simpl in *. lia. }
  injection Ht as Ht.
  assert (length dn <= length en)%nat as Hlen.
  { eapply (match_items_greedy (plus CDigit) [star CAny]
              (en ++ ex) en [ex] dn [E]).
    - exact Htail.
    - repeat constructor; try apply Hdn; try apply HE.
    - simpl. rewrite app_nil_r. by rewrite Ht. }
  destruct (app_eq_longer dn en E ex Ht Hlen) as (u & Hu & HEu).
  assert (u = []) as ->.
  { destruct u as [|c u']; [done|exfalso].
    destruct Hn as (Hall & _). rewrite Hu in Hall.
    apply Forall_app in Hall as [_ Hall].
    apply Forall_cons_1 in Hall as [Hc _]. simpl in Hc.
    rewrite <- hd_digit_string in Hstart. fold E in Hstart.
    rewrite HEu in Hstart. simpl in Hstart. congruence. }
  rewrite app_nil_r in Hu.
  unfold extractVersion, FindStringSubmatch. rewrite Hm.
  cbn [re_groups uniqueSnapshotRegex map nth].
  unfold group_text. cbn [fst snd skipn firstn concat].
  rewrite ?app_nil_r. subst B E. rewrite string_of_list_ascii_of_string.
  do 2 f_equal. rewrite Hu.
  rewrite <- (string_of_list_ascii_of_string ts), HT. f_equal.
Qed.

Lemma extractVersion_unique_build_witness :
  extractVersion ("my-app-1.0" +:+ "-" +:+ "20231027.123456-12"
                  +:+ "-sources.jar.sha1")
  = "my-app-1.0" +:+ "-" +:+ "20231027.123456-12".
Proof.
  apply (extractVersion_unique_build "my-app-1.0" "20231027.123456-12"
                                     "-sources.jar.sha1").
  - done.
  - reflexivity.
  - reflexivity.
  - apply match_items_Matches. vm_compute. by eexists.
  - reflexivity.
  - reflexivity.
Defined.

Lemma no_byte_Forall c s :
  strings.in_cutset c s = false ->
  Forall (fun x => x <> c) (list_ascii_of_string s).
Proof.
  induction s as [|x s IH]; [constructor|].
  cbn [strings.in_cutset list_ascii_of_string].
  destruct (Ascii.eqb c x) eqn:E; [done|].
  intros H. constructor; [|by apply IH].
  apply Ascii.eqb_neq in E. congruence.
Qed.

Lemma nonUnique_segments s segs :
  match_items (re_items nonUniqueSnapshotRegex) s = Some segs ->
  exists s1 ex,
    segs = [s1; ["-"%char]; ["S"%char]; ["N"%char]; ["A"%char]; ["P"%char];
            ["S"%char]; ["H"%char]; ["O"%char]; ["T"%char]; ex] /\
    s = s1 ++ list_ascii_of_string "-SNAPSHOT" ++ ex.
Proof.
  intros H. apply match_items_sound in H as [HF Hc].
  cbn [re_items nonUniqueSnapshotRegex] in HF.
  repeat (apply Forall2_cons_inv_l in HF as (? & ? & ? & HF & ->)).
  apply Forall2_nil_inv_l in HF as ->. lit_segments.
  eexists _, _. split; [done|]. simpl. by rewrite app_nil_r.
Qed.

(** X21. The files of a non-unique snapshot share their key: a name made
    of a non-empty base, [-SNAPSHOT] and a rest without a hyphen, such as
    [.jar] or [.pom.md5], that does not match the unique-snapshot pattern
    has the base followed by [-SNAPSHOT] as its key. *)
Theorem extractVersion_nonunique_build (base ext : string) :
  base <> "" ->
  strings.in_cutset LF base = false ->
  strings.in_cutset LF ext = false ->
  strings.in_cutset "-" ext = false ->
  FindStringSubmatch uniqueSnapshotRegex (base +:+ "-SNAPSHOT" +:+ ext) = None ->
  extractVersion (base +:+ "-SNAPSHOT" +:+ ext) = base +:+ "-SNAPSHOT".
Proof.
  intros Hbase HlfB HlfE Hhy Hnot.
  set (B := list_ascii_of_string base).
  set (E := list_ascii_of_string ext).
  assert (seg_ok (plus CAny) B) as HB.
  { split; [by apply no_LF_any|]. split; [|done].
    subst B. destruct base; simpl; [done|lia]. }
  assert (seg_ok (star CAny) E) as HE.
  { split; [by apply no_LF_any|]. split; [simpl; lia|done]. }
  assert (list_ascii_of_string (base +:+ "-SNAPSHOT" +:+ ext)
          = B ++ list_ascii_of_string "-SNAPSHOT" ++ E) as HF.
  { by rewrite !list_ascii_of_string_app. }
  assert (Forall2 seg_ok (re_items nonUniqueSnapshotRegex)
            [B; ["-"%char]; ["S"%char]; ["N"%char]; ["A"%char]; ["P"%char];
             ["S"%char]; ["H"%char]; ["O"%char]; ["T"%char]; E]) as Hsegs.
  { repeat constructor; simpl; try done; try lia;
      try (by intros ? [= <-]); try apply HB; try apply HE. }
  match type of Hsegs with
  | Forall2 _ _ ?l =>
      assert (concat l = list_ascii_of_string (base +:+ "-SNAPSHOT" +:+ ext))
        as Hcat by (rewrite HF; simpl; by rewrite app_nil_r)
  end.
  destruct (match_items_complete _ _ Hsegs) as [segs Hm]. rewrite Hcat in Hm.
  destruct (nonUnique_segments _ _ Hm) as (s1 & ex & -> & Hs).
  assert (length B <= length s1)%nat as Hgreedy.
  { cbn [re_items nonUniqueSnapshotRegex] in Hm, Hsegs.
    exact (match_items_greedy _ _ _ _ _ _ _ Hm Hsegs Hcat). }
  rewrite HF in Hs.
  destruct (app_eq_longer _ _ _ _ Hs Hgreedy) as (t & -> & Ht).
  assert (t = []) as ->.
  { destruct t as [|c t']; [done|exfalso].
    pose proof (no_byte_Forall _ _ Hhy) as Hfree. fold E in Hfree.
    assert (forall l r, E = l ++ "-"%char :: r -> False) as Hno.
    { intros l r HEq. rewrite HEq in Hfree.
      apply Forall_app in Hfree as [_ Hfree].
      by apply Forall_cons_1 in Hfree as [? _]. }
    simpl in Ht. injection Ht as <- Ht.
    do 8 (destruct t' as [|? t'];
          [simpl in Ht; discriminate Ht|injection Ht as <- Ht]).
    by apply (Hno t' (list_ascii_of_string "SNAPSHOT" ++ ex)). }
  unfold extractVersion. rewrite Hnot.
  unfold FindStringSubmatch. rewrite Hm.
  cbn [re_groups nonUniqueSnapshotRegex map nth].
  unfold group_text. cbn [fst snd skipn firstn concat].
  rewrite !app_nil_r. subst B. by rewrite string_of_list_ascii_of_string.
Qed.

Lemma extractVersion_nonunique_build_witness :
  extractVersion ("my-app-1.0" +:+ "-SNAPSHOT" +:+ ".pom.md5")
  = "my-app-1.0" +:+ "-SNAPSHOT".
Proof.
  apply (extractVersion_nonunique_build "my-app-1.0" ".pom.md5");
    [done|reflexivity|reflexivity|reflexivity|vm_compute; reflexivity].
Defined.

End snapshot_keys.

Section retention_age_runs.

Import config storage service examples.

Lemma expired_iff_no_overflow_witness :
  expired (retention 7 false) now version_a = true <->
  SnapshotKeepDays (retention 7 false) * (24 * time.Hour)
  < now - MaxTime version_a.
Proof.
  apply (expired_iff_no_overflow (retention 7 false) now version_a).
  simpl. lia.
Defined.

Lemma cleanupDir_survivors_within_keep_days_witness :
  now - MaxTime version_a
  <= SnapshotKeepDays (retention 2 false) * (24 * time.Hour).
Proof.
  apply (cleanupDir_survivors_within_keep_days
           (listing_store snapshot_dir tie_entries) (retention 2 false)
           now snapshot_dir
           (judge_all (retention 2 false) now [version_a; version_b])
           {| v_version := version_a; shouldDelete := false; reason := "" |}).
  - simpl. lia.
  - eapply cleanupDir_ok; [reflexivity|].
    exists (map_to_list (group_entries tie_entries)).
    split; [by unfold range_map|]. split.
    + vm_compute. first [reflexivity | apply perm_swap].
    + repeat constructor.
  - apply list_elem_of_here.
  - reflexivity.
Defined.

End retention_age_runs.
